(** * Bottle positioning and single-bottle pour (bottle.cpp)

    A shallow embedding of [Bottle::init], [Bottle::turn_to], its derived
    operations and [Bottle::pour], together with the properties the design
    document states about them and further properties read off the code.

    Conventions of the embedding.

    - The C++ [int] is modelled by [Z] with exact arithmetic.  Signed overflow
      is undefined behaviour in C++; inside [turn_to] the loop counter only
      moves from the current position toward a target that was checked to lie
      in [SERVO_MIN, SERVO_MAX], so no overflow can happen there (see
      [turn_loop_writes_between]).  Integer division is the truncating one
      ([Z.quot]).  Where an [int] is passed for an [unsigned long] parameter
      (the argument of [delay]) the conversion is written out.
    - Everything the firmware does to the outside is recorded, newest first,
      in the [trace] of the [World]: actuator commands, delays, protocol
      messages, and every query of the scale, the abort flag and the blocking
      helpers together with the answer that came back.
    - The answers of the outside come from an [Env]: each external function is
      an arbitrary function of the history so far.
    - The [DEBUG_*] macros of utils.h print diagnostic lines on the serial
      line ([DEBUG] is defined there).  The design document places debug
      output out of scope; these lines are not part of the history recorded
      here, which holds the protocol messages ([MSG], [ERROR]) only.  The
      reading of [millis()] in [turn_to], whose value is never used, is left
      out as well.
    - Loops that need not terminate ([while(1)] in [pour]) take a fuel
      argument; running out of it is the distinct outcome [OutOfFuel].  The
      [for] loop of [turn_to] is given exactly the number of iterations it
      needs and is proved never to run out.
    - [Bottle::init] works on the whole array of bottles before anything
      else runs; what it does to the servos is recorded in a [Rack], one
      entry per bottle, apart from the [World] of the single bottle the
      other operations work on. *)

From Stdlib Require Import ZArith List Bool Lia.
Import ListNotations.
Open Scope Z_scope.

(** ** Error codes *)

(** Modelled from the spec: errors.h is not among the sources.  The
    constructors are the codes bottle.cpp names, [OK] standing for the value
    0, plus [ERR_OTHER] for every further code of the vocabulary (scale
    failures, time-outs, protocol errors).  Distinct names are distinct
    codes. *)
Inductive errv_t : Type :=
  | OK
  | SERVO_OUT_OF_RANGE
  | WHERE_THE_FUCK_IS_THE_CUP
  | WEIGHT_NOT_STABLE
  | BOTTLE_EMPTY
  | ABORTED
  | ADS1231_WOULD_BLOCK
  | ERR_OTHER (code : positive).

Definition errv_eqb (a b : errv_t) : bool :=
  match a, b with
  | OK, OK => true
  | SERVO_OUT_OF_RANGE, SERVO_OUT_OF_RANGE => true
  | WHERE_THE_FUCK_IS_THE_CUP, WHERE_THE_FUCK_IS_THE_CUP => true
  | WEIGHT_NOT_STABLE, WEIGHT_NOT_STABLE => true
  | BOTTLE_EMPTY, BOTTLE_EMPTY => true
  | ABORTED, ABORTED => true
  | ADS1231_WOULD_BLOCK, ADS1231_WOULD_BLOCK => true
  | ERR_OTHER m, ERR_OTHER n => Pos.eqb m n
  | _, _ => false
  end.

(** [if (ret)] / [if (ret != 0)] *)
Definition nonzero (r : errv_t) : bool := negb (errv_eqb r OK).

(** ** Constants *)

(** bottle.h *)
Definition SERVO_MIN : Z := 1000.
Definition SERVO_MAX : Z := 2000.

(** The revision of config.h that defines the constants used by bottle.cpp,
    and the revision of bottle.h that declares the default arguments of
    [turn_to], are not among the sources; they are parameters. *)
Record Config : Type := {
  WEIGHT_EPSILON : Z;
  FAST_TURN_UP_DELAY : Z;
  TURN_DOWN_DELAY : Z;
  TURN_UP_DELAY : Z;
  BOTTLE_EMPTY_POS_OFFSET : Z;
  POURING_TIMEOUT : Z;
  UPGRIGHT_OFFSET : Z;
  (* default arguments of turn_to; the default of [stable_weight] is NULL *)
  default_check_weight : bool;
  default_enable_abortcheck : bool
}.

(** ** The bottle *)

Record Bottle : Type := {
  number : Z;
  pin : Z;
  pos_down : Z;
  pos_up : Z
}.

(** ** The outside world *)

Inductive Event : Type :=
  | EvServoWrite (us : Z)                       (* servo.writeMicroseconds(us) *)
  | EvDelay (ms : Z)                            (* delay(ms): time waited *)
  | EvAbortCheck (ret : errv_t)                 (* check_aborted() *)
  | EvNoblock (ret : errv_t) (weight : Z)       (* ads1231_get_noblock(weight) *)
  | EvStableGrams (ret : errv_t) (weight : Z)   (* ads1231_get_stable_grams(w) *)
  | EvGetGrams (ret : errv_t) (weight : Z)      (* ads1231_get_grams(w) *)
  | EvWaitForCup (ret : errv_t)                 (* wait_for_cup() *)
  | EvWaitForResume (ret : errv_t)              (* wait_for_resume() *)
  | EvDelayUntil (max_ms weight : Z) (pour_handling : bool) (ret : errv_t)
                                                (* delay_until(...) *)
  | EvMsgPouring (bottle orig_weight : Z)       (* MSG("POURING n w") *)
  | EvError (e : errv_t) (bottle : option Z)    (* ERROR(c_strerror(e) [+ n]) *)
  | EvPrintLcd (line : Z).                      (* print_lcd of an empty text *)

Record World : Type := {
  servo_us : Z;          (* what servo.readMicroseconds() returns *)
  trace : list Event     (* newest first *)
}.

(** The functions of ads1231.cpp and utils.cpp that bottle.cpp calls.  They
    are not among the sources: each is a parameter, an arbitrary function of
    the history.  A function with an [int&] argument gets the old content and
    returns the new one. None of them commands the actuator. *)
Record Env : Type := {
  check_aborted : list Event -> errv_t;
  ads1231_get_noblock : list Event -> errv_t * Z;
  ads1231_get_stable_grams : list Event -> Z -> errv_t * Z;
  ads1231_get_grams : list Event -> Z -> errv_t * Z;
  wait_for_cup : list Event -> errv_t;
  wait_for_resume : list Event -> errv_t;
  delay_until : list Event -> Z -> Z -> bool -> errv_t
}.

Definition log (e : Event) (w : World) : World :=
  {| servo_us := servo_us w; trace := e :: trace w |}.

(** Servo: the position read back is the last one written. *)
Definition readMicroseconds (w : World) : Z := servo_us w.

Definition writeMicroseconds (us : Z) (w : World) : World :=
  {| servo_us := us; trace := EvServoWrite us :: trace w |}.

(** [delay] is declared [void delay(unsigned long ms)], and bottle.cpp passes
    it an [int]: the argument is converted to [unsigned long] (32 bits on the
    target), so a negative value wraps around.  [EvDelay] records the time
    waited, in milliseconds. *)
Definition to_unsigned_long (x : Z) : Z := x mod 2 ^ 32.
Arguments to_unsigned_long : simpl never.

Definition delay (ms : Z) (w : World) : World :=
  log (EvDelay (to_unsigned_long ms)) w.

(** ** Outcomes *)

Inductive outcome (A : Type) : Type :=
  | Ret (a : A)
  | OutOfFuel.
Arguments Ret {A} a.
Arguments OutOfFuel {A}.

(** What one pass through the body of the [for] loop of [turn_to] ends in:
    the next iteration (with the two remembered weights), or a [return]. *)
Inductive step_result : Type :=
  | Next (weight_previous2 weight_previous1 : Z)
  | Exit (ret : errv_t) (stable_weight : option Z).

Section BottleModel.

Variable cfg : Config.
Variable env : Env.
Variable b : Bottle.

(** ** turn_to *)

(** Lines 86-96: the abort check.  [park] is the call
    [turn_up(FAST_TURN_UP_DELAY, false)], whose result is dropped. *)
Definition abort_step (park : World -> World) (enable_abortcheck : bool)
    (w : World) : option errv_t * World :=
  if enable_abortcheck then
    let ret := check_aborted env (trace w) in
    let w1 := log (EvAbortCheck ret) w in
    if nonzero ret then (Some ret, park w1) else (None, w1)
  else (None, w).

(** Lines 99-124: the weight logic.  [want_stable] is [stable_weight != NULL];
    the value written through the pointer is the second component of
    [Exit]. *)
Definition weight_step (check_weight want_stable : bool)
    (weight_previous2 weight_previous1 : Z) (w : World) : step_result * World :=
  if check_weight || want_stable then
    let '(ret, weight) := ads1231_get_noblock env (trace w) in
    let w1 := log (EvNoblock ret weight) w in
    if errv_eqb ret OK then
      if check_weight && (weight <? WEIGHT_EPSILON cfg) then
        (Exit WHERE_THE_FUCK_IS_THE_CUP None, w1)
      else if want_stable then
        if (weight_previous2 =? weight_previous1)
           && (weight_previous1 =? weight) then
          (Exit OK (Some weight), w1)
        else (Next weight_previous1 weight, w1)
      else (Next weight_previous2 weight_previous1, w1)
    else if negb (errv_eqb ret ADS1231_WOULD_BLOCK) then (Exit ret None, w1)
    else (Next weight_previous2 weight_previous1, w1)
  else (Next weight_previous2 weight_previous1, w).

(** Lines 75-130: the body of the loop for counter [i]. *)
Definition turn_body (park : World -> World) (i delay_ms : Z)
    (check_weight want_stable enable_abortcheck : bool)
    (weight_previous2 weight_previous1 : Z) (w : World) : step_result * World :=
  match abort_step park enable_abortcheck w with
  | (Some ret, w1) => (Exit ret None, w1)
  | (None, w1) =>
      match weight_step check_weight want_stable
              weight_previous2 weight_previous1 w1 with
      | (Exit ret sw, w2) => (Exit ret sw, w2)
      | (Next p2 p1, w2) =>
          (Next p2 p1, writeMicroseconds i (delay delay_ms w2))
      end
  end.

(** The loop [for (i = current_pos + step; i * step <= pos * step; i += step)]
    and the code after it (lines 132-137). *)
Fixpoint turn_loop (park : World -> World) (fuel : nat) (i step pos delay_ms : Z)
    (check_weight want_stable enable_abortcheck : bool)
    (weight_previous2 weight_previous1 : Z) (w : World)
    : outcome (errv_t * option Z) * World :=
  if i * step <=? pos * step then
    match fuel with
    | O => (OutOfFuel, w)
    | S fuel' =>
        match turn_body park i delay_ms check_weight want_stable
                enable_abortcheck weight_previous2 weight_previous1 w with
        | (Exit ret sw, w') => (Ret (ret, sw), w')
        | (Next p2 p1, w') =>
            turn_loop park fuel' (i + step) step pos delay_ms
              check_weight want_stable enable_abortcheck p2 p1 w'
        end
    end
  else
    (* pos reached before weight stable *)
    (Ret (if want_stable then WEIGHT_NOT_STABLE else OK, None), w).

(** [turn_to] with the abort action as a parameter. *)
Definition turn_to_with (park : World -> World) (pos delay_ms : Z)
    (check_weight want_stable enable_abortcheck : bool) (w : World)
    : outcome (errv_t * option Z) * World :=
  let weight_previous1 := -9999 in
  let weight_previous2 := -9999 in
  if (pos <? SERVO_MIN) || (pos >? SERVO_MAX) then
    (Ret (SERVO_OUT_OF_RANGE, None), w)
  else
    let current_pos := readMicroseconds w in
    if pos =? current_pos then (Ret (OK, None), w)
    else
      let step := if current_pos <? pos then 1 else -1 in
      turn_loop park (Z.to_nat (Z.abs (pos - current_pos)))
        (current_pos + step) step pos delay_ms
        check_weight want_stable enable_abortcheck
        weight_previous2 weight_previous1 w.

(** [turn_up(FAST_TURN_UP_DELAY, false)] as called from inside [turn_to]:
    with [enable_abortcheck = false] the nested call never reaches the abort
    branch again, so its own abort action is never used. *)
Definition park_up (w : World) : World :=
  snd (turn_to_with (fun w' => w') (pos_up b) (FAST_TURN_UP_DELAY cfg)
         false false false w).

Definition turn_to (pos delay_ms : Z)
    (check_weight want_stable enable_abortcheck : bool)
    : World -> outcome (errv_t * option Z) * World :=
  turn_to_with park_up pos delay_ms check_weight want_stable enable_abortcheck.

Definition turn_up (delay_ms : Z) (enable_abortcheck : bool) :=
  turn_to (pos_up b) delay_ms false false enable_abortcheck.

Definition turn_down (delay_ms : Z) (check_weight : bool) :=
  turn_to (pos_down b) delay_ms check_weight false
    (default_enable_abortcheck cfg).

Definition get_pause_pos : Z := (pos_down b + pos_up b) ÷ 2.

Definition turn_to_pause_pos (delay_ms : Z) :=
  turn_to get_pause_pos delay_ms (default_check_weight cfg) false
    (default_enable_abortcheck cfg).

(** ** pour *)

(** Sequencing of effectful steps; [OutOfFuel] ends the run. *)
Definition M (A : Type) : Type := World -> outcome A * World.

Definition pure {A : Type} (a : A) : M A := fun w => (Ret a, w).

Definition bind {A B : Type} (m : M A) (k : A -> M B) : M B :=
  fun w =>
    match m w with
    | (Ret a, w1) => k a w1
    | (OutOfFuel, w1) => (OutOfFuel, w1)
    end.

Local Notation "x <- m ;; k" := (bind m (fun x => k))
  (at level 61, m at next level, right associativity).
Local Notation "m ;; k" := (bind m (fun _ => k))
  (at level 61, right associativity).

(** Output on the serial line or the display. *)
Definition emit (e : Event) : M unit := fun w => (Ret tt, log e w).

(** A call of an external function: the answer depends on the history and is
    recorded. *)
Definition ask {A : Type} (f : list Event -> A) (ev : A -> Event) : M A :=
  fun w => let a := f (trace w) in (Ret a, log (ev a) w).

(** The macro [RETURN_IFN_0(code)]; [fail] builds the value returned. *)
Definition RETURN_IFN_0 {A : Type} (code : M errv_t) (fail : errv_t -> A)
    (k : M A) : M A :=
  ret <- code ;; if nonzero ret then pure (fail ret) else k.

Definition code_of (m : M (errv_t * option Z)) : M errv_t :=
  r <- m ;; pure (fst r).

(** How the first [while(1)] of [pour] (lines 181-205) ends: [break] with the
    weight before pouring, or [return ret]. *)
Inductive baseline_result : Type :=
  | CupThere (orig_weight : Z)
  | BaselineFailed (ret : errv_t).

(** Lines 184-193: one attempt to get the weight before pouring, while
    turning toward a position just below the pause position; the result is
    [ret] and the content of [orig_weight] afterwards. *)
Definition baseline_sample (orig_weight : Z) : M (errv_t * Z) :=
  (* get weight while turning bottle, because ads1231_stable_millis()
     blocks bottle in pause position too long *)
  let below_pause := (pos_down b + get_pause_pos) ÷ 2 in
  r <- turn_to below_pause (TURN_DOWN_DELAY cfg) true true
         (default_enable_abortcheck cfg) ;;
  let ret := fst r in
  let orig_weight :=
    match snd r with Some weight => weight | None => orig_weight end in
  if errv_eqb ret WEIGHT_NOT_STABLE then
    ask (fun tr => ads1231_get_stable_grams env tr orig_weight)
        (fun a => EvStableGrams (fst a) (snd a))
  else pure (ret, orig_weight).

Fixpoint measure_baseline (fuel : nat) (orig_weight : Z) {struct fuel}
    : M baseline_result :=
  match fuel with
  | O => fun w => (OutOfFuel, w)
  | S fuel' =>
      r <- baseline_sample orig_weight ;;
      let ret := fst r in
      let orig_weight := snd r in
      if nonzero ret && negb (errv_eqb ret WHERE_THE_FUCK_IS_THE_CUP) then
        pure (BaselineFailed ret)
      else if errv_eqb ret WHERE_THE_FUCK_IS_THE_CUP
              || (orig_weight <? WEIGHT_EPSILON cfg) then
        (* no cup... *)
        RETURN_IFN_0 (ask (wait_for_cup env) EvWaitForCup) BaselineFailed
          (measure_baseline fuel' orig_weight)
      else
        (* everything fine *)
        pure (CupThere orig_weight)
  end.

(** Lines 212-227: the POURING message, the turn down and the wait for the
    requested weight; the value is [ret] as tested on line 228. *)
Definition pour_attempt (requested_amount orig_weight : Z) : M errv_t :=
  emit (EvMsgPouring (number b) orig_weight) ;;
  ret <- code_of (turn_down (TURN_DOWN_DELAY cfg) true) ;;
  if errv_eqb ret OK then
    let weight := orig_weight + requested_amount - UPGRIGHT_OFFSET cfg in
    ask (fun tr => delay_until env tr (POURING_TIMEOUT cfg) weight true)
        (EvDelayUntil (POURING_TIMEOUT cfg) weight true)
  else pure ret.

(** How the second [while(1)] (lines 209-257) ends: [break], or
    [return ret]. *)
Inductive pour_exit : Type :=
  | Poured
  | PourFailed (ret : errv_t).

(** Lines 228-256: what a pass does with [ret]; [again] is the next pass of
    the loop. *)
Definition pour_recover (again : M pour_exit) (ret : errv_t) : M pour_exit :=
  if errv_eqb ret OK then pure Poured  (* All good *)
  else if errv_eqb ret BOTTLE_EMPTY then
    (* Bottle empty *)
    emit (EvError BOTTLE_EMPTY (Some (number b))) ;;
    RETURN_IFN_0
      (code_of (turn_to (pos_up b + BOTTLE_EMPTY_POS_OFFSET cfg)
                  (TURN_UP_DELAY cfg) (default_check_weight cfg) false
                  (default_enable_abortcheck cfg)))
      PourFailed
      (RETURN_IFN_0 (ask (wait_for_resume env) EvWaitForResume) PourFailed
         (emit (EvPrintLcd 2) ;; again))
  else if errv_eqb ret WHERE_THE_FUCK_IS_THE_CUP then
    (* Cup was removed early *)
    emit (EvError WHERE_THE_FUCK_IS_THE_CUP None) ;;
    RETURN_IFN_0
      (code_of (turn_to_pause_pos (FAST_TURN_UP_DELAY cfg)))
      PourFailed
      (RETURN_IFN_0 (ask (wait_for_cup env) EvWaitForCup) PourFailed
         (emit (EvPrintLcd 2) ;; again))
  else
    (* other error *)
    pure (PourFailed ret).

Fixpoint pouring_loop (fuel : nat) (requested_amount orig_weight : Z)
    {struct fuel} : M pour_exit :=
  match fuel with
  | O => fun w => (OutOfFuel, w)
  | S fuel' =>
      ret <- pour_attempt requested_amount orig_weight ;;
      pour_recover (pouring_loop fuel' requested_amount orig_weight) ret
  end.

(** [pour(requested_amount, measured_amount)], built with the scale
    (WITHOUT_SCALE undefined).  The result is the returned code and the
    content of [measured_amount] afterwards. *)
Definition pour (fuel : nat) (requested_amount measured_amount : Z)
    : M (errv_t * Z) :=
  let orig_weight := 0 in
  bl <- measure_baseline fuel orig_weight ;;
  match bl with
  | BaselineFailed ret => pure (ret, measured_amount)
  | CupThere orig_weight =>
      ex <- pouring_loop fuel requested_amount orig_weight ;;
      match ex with
      | PourFailed ret => pure (ret, measured_amount)
      | Poured =>
          (* We turn to pause pos and not completely up so we can crossfade *)
          RETURN_IFN_0 (code_of (turn_to_pause_pos (TURN_UP_DELAY cfg)))
            (fun ret => (ret, measured_amount))
            (r <- ask (fun tr => ads1231_get_grams env tr measured_amount)
                      (fun a => EvGetGrams (fst a) (snd a)) ;;
             if nonzero (fst r) then pure (fst r, snd r)
             else pure (OK, snd r - orig_weight))
      end
  end.

End BottleModel.

(** * Vocabulary of the properties *)

(** The events recorded between world [w] and a later world [w']. *)
Definition events_since (w w' : World) : list Event :=
  firstn (length (trace w') - length (trace w)) (trace w').

(** [w'] continues the history of [w]. *)
Definition extends (w w' : World) : Prop :=
  exists new : list Event, trace w' = new ++ trace w.

(** The valid samples ([ret == 0]) that [ads1231_get_noblock] delivered,
    newest first. *)
Fixpoint recent_samples (evs : list Event) : list Z :=
  match evs with
  | [] => []
  | EvNoblock OK weight :: rest => weight :: recent_samples rest
  | _ :: rest => recent_samples rest
  end.

(** The same samples in the order in which they were taken. *)
Definition samples_seen (evs : list Event) : list Z := rev (recent_samples evs).

(** The three most recent values of a list kept newest first are all [v]. *)
Definition three_equal (v : Z) (recent : list Z) : Prop :=
  exists older : list Z, recent = v :: v :: v :: older.

(** The positions commanded to the actuator, newest first. *)
Fixpoint servo_writes (evs : list Event) : list Z :=
  match evs with
  | [] => []
  | EvServoWrite us :: rest => us :: servo_writes rest
  | _ :: rest => servo_writes rest
  end.

(** Some abort check among the events came back non-zero. *)
Definition abort_observed (evs : list Event) : Prop :=
  exists e : errv_t, e <> OK /\ In (EvAbortCheck e) evs.

(** The only things done while parking the bottle after an abort: a delay of
    [FAST_TURN_UP_DELAY] or a command to the actuator. *)
Definition park_event (cfg : Config) (ev : Event) : Prop :=
  ev = EvDelay (to_unsigned_long (FAST_TURN_UP_DELAY cfg))
  \/ exists us : Z, ev = EvServoWrite us.

(** The abort action handed to the loop only adds its own steps to the
    history. *)
Definition park_quiet (cfg : Config) (park : World -> World) : Prop :=
  forall w : World,
    extends w (park w) /\ Forall (park_event cfg) (events_since w (park w)).

(** The kinds of event [turn_to] produces. *)
Definition turn_event (ev : Event) : Prop :=
  match ev with
  | EvServoWrite _ | EvDelay _ | EvAbortCheck _ | EvNoblock _ _ => True
  | _ => False
  end.

(** Every run of [m] only adds to the history, and only events satisfying
    [Q]; this also covers runs that are cut off by lack of fuel. *)
Definition emits {A : Type} (Q : Event -> Prop) (m : M A) : Prop :=
  forall w : World,
    extends w (snd (m w)) /\ Forall Q (events_since w (snd (m w))).

(** No POURING message. *)
Definition not_pouring (ev : Event) : Prop :=
  forall n ow : Z, ev <> EvMsgPouring n ow.

(** POURING messages, if any, are for bottle [n] with weight [ow]. *)
Definition pouring_only (n ow : Z) (ev : Event) : Prop :=
  forall n' ow' : Z, ev = EvMsgPouring n' ow' -> n' = n /\ ow' = ow.

(** The valid range of the actuator. *)
Definition in_servo_range (us : Z) : Prop := SERVO_MIN <= us <= SERVO_MAX.

(** What a passed abort check leaves in the history. *)
Definition check_events (enable_abortcheck : bool) : list Event :=
  if enable_abortcheck then [EvAbortCheck OK] else [].

Section StepRuns.

Variable cfg : Config.
Variable env : Env.

(** The world after the abort check of a step that goes on. *)
Definition after_check (enable_abortcheck : bool) (w : World) : World :=
  if enable_abortcheck then log (EvAbortCheck OK) w else w.

(** The ways through one pass of the loop body of [turn_to], as a relation
    between the world before and the result and world after. *)
Inductive body_run (park : World -> World) (i delay_ms : Z)
    (check_weight want_stable enable_abortcheck : bool)
    (p2 p1 : Z) (w : World) : step_result -> World -> Prop :=
  | RunAbort (e : errv_t) :
      enable_abortcheck = true ->
      check_aborted env (trace w) = e -> e <> OK ->
      body_run park i delay_ms check_weight want_stable enable_abortcheck
        p2 p1 w (Exit e None) (park (log (EvAbortCheck e) w))
  | RunNoScale :
      (enable_abortcheck = true -> check_aborted env (trace w) = OK) ->
      check_weight = false -> want_stable = false ->
      body_run park i delay_ms check_weight want_stable enable_abortcheck
        p2 p1 w (Next p2 p1)
        (writeMicroseconds i (delay delay_ms (after_check enable_abortcheck w)))
  | RunWouldBlock (weight : Z) :
      (enable_abortcheck = true -> check_aborted env (trace w) = OK) ->
      check_weight || want_stable = true ->
      ads1231_get_noblock env (trace (after_check enable_abortcheck w))
        = (ADS1231_WOULD_BLOCK, weight) ->
      body_run park i delay_ms check_weight want_stable enable_abortcheck
        p2 p1 w (Next p2 p1)
        (writeMicroseconds i (delay delay_ms
           (log (EvNoblock ADS1231_WOULD_BLOCK weight)
              (after_check enable_abortcheck w))))
  | RunScaleError (e : errv_t) (weight : Z) :
      (enable_abortcheck = true -> check_aborted env (trace w) = OK) ->
      check_weight || want_stable = true ->
      ads1231_get_noblock env (trace (after_check enable_abortcheck w))
        = (e, weight) ->
      e <> OK -> e <> ADS1231_WOULD_BLOCK ->
      body_run park i delay_ms check_weight want_stable enable_abortcheck
        p2 p1 w (Exit e None)
        (log (EvNoblock e weight) (after_check enable_abortcheck w))
  | RunCupMissing (weight : Z) :
      (enable_abortcheck = true -> check_aborted env (trace w) = OK) ->
      check_weight = true ->
      ads1231_get_noblock env (trace (after_check enable_abortcheck w))
        = (OK, weight) ->
      weight < WEIGHT_EPSILON cfg ->
      body_run park i delay_ms check_weight want_stable enable_abortcheck
        p2 p1 w (Exit WHERE_THE_FUCK_IS_THE_CUP None)
        (log (EvNoblock OK weight) (after_check enable_abortcheck w))
  | RunStable (weight : Z) :
      (enable_abortcheck = true -> check_aborted env (trace w) = OK) ->
      want_stable = true ->
      ads1231_get_noblock env (trace (after_check enable_abortcheck w))
        = (OK, weight) ->
      (check_weight = true -> WEIGHT_EPSILON cfg <= weight) ->
      p2 = p1 -> p1 = weight ->
      body_run park i delay_ms check_weight want_stable enable_abortcheck
        p2 p1 w (Exit OK (Some weight))
        (log (EvNoblock OK weight) (after_check enable_abortcheck w))
  | RunSample (weight : Z) :
      (enable_abortcheck = true -> check_aborted env (trace w) = OK) ->
      want_stable = true ->
      ads1231_get_noblock env (trace (after_check enable_abortcheck w))
        = (OK, weight) ->
      (check_weight = true -> WEIGHT_EPSILON cfg <= weight) ->
      ~ (p2 = p1 /\ p1 = weight) ->
      body_run park i delay_ms check_weight want_stable enable_abortcheck
        p2 p1 w (Next p1 weight)
        (writeMicroseconds i (delay delay_ms
           (log (EvNoblock OK weight) (after_check enable_abortcheck w))))
  | RunCupPresent (weight : Z) :
      (enable_abortcheck = true -> check_aborted env (trace w) = OK) ->
      check_weight = true -> want_stable = false ->
      ads1231_get_noblock env (trace (after_check enable_abortcheck w))
        = (OK, weight) ->
      WEIGHT_EPSILON cfg <= weight ->
      body_run park i delay_ms check_weight want_stable enable_abortcheck
        p2 p1 w (Next p2 p1)
        (writeMicroseconds i (delay delay_ms
           (log (EvNoblock OK weight) (after_check enable_abortcheck w)))).

End StepRuns.

(** ** Bottle::init *)

(** The servo member of a bottle object: the pin it is attached to, if any,
    and the pulse width it was last told. *)
Record ServoState : Type := {
  attached : option Z;
  pulse : Z
}.

(** The servos of the array [bottles], in the order of the array, and the
    time spent in [delay]. *)
Record Rack : Type := {
  servos : list ServoState;
  waited : Z
}.

(** [bottles[i].servo.attach(pin); bottles[i].servo.writeMicroseconds(us)] *)
Fixpoint attach_and_write (i : nat) (pin_nr us : Z) (l : list ServoState)
    : list ServoState :=
  match l, i with
  | [], _ => []
  | _ :: rest, O => {| attached := Some pin_nr; pulse := us |} :: rest
  | s :: rest, S j => s :: attach_and_write j pin_nr us rest
  end.

(** The passes [i, i+1, ...] of the loop of [init], [n] of them.  An index
    outside the array, undefined in C++, ends the run. *)
Fixpoint init_loop (n i : nat) (bottles : list Bottle) (r : Rack) : Rack :=
  match n with
  | O => r
  | S n' =>
      match nth_error bottles i with
      | Some bt =>
          init_loop n' (S i) bottles
            {| servos := attach_and_write i (pin bt) (pos_up bt) (servos r);
               waited := waited r + 500 |}
      | None => r
      end
  end.

(** [Bottle::init(bottles, bottles_nr)]: [for (int i=0; i < bottles_nr; i++)]
    runs [bottles_nr] passes, none when [bottles_nr <= 0]. *)
Definition init (bottles : list Bottle) (bottles_nr : Z) (r : Rack) : Rack :=
  init_loop (Z.to_nat bottles_nr) 0 bottles r.

(** ** Further vocabulary *)

(** Positions, newest first, each one microsecond away from the one before
    it; [start] is the position before the oldest. *)
Fixpoint unit_steps (start : Z) (writes : list Z) : Prop :=
  match writes with
  | [] => True
  | us :: older => Z.abs (us - hd start older) = 1 /\ unit_steps start older
  end.

(** Events, newest first, in which delays and actuator commands only come as
    a delay directly followed by a command, the delay satisfying [ok];
    [pending] says that a command was just read and its delay is due. *)
Fixpoint paced_from (ok : Z -> Prop) (pending : bool) (evs : list Event)
    : Prop :=
  match evs with
  | [] => pending = false
  | EvDelay ms :: rest => pending = true /\ ok ms /\ paced_from ok false rest
  | EvServoWrite _ :: rest => pending = false /\ paced_from ok true rest
  | _ :: rest => pending = false /\ paced_from ok false rest
  end.

Definition paced (ok : Z -> Prop) (evs : list Event) : Prop :=
  paced_from ok false evs.

(** How often the abort flag was asked for. *)
Fixpoint abort_checks (evs : list Event) : nat :=
  match evs with
  | [] => O
  | EvAbortCheck _ :: rest => S (abort_checks rest)
  | _ :: rest => abort_checks rest
  end.

(** How often [ads1231_get_noblock] was called. *)
Fixpoint scale_reads (evs : list Event) : nat :=
  match evs with
  | [] => O
  | EvNoblock _ _ :: rest => S (scale_reads rest)
  | _ :: rest => scale_reads rest
  end.

(** What one pass of the loop of [turn_to] records of the scale: one reading
    when the scale is used, nothing otherwise. *)
Definition pass_reading (use_scale : bool) (reading : list Event) : Prop :=
  if use_scale then
    exists (ret : errv_t) (weight : Z), reading = [EvNoblock ret weight]
  else reading = [].

(** A history, newest first, made of complete passes of the loop of
    [turn_to] in which no abort was seen.  In each pass the abort flag is
    asked for first (if enabled, and the answer was 0), then the scale is
    read (if used), then [delay] is called, and last the position of the
    pass is commanded. *)
Inductive pass_history (enable_abortcheck use_scale : bool) (delay_ms : Z)
    : list Event -> Prop :=
  | no_pass : pass_history enable_abortcheck use_scale delay_ms []
  | one_more_pass (i : Z) (reading older : list Event) :
      pass_reading use_scale reading ->
      pass_history enable_abortcheck use_scale delay_ms older ->
      pass_history enable_abortcheck use_scale delay_ms
        (EvServoWrite i :: EvDelay (to_unsigned_long delay_ms)
           :: reading ++ check_events enable_abortcheck ++ older).

(** What the first loop of [pour] may leave in the history: steps of
    [turn_to], the blocking stable reading and the wait for the cup; no
    message, no display output. *)
Definition baseline_event (ev : Event) : Prop :=
  match ev with
  | EvServoWrite _ | EvDelay _ | EvAbortCheck _ | EvNoblock _ _
  | EvStableGrams _ _ | EvWaitForCup _ => True
  | _ => False
  end.

(** What the pouring loop of [pour] for bottle [n], asked for
    [requested_amount] with the weight [ow] before pouring, may leave in the
    history. *)
Definition pouring_event (cfg : Config) (n requested_amount ow : Z)
    (ev : Event) : Prop :=
  match ev with
  | EvMsgPouring n' ow' => n' = n /\ ow' = ow
  | EvDelayUntil max_ms weight pour_handling _ =>
      max_ms = POURING_TIMEOUT cfg
      /\ weight = ow + requested_amount - UPGRIGHT_OFFSET cfg
      /\ pour_handling = true
  | EvError e o =>
      (e = BOTTLE_EMPTY /\ o = Some n)
      \/ (e = WHERE_THE_FUCK_IS_THE_CUP /\ o = None)
  | EvPrintLcd line => line = 2
  | EvStableGrams _ _ | EvGetGrams _ _ => False
  | _ => True
  end.

(** What [pour] leaves in the history after its pouring loop, newest first:
    the steps of a move, and on top of them at most one final reading. *)
Definition closing_events (evs : list Event) : Prop :=
  Forall turn_event evs
  \/ exists (r : errv_t) (g : Z) (rest : list Event),
       evs = EvGetGrams r g :: rest /\ Forall turn_event rest.

(** Boolean form of [abort_observed]. *)
Definition abort_observedb (evs : list Event) : bool :=
  existsb (fun ev => match ev with
                     | EvAbortCheck e => nonzero e
                     | _ => false
                     end) evs.

(** * Sample set-ups

    Concrete constants, a bottle and a few behaviours of the outside, on
    which the properties below are exercised. *)
Module Sample.

Definition cfg : Config :=
  {| WEIGHT_EPSILON := 10;
     FAST_TURN_UP_DELAY := 2;
     TURN_DOWN_DELAY := 10;
     TURN_UP_DELAY := 5;
     BOTTLE_EMPTY_POS_OFFSET := 30;
     POURING_TIMEOUT := 20000;
     UPGRIGHT_OFFSET := 5;
     default_check_weight := false;
     default_enable_abortcheck := true |}.

Definition bottle : Bottle :=
  {| number := 0; pin := 13; pos_down := 1520; pos_up := 1500 |}.

(** A cup of 50 g stands on the scale, 80 g once poured; nobody aborts. *)
Definition env_steady : Env :=
  {| check_aborted := fun _ => OK;
     ads1231_get_noblock := fun _ => (OK, 50);
     ads1231_get_stable_grams := fun _ _ => (OK, 50);
     ads1231_get_grams := fun _ _ => (OK, 80);
     wait_for_cup := fun _ => OK;
     wait_for_resume := fun _ => OK;
     delay_until := fun _ _ _ _ => OK |}.

(** The abort flag is set. *)
Definition env_abort : Env :=
  {| check_aborted := fun _ => ABORTED;
     ads1231_get_noblock := fun _ => (OK, 50);
     ads1231_get_stable_grams := fun _ _ => (OK, 50);
     ads1231_get_grams := fun _ _ => (OK, 80);
     wait_for_cup := fun _ => OK;
     wait_for_resume := fun _ => OK;
     delay_until := fun _ _ _ _ => OK |}.


(** The scale is empty: 3 g. *)
Definition env_no_cup : Env :=
  {| check_aborted := fun _ => OK;
     ads1231_get_noblock := fun _ => (OK, 3);
     ads1231_get_stable_grams := fun _ _ => (OK, 3);
     ads1231_get_grams := fun _ _ => (OK, 3);
     wait_for_cup := fun _ => OK;
     wait_for_resume := fun _ => OK;
     delay_until := fun _ _ _ _ => OK |}.

(** The weight keeps rising: every sample differs from the one before. *)
Definition env_rising : Env :=
  {| check_aborted := fun _ => OK;
     ads1231_get_noblock := fun tr => (OK, 50 + Z.of_nat (length tr));
     ads1231_get_stable_grams := fun _ _ => (OK, 50);
     ads1231_get_grams := fun _ _ => (OK, 80);
     wait_for_cup := fun _ => OK;
     wait_for_resume := fun _ => OK;
     delay_until := fun _ _ _ _ => OK |}.

Definition error_sent (tr : list Event) : bool :=
  existsb (fun ev => match ev with EvError _ _ => true | _ => false end) tr.

(** The bottle runs dry on the first attempt, and is refilled after the
    error message. *)
Definition env_dry : Env :=
  {| check_aborted := fun _ => OK;
     ads1231_get_noblock := fun _ => (OK, 50);
     ads1231_get_stable_grams := fun _ _ => (OK, 50);
     ads1231_get_grams := fun _ _ => (OK, 80);
     wait_for_cup := fun _ => OK;
     wait_for_resume := fun _ => OK;
     delay_until := fun tr _ _ _ => if error_sent tr then OK else BOTTLE_EMPTY |}.

(** The abort check itself answers ADS1231_WOULD_BLOCK. *)
Definition env_busy : Env :=
  {| check_aborted := fun _ => ADS1231_WOULD_BLOCK;
     ads1231_get_noblock := fun _ => (OK, 50);
     ads1231_get_stable_grams := fun _ _ => (OK, 50);
     ads1231_get_grams := fun _ _ => (OK, 80);
     wait_for_cup := fun _ => OK;
     wait_for_resume := fun _ => OK;
     delay_until := fun _ _ _ _ => OK |}.

(** The scale fails with an error code of its own. *)
Definition env_broken : Env :=
  {| check_aborted := fun _ => OK;
     ads1231_get_noblock := fun _ => (ERR_OTHER 1, 0);
     ads1231_get_stable_grams := fun _ _ => (ERR_OTHER 1, 0);
     ads1231_get_grams := fun _ _ => (ERR_OTHER 1, 0);
     wait_for_cup := fun _ => OK;
     wait_for_resume := fun _ => OK;
     delay_until := fun _ _ _ _ => OK |}.

(** The cup is taken away during the first attempt, and put back after the
    error message. *)
Definition env_cup_taken : Env :=
  {| check_aborted := fun _ => OK;
     ads1231_get_noblock := fun _ => (OK, 50);
     ads1231_get_stable_grams := fun _ _ => (OK, 50);
     ads1231_get_grams := fun _ _ => (OK, 80);
     wait_for_cup := fun _ => OK;
     wait_for_resume := fun _ => OK;
     delay_until := fun tr _ _ _ =>
       if error_sent tr then OK else WHERE_THE_FUCK_IS_THE_CUP |}.

(** Waiting for the requested weight fails with an error code of its own. *)
Definition env_wait_fails : Env :=
  {| check_aborted := fun _ => OK;
     ads1231_get_noblock := fun _ => (OK, 50);
     ads1231_get_stable_grams := fun _ _ => (OK, 50);
     ads1231_get_grams := fun _ _ => (OK, 80);
     wait_for_cup := fun _ => OK;
     wait_for_resume := fun _ => OK;
     delay_until := fun _ _ _ _ => ERR_OTHER 2 |}.

(** The abort flag is raised once the bottle has made its first step, and
    from then on the cup is off the scale (3 g). *)
Definition env_abort_late : Env :=
  {| check_aborted := fun tr => match tr with [] => OK | _ => ABORTED end;
     ads1231_get_noblock := fun tr =>
       if (length tr <=? 1)%nat then (OK, 50) else (OK, 3);
     ads1231_get_stable_grams := fun _ _ => (OK, 3);
     ads1231_get_grams := fun _ _ => (OK, 3);
     wait_for_cup := fun _ => OK;
     wait_for_resume := fun _ => OK;
     delay_until := fun _ _ _ _ => OK |}.

(** [wait_for_cup] has been called. *)
Definition waited_for_cup (tr : list Event) : bool :=
  existsb (fun ev => match ev with EvWaitForCup _ => true | _ => false end) tr.

(** The cup is handled while the bottle turns toward the position below the
    pause position: the readings keep changing, none below 50 g.  When the
    blocking stable reading is taken the cup is off the scale (3 g).  From
    the first call of [wait_for_cup] on the cup stands on the scale again
    (50 g). *)
Definition env_cup_late : Env :=
  {| check_aborted := fun _ => OK;
     ads1231_get_noblock := fun tr =>
       if waited_for_cup tr then (OK, 50)
       else (OK, 50 + Z.of_nat (length tr));
     ads1231_get_stable_grams := fun tr _ =>
       if waited_for_cup tr then (OK, 50) else (OK, 3);
     ads1231_get_grams := fun _ _ => (OK, 80);
     wait_for_cup := fun _ => OK;
     wait_for_resume := fun _ => OK;
     delay_until := fun _ _ _ _ => OK |}.

(** The messages, waits and scale readings of a run in the order in which
    they happened, leaving out the steps of the actuator. *)
Definition story (w : World) : list Event :=
  filter (fun ev => match ev with
                    | EvMsgPouring _ _ | EvError _ _ | EvWaitForCup _
                    | EvWaitForResume _ | EvPrintLcd _ | EvDelayUntil _ _ _ _
                    | EvStableGrams _ _ | EvGetGrams _ _ => true
                    | _ => false
                    end)
         (rev (trace w)).

(** The bottle stands upright, at the pouring position, or in between;
    nothing has happened yet. *)
Definition w_up : World := {| servo_us := 1500; trace := [] |}.
Definition w_mid : World := {| servo_us := 1505; trace := [] |}.

(** The bottle after one step from 1505 toward 1510, with a cup of 50 g. *)
Definition w_stepped : World :=
  {| servo_us := 1506;
     trace := [EvServoWrite 1506; EvDelay 10; EvNoblock OK 50;
               EvAbortCheck OK] |}.

(** The bottle stands just below the pause position. *)
Definition w_below : World := {| servo_us := 1515; trace := [] |}.

(** Two bottles, and their servos before [init]. *)
Definition bottles2 : list Bottle :=
  [bottle; {| number := 1; pin := 12; pos_down := 1530; pos_up := 1490 |}].

Definition rack0 : Rack :=
  {| servos := [ {| attached := None; pulse := 0 |};
                 {| attached := None; pulse := 0 |} ];
     waited := 0 |}.

End Sample.

(** * Properties *)

Section BottleFacts.

Variable cfg : Config.
Variable env : Env.
Variable b : Bottle.

(** ** Error codes *)

Lemma errv_eqb_eq (x y : errv_t) : errv_eqb x y = true <-> x = y.
Proof.
  split.
  - destruct x, y; simpl; intro H; try discriminate; try reflexivity.
    apply Pos.eqb_eq in H. now subst.
  - intros <-. destruct x; simpl; try reflexivity. apply Pos.eqb_refl.
Qed.

Lemma errv_eqb_neq (x y : errv_t) : errv_eqb x y = false <-> x <> y.
Proof.
  rewrite <- errv_eqb_eq. destruct (errv_eqb x y); split; congruence.
Qed.

Lemma nonzero_true (r : errv_t) : nonzero r = true <-> r <> OK.
Proof.
  unfold nonzero. rewrite negb_true_iff. apply errv_eqb_neq.
Qed.

Lemma nonzero_false (r : errv_t) : nonzero r = false <-> r = OK.
Proof.
  unfold nonzero. rewrite negb_false_iff. apply errv_eqb_eq.
Qed.

Lemma range_check_false (pos : Z) :
  (pos <? SERVO_MIN) || (pos >? SERVO_MAX) = false
  <-> SERVO_MIN <= pos <= SERVO_MAX.
Proof.
  rewrite orb_false_iff, Z.gtb_ltb, !Z.ltb_ge. tauto.
Qed.

Lemma range_check_true (pos : Z) :
  (pos <? SERVO_MIN) || (pos >? SERVO_MAX) = true
  <-> pos < SERVO_MIN \/ SERVO_MAX < pos.
Proof.
  rewrite orb_true_iff, Z.gtb_ltb, !Z.ltb_lt. tauto.
Qed.

(** ** Histories *)

Lemma events_since_app (w w' : World) (new : list Event) :
  trace w' = new ++ trace w -> events_since w w' = new.
Proof.
  intro H. unfold events_since. rewrite H, length_app.
  replace (length new + length (trace w) - length (trace w))%nat
    with (length new + 0)%nat by lia.
  rewrite firstn_app_2. simpl. apply app_nil_r.
Qed.

Lemma extends_events (w w' : World) :
  extends w w' -> trace w' = events_since w w' ++ trace w.
Proof.
  intros [new H]. now rewrite (events_since_app _ _ _ H).
Qed.

Lemma extends_refl (w : World) : extends w w.
Proof. now exists []. Qed.

Lemma extends_trans (w1 w2 w3 : World) :
  extends w1 w2 -> extends w2 w3 -> extends w1 w3.
Proof.
  intros [n1 H1] [n2 H2]. exists (n2 ++ n1).
  now rewrite H2, H1, app_assoc.
Qed.

Lemma events_since_refl (w : World) : events_since w w = [].
Proof. now apply events_since_app. Qed.

Lemma events_since_trans (w1 w2 w3 : World) :
  extends w1 w2 -> extends w2 w3 ->
  events_since w1 w3 = events_since w2 w3 ++ events_since w1 w2.
Proof.
  intros H1 H2. apply events_since_app.
  rewrite (extends_events _ _ H2) at 1.
  rewrite (extends_events _ _ H1) at 1.
  now rewrite app_assoc.
Qed.

Lemma extends_log (e : Event) (w : World) : extends w (log e w).
Proof. now exists [e]. Qed.

Lemma extends_after_check (ab : bool) (w : World) :
  extends w (after_check ab w).
Proof. destruct ab; [apply extends_log | apply extends_refl]. Qed.

Create HintDb history.
#[local] Hint Resolve extends_refl extends_log extends_after_check : history.

(** Nothing was recorded: the world is the one the run started from. *)
Ltac nothing_recorded :=
  intros; simpl; rewrite ?events_since_refl;
  first [ split; [apply extends_refl | constructor] | constructor ].

Lemma servo_after_check (ab : bool) (w : World) :
  servo_us (after_check ab w) = servo_us w.
Proof. now destruct ab. Qed.

Lemma events_after_check (ab : bool) (w : World) :
  events_since w (after_check ab w)
  = if ab then [EvAbortCheck OK] else [].
Proof. apply events_since_app. now destruct ab. Qed.

(** ** One pass through the loop body *)

Lemma turn_body_run (park : World -> World) (i delay_ms : Z)
    (cw ws ab : bool) (p2 p1 : Z) (w : World) :
  body_run cfg env park i delay_ms cw ws ab p2 p1 w
    (fst (turn_body cfg env park i delay_ms cw ws ab p2 p1 w))
    (snd (turn_body cfg env park i delay_ms cw ws ab p2 p1 w)).
Proof.
  unfold turn_body, abort_step.
  assert (Hchk : forall w1, (ab = true -> check_aborted env (trace w) = OK) ->
            w1 = after_check ab w ->
            body_run cfg env park i delay_ms cw ws ab p2 p1 w
              (fst (match weight_step cfg env cw ws p2 p1 w1 with
                    | (Exit ret sw, w2) => (Exit ret sw, w2)
                    | (Next q2 q1, w2) =>
                        (Next q2 q1, writeMicroseconds i (delay delay_ms w2))
                    end))
              (snd (match weight_step cfg env cw ws p2 p1 w1 with
                    | (Exit ret sw, w2) => (Exit ret sw, w2)
                    | (Next q2 q1, w2) =>
                        (Next q2 q1, writeMicroseconds i (delay delay_ms w2))
                    end))).
  { intros w1 Hok ->. unfold weight_step.
    destruct (cw || ws) eqn:Hscale.
    - destruct (ads1231_get_noblock env (trace (after_check ab w)))
        as [ret weight] eqn:Hnb.
      destruct (errv_eqb ret OK) eqn:Hret.
      + apply errv_eqb_eq in Hret. subst ret.
        destruct cw; simpl andb.
        * destruct (weight <? WEIGHT_EPSILON cfg) eqn:Hlt.
          -- apply Z.ltb_lt in Hlt. simpl. now apply RunCupMissing.
          -- apply Z.ltb_ge in Hlt. destruct ws.
             ++ destruct ((p2 =? p1) && (p1 =? weight)) eqn:Hst; simpl.
                ** apply andb_true_iff in Hst. destruct Hst as [H2 H1].
                   apply Z.eqb_eq in H2, H1. now apply RunStable.
                ** apply RunSample; auto. intros [H2 H1].
                   apply Z.eqb_eq in H2, H1. rewrite H2, H1 in Hst. discriminate.
             ++ simpl. now apply RunCupPresent.
        * simpl in Hscale. subst ws.
          destruct ((p2 =? p1) && (p1 =? weight)) eqn:Hst; simpl.
          -- apply andb_true_iff in Hst. destruct Hst as [H2 H1].
             apply Z.eqb_eq in H2, H1. apply RunStable; auto. discriminate.
          -- apply RunSample; auto; [discriminate|]. intros [H2 H1].
             apply Z.eqb_eq in H2, H1. rewrite H2, H1 in Hst. discriminate.
      + apply errv_eqb_neq in Hret.
        destruct (errv_eqb ret ADS1231_WOULD_BLOCK) eqn:Hwb; simpl.
        * apply errv_eqb_eq in Hwb. subst ret. now apply RunWouldBlock.
        * apply errv_eqb_neq in Hwb. now apply RunScaleError.
    - apply orb_false_iff in Hscale. destruct Hscale. simpl.
      now apply RunNoScale. }
  destruct ab.
  - destruct (nonzero (check_aborted env (trace w))) eqn:Hnz.
    + apply nonzero_true in Hnz. simpl. now apply RunAbort.
    + apply nonzero_false in Hnz. apply Hchk; [auto|].
      simpl. now rewrite Hnz.
  - apply Hchk; [discriminate | reflexivity].
Qed.

(** Induction over the iterations of the loop: a property of the result is
    established at the exit of the loop, at every [return] inside the body,
    and carried back over every pass that goes on. *)
Lemma turn_loop_induction (park : World -> World) (step pos delay_ms : Z)
    (cw ws ab : bool)
    (P : Z -> Z -> Z -> World -> outcome (errv_t * option Z) * World -> Prop) :
  (forall i p2 p1 w, pos * step < i * step ->
     P i p2 p1 w (Ret (if ws then WEIGHT_NOT_STABLE else OK, None), w)) ->
  (forall i p2 p1 w, i * step <= pos * step -> P i p2 p1 w (OutOfFuel, w)) ->
  (forall i p2 p1 w ret sw w', i * step <= pos * step ->
     body_run cfg env park i delay_ms cw ws ab p2 p1 w (Exit ret sw) w' ->
     P i p2 p1 w (Ret (ret, sw), w')) ->
  (forall i p2 p1 w q2 q1 w' res, i * step <= pos * step ->
     body_run cfg env park i delay_ms cw ws ab p2 p1 w (Next q2 q1) w' ->
     P (i + step) q2 q1 w' res -> P i p2 p1 w res) ->
  forall fuel i p2 p1 w,
    P i p2 p1 w
      (turn_loop cfg env park fuel i step pos delay_ms cw ws ab p2 p1 w).
Proof.
  intros Hexit Hfuel Hret Hnext fuel.
  induction fuel as [|fuel IH]; intros i p2 p1 w; simpl.
  - destruct (i * step <=? pos * step) eqn:Hc.
    + apply Z.leb_le in Hc. now apply Hfuel.
    + apply Z.leb_gt in Hc. now apply Hexit.
  - destruct (i * step <=? pos * step) eqn:Hc.
    + apply Z.leb_le in Hc.
      pose proof (turn_body_run park i delay_ms cw ws ab p2 p1 w) as Hrun.
      destruct (turn_body cfg env park i delay_ms cw ws ab p2 p1 w)
        as [[q2 q1 | ret sw] w']; simpl in Hrun.
      * eapply Hnext; eauto.
      * now apply Hret.
    + apply Z.leb_gt in Hc. now apply Hexit.
Qed.

(** ** The loop terminates *)

Lemma turn_loop_terminates_up (park : World -> World) (pos delay_ms : Z)
    (cw ws ab : bool) :
  forall (fuel : nat) (i p2 p1 : Z) (w : World),
    pos - i < Z.of_nat fuel ->
    exists r w',
      turn_loop cfg env park fuel i 1 pos delay_ms cw ws ab p2 p1 w
      = (Ret r, w').
Proof.
  intros fuel.
  induction fuel as [|fuel IH]; intros i p2 p1 w Hfuel; simpl.
  - destruct (i * 1 <=? pos * 1) eqn:Hc; [|eauto].
    apply Z.leb_le in Hc. simpl in Hfuel. lia.
  - destruct (i * 1 <=? pos * 1) eqn:Hc; [|eauto].
    destruct (turn_body cfg env park i delay_ms cw ws ab p2 p1 w)
      as [[q2 q1 | ret sw] w']; [|eauto].
    apply IH. lia.
Qed.

Lemma turn_loop_terminates_down (park : World -> World) (pos delay_ms : Z)
    (cw ws ab : bool) :
  forall (fuel : nat) (i p2 p1 : Z) (w : World),
    i - pos < Z.of_nat fuel ->
    exists r w',
      turn_loop cfg env park fuel i (-1) pos delay_ms cw ws ab p2 p1 w
      = (Ret r, w').
Proof.
  intros fuel.
  induction fuel as [|fuel IH]; intros i p2 p1 w Hfuel; simpl.
  - destruct (i * -1 <=? pos * -1) eqn:Hc; [|eauto].
    apply Z.leb_le in Hc. simpl in Hfuel. lia.
  - destruct (i * -1 <=? pos * -1) eqn:Hc; [|eauto].
    destruct (turn_body cfg env park i delay_ms cw ws ab p2 p1 w)
      as [[q2 q1 | ret sw] w']; [|eauto].
    apply IH. lia.
Qed.

(** [turn_to] always returns: the fuel handed to its loop is enough. *)
Lemma turn_to_with_terminates (park : World -> World) (pos delay_ms : Z)
    (cw ws ab : bool) (w : World) :
  exists r w',
    turn_to_with cfg env park pos delay_ms cw ws ab w = (Ret r, w').
Proof.
  unfold turn_to_with.
  destruct ((pos <? SERVO_MIN) || (pos >? SERVO_MAX)); [eauto|].
  unfold readMicroseconds.
  destruct (pos =? servo_us w) eqn:Heq; [eauto|].
  apply Z.eqb_neq in Heq.
  destruct (servo_us w <? pos) eqn:Hlt.
  - apply Z.ltb_lt in Hlt. apply turn_loop_terminates_up. lia.
  - apply Z.ltb_ge in Hlt. apply turn_loop_terminates_down. lia.
Qed.

Lemma turn_to_terminates (pos delay_ms : Z) (cw ws ab : bool) (w : World) :
  exists r w', turn_to cfg env b pos delay_ms cw ws ab w = (Ret r, w').
Proof. apply turn_to_with_terminates. Qed.

(** ** Every step only adds to the history *)

Lemma body_run_extends (park : World -> World) (i delay_ms : Z)
    (cw ws ab : bool) (p2 p1 : Z) (w : World) (r : step_result) (w' : World) :
  (forall w0, extends w0 (park w0)) ->
  body_run cfg env park i delay_ms cw ws ab p2 p1 w r w' ->
  extends w w'.
Proof.
  intros Hpark Hrun.
  inversion Hrun; subst; clear Hrun;
    [ eapply extends_trans; [apply extends_log | apply Hpark]
    | eapply extends_trans; [apply extends_after_check|] .. ].
  - now exists [EvServoWrite i; EvDelay (to_unsigned_long delay_ms)].
  - now exists [EvServoWrite i; EvDelay (to_unsigned_long delay_ms);
                 EvNoblock ADS1231_WOULD_BLOCK weight].
  - auto with history.
  - auto with history.
  - auto with history.
  - now exists [EvServoWrite i; EvDelay (to_unsigned_long delay_ms); EvNoblock OK weight].
  - now exists [EvServoWrite i; EvDelay (to_unsigned_long delay_ms); EvNoblock OK weight].
Qed.

Lemma turn_loop_extends (park : World -> World) (step pos delay_ms : Z)
    (cw ws ab : bool) :
  (forall w0, extends w0 (park w0)) ->
  forall fuel i p2 p1 w,
    extends w
      (snd (turn_loop cfg env park fuel i step pos delay_ms cw ws ab p2 p1 w)).
Proof.
  intro Hpark.
  apply (turn_loop_induction park step pos delay_ms cw ws ab
           (fun _ _ _ w res => extends w (snd res))); simpl; intros.
  - apply extends_refl.
  - apply extends_refl.
  - eapply body_run_extends; eauto.
  - eapply extends_trans; [eapply body_run_extends|]; eauto.
Qed.

Lemma turn_to_with_extends (park : World -> World) (pos delay_ms : Z)
    (cw ws ab : bool) (w : World) :
  (forall w0, extends w0 (park w0)) ->
  extends w (snd (turn_to_with cfg env park pos delay_ms cw ws ab w)).
Proof.
  intro Hpark. unfold turn_to_with.
  destruct ((pos <? SERVO_MIN) || (pos >? SERVO_MAX)); [apply extends_refl|].
  destruct (pos =? readMicroseconds w); [apply extends_refl|].
  now apply turn_loop_extends.
Qed.

Lemma park_up_extends (w : World) : extends w (park_up cfg env b w).
Proof.
  unfold park_up. apply turn_to_with_extends. intro. apply extends_refl.
Qed.

Lemma turn_to_extends (pos delay_ms : Z) (cw ws ab : bool) (w : World) :
  extends w (snd (turn_to cfg env b pos delay_ms cw ws ab w)).
Proof. apply turn_to_with_extends, park_up_extends. Qed.

(** ** The events of one pass *)

Lemma trace_after_check (ab : bool) (w : World) :
  trace (after_check ab w) = check_events ab ++ trace w.
Proof. now destruct ab. Qed.

Lemma events_moved (ab : bool) (i d : Z) (w : World) :
  events_since w (writeMicroseconds i (delay d (after_check ab w)))
  = EvServoWrite i :: EvDelay (to_unsigned_long d) :: check_events ab.
Proof. apply events_since_app. simpl. now rewrite trace_after_check. Qed.

Lemma events_moved_read (ab : bool) (i d : Z) (ev : Event) (w : World) :
  events_since w (writeMicroseconds i (delay d (log ev (after_check ab w))))
  = EvServoWrite i :: EvDelay (to_unsigned_long d) :: ev :: check_events ab.
Proof. apply events_since_app. simpl. now rewrite trace_after_check. Qed.

Lemma events_read (ab : bool) (ev : Event) (w : World) :
  events_since w (log ev (after_check ab w)) = ev :: check_events ab.
Proof. apply events_since_app. simpl. now rewrite trace_after_check. Qed.

Lemma events_parked (park : World -> World) (e : errv_t) (w : World) :
  extends (log (EvAbortCheck e) w) (park (log (EvAbortCheck e) w)) ->
  events_since w (park (log (EvAbortCheck e) w))
  = events_since (log (EvAbortCheck e) w) (park (log (EvAbortCheck e) w))
    ++ [EvAbortCheck e].
Proof.
  intro H. rewrite (events_since_trans w (log (EvAbortCheck e) w)); auto.
  - f_equal. now apply events_since_app.
  - apply extends_log.
Qed.

Lemma servo_writes_app (l1 l2 : list Event) :
  servo_writes (l1 ++ l2) = servo_writes l1 ++ servo_writes l2.
Proof.
  induction l1 as [|[] l1 IH]; simpl; auto. now rewrite IH.
Qed.

Lemma recent_samples_app (l1 l2 : list Event) :
  recent_samples (l1 ++ l2) = recent_samples l1 ++ recent_samples l2.
Proof.
  induction l1 as [|[] l1 IH]; simpl; auto.
  destruct ret; simpl; auto. now rewrite IH.
Qed.

Lemma servo_writes_check (ab : bool) : servo_writes (check_events ab) = [].
Proof. now destruct ab. Qed.

Lemma recent_samples_check (ab : bool) : recent_samples (check_events ab) = [].
Proof. now destruct ab. Qed.

Lemma check_events_ok (ab : bool) (e : errv_t) :
  In (EvAbortCheck e) (check_events ab) -> e = OK.
Proof.
  destruct ab; simpl; [|tauto]. intros [H|[]]. congruence.
Qed.

Lemma abort_observed_app (l1 l2 : list Event) :
  abort_observed (l1 ++ l2) <-> abort_observed l1 \/ abort_observed l2.
Proof.
  unfold abort_observed. split.
  - intros [e [He Hin]]. apply in_app_or in Hin. destruct Hin; eauto.
  - intros [[e [He Hin]] | [e [He Hin]]]; exists e; split; auto;
      apply in_or_app; auto.
Qed.

Lemma park_event_samples (evs : list Event) :
  Forall (park_event cfg) evs -> recent_samples evs = [].
Proof.
  induction 1 as [|ev evs Hev _ IH]; simpl; auto.
  destruct Hev as [-> | [us ->]]; auto.
Qed.

Lemma park_event_no_check (evs : list Event) (e : errv_t) :
  Forall (park_event cfg) evs -> ~ In (EvAbortCheck e) evs.
Proof.
  intros H Hin. rewrite Forall_forall in H. apply H in Hin.
  destruct Hin as [Hin | [us Hin]]; discriminate.
Qed.

Lemma park_event_no_read (evs : list Event) (e : errv_t) (weight : Z) :
  Forall (park_event cfg) evs -> ~ In (EvNoblock e weight) evs.
Proof.
  intros H Hin. rewrite Forall_forall in H. apply H in Hin.
  destruct Hin as [Hin | [us Hin]]; discriminate.
Qed.

Lemma park_quiet_id : park_quiet cfg (fun w => w).
Proof.
  intro w. split; [apply extends_refl|].
  rewrite events_since_refl. constructor.
Qed.

(** ** Stepping without any check *)

(** With all three options off the loop only delays and commands. *)
Lemma turn_loop_plain_events (park : World -> World) (step pos d : Z) :
  forall fuel i p2 p1 w,
    Forall (fun ev => ev = EvDelay (to_unsigned_long d)
                      \/ exists us, ev = EvServoWrite us)
      (events_since w
         (snd (turn_loop cfg env park fuel i step pos d false false false
                 p2 p1 w))).
Proof.
  intros fuel i p2 p1 w.
  enough (H : extends w
                (snd (turn_loop cfg env park fuel i step pos d false false false
                        p2 p1 w)) /\
              Forall (fun ev => ev = EvDelay (to_unsigned_long d)
                      \/ exists us, ev = EvServoWrite us)
                (events_since w
                   (snd (turn_loop cfg env park fuel i step pos d
                           false false false p2 p1 w)))) by apply H.
  revert fuel i p2 p1 w.
  apply (turn_loop_induction park step pos d false false false
           (fun _ _ _ w res =>
              extends w (snd res) /\
              Forall (fun ev => ev = EvDelay (to_unsigned_long d)
                      \/ exists us, ev = EvServoWrite us)
                (events_since w (snd res)))); simpl.
  - nothing_recorded.
  - nothing_recorded.
  - intros i p2 p1 w ret sw w' _ Hrun.
    inversion Hrun; subst; discriminate.
  - intros i p2 p1 w q2 q1 w' res _ Hrun [Hext IH].
    inversion Hrun; subst; try discriminate.
    assert (Hstep : extends w (writeMicroseconds i (delay d (after_check false w))))
      by now exists [EvServoWrite i; EvDelay (to_unsigned_long d)].
    split; [eapply extends_trans; eauto|].
    rewrite (events_since_trans _ _ _ Hstep Hext).
    apply Forall_app. split; auto.
    rewrite events_moved. simpl.
    constructor; [right; eauto|]. constructor; [now left | constructor].
Qed.

Lemma park_up_quiet : park_quiet cfg (park_up cfg env b).
Proof.
  intro w. split; [apply park_up_extends|].
  unfold park_up, turn_to_with.
  destruct ((pos_up b <? SERVO_MIN) || (pos_up b >? SERVO_MAX));
    [nothing_recorded|].
  destruct (pos_up b =? readMicroseconds w);
    [nothing_recorded|].
  apply turn_loop_plain_events.
Qed.

(** Induction over the iterations when the abort action only adds to the
    history: the events of the whole run split into those of the first pass
    and those of the rest. *)
Lemma turn_loop_induction_ext (park : World -> World) (step pos delay_ms : Z)
    (cw ws ab : bool)
    (P : Z -> Z -> Z -> World -> outcome (errv_t * option Z) * World -> Prop) :
  (forall w0, extends w0 (park w0)) ->
  (forall i p2 p1 w, pos * step < i * step ->
     P i p2 p1 w (Ret (if ws then WEIGHT_NOT_STABLE else OK, None), w)) ->
  (forall i p2 p1 w, i * step <= pos * step -> P i p2 p1 w (OutOfFuel, w)) ->
  (forall i p2 p1 w ret sw w', i * step <= pos * step ->
     body_run cfg env park i delay_ms cw ws ab p2 p1 w (Exit ret sw) w' ->
     P i p2 p1 w (Ret (ret, sw), w')) ->
  (forall i p2 p1 w q2 q1 w' res, i * step <= pos * step ->
     body_run cfg env park i delay_ms cw ws ab p2 p1 w (Next q2 q1) w' ->
     events_since w (snd res) = events_since w' (snd res) ++ events_since w w' ->
     P (i + step) q2 q1 w' res -> P i p2 p1 w res) ->
  forall fuel i p2 p1 w,
    P i p2 p1 w
      (turn_loop cfg env park fuel i step pos delay_ms cw ws ab p2 p1 w).
Proof.
  intros Hpark Hexit Hfuel Hret Hnext fuel i p2 p1 w.
  enough (H : extends w
                (snd (turn_loop cfg env park fuel i step pos delay_ms cw ws ab
                        p2 p1 w)) /\
              P i p2 p1 w
                (turn_loop cfg env park fuel i step pos delay_ms cw ws ab
                   p2 p1 w)) by apply H.
  revert fuel i p2 p1 w.
  apply (turn_loop_induction park step pos delay_ms cw ws ab
           (fun i p2 p1 w res => extends w (snd res) /\ P i p2 p1 w res));
    simpl.
  - intros. split; [apply extends_refl | auto].
  - intros. split; [apply extends_refl | auto].
  - intros. split; [eapply body_run_extends; eauto | auto].
  - intros i p2 p1 w q2 q1 w' res Hc Hrun [Hext IH].
    assert (Hstep : extends w w') by (eapply body_run_extends; eauto).
    split; [eapply extends_trans; eauto|].
    eapply Hnext; eauto. now apply events_since_trans.
Qed.

(** ** Where the actuator is sent *)

(** Without an observed abort, every position commanded by the loop lies
    between its first counter value and the target. *)
Lemma turn_loop_writes_between (park : World -> World) (step pos d : Z)
    (cw ws ab : bool) :
  (forall w0, extends w0 (park w0)) ->
  step = 1 \/ step = -1 ->
  forall fuel i p2 p1 w,
    ~ abort_observed
        (events_since w
           (snd (turn_loop cfg env park fuel i step pos d cw ws ab p2 p1 w))) ->
    Forall (fun us => i * step <= us * step <= pos * step)
      (servo_writes
         (events_since w
            (snd (turn_loop cfg env park fuel i step pos d cw ws ab p2 p1 w)))).
Proof.
  intros Hpark Hstep.
  apply (turn_loop_induction_ext park step pos d cw ws ab
           (fun i _ _ w res =>
              ~ abort_observed (events_since w (snd res)) ->
              Forall (fun us => i * step <= us * step <= pos * step)
                (servo_writes (events_since w (snd res))))); auto; simpl.
  - nothing_recorded.
  - nothing_recorded.
  - intros i p2 p1 w ret sw w' Hc Hrun Hno.
    inversion Hrun; subst.
    + exfalso. apply Hno. rewrite events_parked by apply Hpark.
      apply abort_observed_app. right.
      exists (check_aborted env (trace w)). simpl. auto.
    + rewrite events_read. simpl. rewrite servo_writes_check. constructor.
    + rewrite events_read. simpl. rewrite servo_writes_check. constructor.
    + rewrite events_read. simpl. rewrite servo_writes_check. constructor.
  - intros i p2 p1 w q2 q1 w' res Hc Hrun Hsplit IH Hno.
    rewrite Hsplit in *. rewrite servo_writes_app.
    apply Forall_app. split.
    + assert (Hno' : ~ abort_observed (events_since w' (snd res))).
      { intro Ha. apply Hno. apply abort_observed_app. now left. }
      specialize (IH Hno').
      eapply Forall_impl; [|exact IH]. simpl. intros us Hus.
      destruct Hstep; subst step; lia.
    + inversion Hrun; subst;
        rewrite ?events_moved, ?events_moved_read; simpl;
        rewrite servo_writes_check; repeat constructor; lia.
Qed.

(** With start and target in range, everything commanded is in range,
    provided the abort action keeps to the range as well. *)
Lemma turn_loop_writes_in_range (park : World -> World) (step pos d : Z)
    (cw ws ab : bool) :
  (forall w0, extends w0 (park w0)) ->
  (forall w0, in_servo_range (servo_us w0) ->
     Forall in_servo_range (servo_writes (events_since w0 (park w0)))) ->
  step = 1 \/ step = -1 ->
  in_servo_range pos ->
  forall fuel i p2 p1 w,
    servo_us w = i - step -> in_servo_range (servo_us w) ->
    Forall in_servo_range
      (servo_writes
         (events_since w
            (snd (turn_loop cfg env park fuel i step pos d cw ws ab p2 p1 w)))).
Proof.
  intros Hpark Hrange Hstep Hpos.
  apply (turn_loop_induction_ext park step pos d cw ws ab
           (fun i _ _ w res =>
              servo_us w = i - step -> in_servo_range (servo_us w) ->
              Forall in_servo_range
                (servo_writes (events_since w (snd res))))); auto; simpl.
  - nothing_recorded.
  - nothing_recorded.
  - intros i p2 p1 w ret sw w' Hc Hrun Hi Hw.
    inversion Hrun; subst.
    + rewrite events_parked by apply Hpark.
      rewrite servo_writes_app. simpl. rewrite app_nil_r.
      apply Hrange. exact Hw.
    + rewrite events_read. simpl. rewrite servo_writes_check. constructor.
    + rewrite events_read. simpl. rewrite servo_writes_check. constructor.
    + rewrite events_read. simpl. rewrite servo_writes_check. constructor.
  - intros i p2 p1 w q2 q1 w' res Hc Hrun Hsplit IH Hi Hw.
    assert (Hiin : in_servo_range i).
    { unfold in_servo_range in *. destruct Hstep; subst step; lia. }
    rewrite Hsplit. rewrite servo_writes_app.
    apply Forall_app. split.
    + apply IH; inversion Hrun; subst; simpl; auto; lia.
    + inversion Hrun; subst;
        rewrite ?events_moved, ?events_moved_read; simpl;
        rewrite servo_writes_check; repeat constructor; apply Hiin.
Qed.

Lemma turn_to_with_writes_in_range (park : World -> World) (pos d : Z)
    (cw ws ab : bool) (w : World) :
  (forall w0, extends w0 (park w0)) ->
  (forall w0, in_servo_range (servo_us w0) ->
     Forall in_servo_range (servo_writes (events_since w0 (park w0)))) ->
  in_servo_range (servo_us w) ->
  Forall in_servo_range
    (servo_writes
       (events_since w (snd (turn_to_with cfg env park pos d cw ws ab w)))).
Proof.
  intros Hpark Hrange Hw. unfold turn_to_with.
  destruct ((pos <? SERVO_MIN) || (pos >? SERVO_MAX)) eqn:Hpos;
    [nothing_recorded|].
  apply range_check_false in Hpos. unfold readMicroseconds.
  destruct (pos =? servo_us w) eqn:Heq;
    [nothing_recorded|].
  apply turn_loop_writes_in_range; auto.
  - destruct (servo_us w <? pos); auto.
  - lia.
Qed.

Lemma park_up_writes_in_range (w : World) :
  in_servo_range (servo_us w) ->
  Forall in_servo_range
    (servo_writes (events_since w (park_up cfg env b w))).
Proof.
  intro Hw. unfold park_up. apply turn_to_with_writes_in_range; auto.
  - intro. apply extends_refl.
  - nothing_recorded.
Qed.

(** ** The two early returns of turn_to *)

(** C3.  A target outside [SERVO_MIN, SERVO_MAX] makes [turn_to] return
    SERVO_OUT_OF_RANGE with the world exactly as it was: no position is
    commanded, no weight sample is taken, the abort flag is not consulted,
    nothing is delayed or sent. *)
Theorem turn_to_out_of_range :
  forall (pos delay_ms : Z) (check_weight want_stable enable_abortcheck : bool)
         (w : World),
    pos < SERVO_MIN \/ SERVO_MAX < pos ->
    turn_to cfg env b pos delay_ms check_weight want_stable enable_abortcheck w
    = (Ret (SERVO_OUT_OF_RANGE, None), w).
Proof.
  intros pos delay_ms cw ws ab w Hpos.
  unfold turn_to, turn_to_with.
  apply range_check_true in Hpos. rewrite Hpos. reflexivity.
Qed.

(** C9.  An in-range target equal to the position the actuator reports makes
    [turn_to] return 0 with the world exactly as it was, whatever the three
    optional arguments are: no position is commanded, no delay is taken and
    no weight sample is read. *)
Theorem turn_to_current_pos_noop :
  forall (pos delay_ms : Z) (check_weight want_stable enable_abortcheck : bool)
         (w : World),
    SERVO_MIN <= pos <= SERVO_MAX ->
    pos = readMicroseconds w ->
    turn_to cfg env b pos delay_ms check_weight want_stable enable_abortcheck w
    = (Ret (OK, None), w).
Proof.
  intros pos delay_ms cw ws ab w Hpos Hcur.
  unfold turn_to, turn_to_with.
  apply range_check_false in Hpos. rewrite Hpos.
  rewrite <- Hcur, Z.eqb_refl. reflexivity.
Qed.

Lemma abort_observedb_false (evs : list Event) :
  abort_observedb evs = false -> ~ abort_observed evs.
Proof.
  intros Hb [e [He Hin]].
  assert (Ht : abort_observedb evs = true).
  { apply existsb_exists. exists (EvAbortCheck e). split; auto.
    now apply nonzero_true. }
  congruence.
Qed.

(** ** The abort action does not matter without abort checks *)

Lemma turn_loop_park_irrelevant (park1 park2 : World -> World)
    (step pos d : Z) (cw ws : bool) :
  forall fuel i p2 p1 w,
    turn_loop cfg env park1 fuel i step pos d cw ws false p2 p1 w
    = turn_loop cfg env park2 fuel i step pos d cw ws false p2 p1 w.
Proof.
  induction fuel as [|fuel IH]; intros i p2 p1 w; simpl; [reflexivity|].
  destruct (i * step <=? pos * step); [|reflexivity].
  change (turn_body cfg env park1 i d cw ws false p2 p1 w)
    with (turn_body cfg env park2 i d cw ws false p2 p1 w).
  destruct (turn_body cfg env park2 i d cw ws false p2 p1 w)
    as [[q2 q1 | ret sw] w']; [apply IH | reflexivity].
Qed.

Lemma turn_to_with_park_irrelevant (park1 park2 : World -> World)
    (pos d : Z) (cw ws : bool) (w : World) :
  turn_to_with cfg env park1 pos d cw ws false w
  = turn_to_with cfg env park2 pos d cw ws false w.
Proof.
  unfold turn_to_with.
  destruct ((pos <? SERVO_MIN) || (pos >? SERVO_MAX)); [reflexivity|].
  destruct (pos =? readMicroseconds w); [reflexivity|].
  apply turn_loop_park_irrelevant.
Qed.

(** The abort action of [turn_to] is the call
    [turn_up(FAST_TURN_UP_DELAY, false)]. *)
Lemma park_up_is_turn_up (w : World) :
  park_up cfg env b w
  = snd (turn_up cfg env b (FAST_TURN_UP_DELAY cfg) false w).
Proof.
  unfold park_up, turn_up, turn_to.
  now rewrite (turn_to_with_park_irrelevant (fun w' => w') (park_up cfg env b)).
Qed.

(** ** Reaching the target *)

(** Success without a stabilized weight means the actuator stands at the
    target. *)
Lemma turn_loop_reaches (park : World -> World) (step pos d : Z)
    (cw ws ab : bool) :
  step = 1 \/ step = -1 ->
  forall fuel i p2 p1 w,
    servo_us w = i - step -> (i - step) * step <= pos * step ->
    forall w',
      turn_loop cfg env park fuel i step pos d cw ws ab p2 p1 w
      = (Ret (OK, None), w') ->
      servo_us w' = pos.
Proof.
  intros Hstep fuel i p2 p1 w.
  apply (turn_loop_induction park step pos d cw ws ab
           (fun i _ _ w res =>
              servo_us w = i - step -> (i - step) * step <= pos * step ->
              forall w', res = (Ret (OK, None), w') -> servo_us w' = pos));
    simpl; clear fuel i p2 p1 w.
  - intros i _ _ w Hc Hi Hle w' Heq. inversion Heq; subst.
    destruct Hstep; subst step; lia.
  - intros. discriminate.
  - intros i p2 p1 w ret sw w' Hc Hrun Hi Hle w'' Heq.
    inversion Heq; subst. inversion Hrun; subst; congruence.
  - intros i p2 p1 w q2 q1 w' res Hc Hrun IH Hi Hle w'' Heq.
    apply IH; auto.
    + inversion Hrun; subst; simpl; lia.
    + replace (i + step - step) with i by lia. exact Hc.
Qed.

Lemma turn_to_with_reaches (park : World -> World) (pos d : Z)
    (cw ws ab : bool) (w w' : World) :
  turn_to_with cfg env park pos d cw ws ab w = (Ret (OK, None), w') ->
  servo_us w' = pos.
Proof.
  unfold turn_to_with.
  destruct ((pos <? SERVO_MIN) || (pos >? SERVO_MAX)); [discriminate|].
  unfold readMicroseconds.
  destruct (pos =? servo_us w) eqn:Heq.
  - apply Z.eqb_eq in Heq. intro H. inversion H; subst. auto.
  - apply Z.eqb_neq in Heq.
    destruct (servo_us w <? pos) eqn:Hlt.
    + apply Z.ltb_lt in Hlt. apply turn_loop_reaches; auto; lia.
    + apply Z.ltb_ge in Hlt. apply turn_loop_reaches; auto; lia.
Qed.

(** With all options off nothing can make the loop return early. *)
Lemma turn_loop_plain_result (park : World -> World) (step pos d : Z) :
  forall fuel i p2 p1 w r w',
    turn_loop cfg env park fuel i step pos d false false false p2 p1 w
    = (Ret r, w') ->
    r = (OK, None).
Proof.
  intros fuel i p2 p1 w.
  apply (turn_loop_induction park step pos d false false false
           (fun _ _ _ _ res => forall r w', res = (Ret r, w') -> r = (OK, None)));
    simpl; clear fuel i p2 p1 w.
  - intros. congruence.
  - intros. discriminate.
  - intros i p2 p1 w ret sw w' _ Hrun. inversion Hrun; subst; discriminate.
  - intros. eauto.
Qed.

Lemma park_up_reaches (w : World) :
  in_servo_range (pos_up b) -> servo_us (park_up cfg env b w) = pos_up b.
Proof.
  intro Hup. unfold park_up.
  destruct (turn_to_with_terminates (fun w' => w') (pos_up b)
              (FAST_TURN_UP_DELAY cfg) false false false w) as [r [w' Hrun]].
  assert (Hr : r = (OK, None)).
  { revert Hrun. unfold turn_to_with.
    apply range_check_false in Hup. rewrite Hup.
    destruct (pos_up b =? readMicroseconds w); [congruence|].
    apply turn_loop_plain_result. }
  subst r. rewrite Hrun. simpl.
  eapply turn_to_with_reaches; eauto.
Qed.

(** ** Abort *)

(** A non-zero abort check inside one pass: the pass is the abort branch. *)
Lemma body_run_abort_seen (park : World -> World) (i d : Z) (cw ws ab : bool)
    (p2 p1 : Z) (w : World) (r : step_result) (w' : World) (e : errv_t) :
  park_quiet cfg park ->
  body_run cfg env park i d cw ws ab p2 p1 w r w' ->
  e <> OK -> In (EvAbortCheck e) (events_since w w') ->
  r = Exit e None /\ w' = park (log (EvAbortCheck e) w)
  /\ check_aborted env (trace w) = e.
Proof.
  intros Hq Hrun He Hin.
  inversion Hrun; subst;
    rewrite ?events_moved, ?events_moved_read, ?events_read in Hin;
    simpl in Hin;
    try (exfalso;
         repeat (destruct Hin as [Hin | Hin]; [discriminate|]);
         apply check_events_ok in Hin; contradiction).
  rewrite events_parked in Hin by apply Hq.
  apply in_app_or in Hin. destruct Hin as [Hin | [Hin | []]].
  - exfalso. eapply park_event_no_check; [apply Hq | exact Hin].
  - inversion Hin. auto.
Qed.

Lemma turn_loop_abort (park : World -> World) (step pos d : Z)
    (cw ws ab : bool) :
  park_quiet cfg park ->
  forall fuel i p2 p1 w e,
    e <> OK ->
    In (EvAbortCheck e)
       (events_since w
          (snd (turn_loop cfg env park fuel i step pos d cw ws ab p2 p1 w))) ->
    exists (w0 : World) (before : list Event),
      trace w0 = before ++ trace w
      /\ check_aborted env (trace w0) = e
      /\ (before = []
          \/ exists (us : Z) (older : list Event),
               before = EvServoWrite us :: older)
      /\ ~ abort_observed before
      /\ turn_loop cfg env park fuel i step pos d cw ws ab p2 p1 w
         = (Ret (e, None), park (log (EvAbortCheck e) w0)).
Proof.
  intros Hq fuel i p2 p1 w.
  apply (turn_loop_induction_ext park step pos d cw ws ab
           (fun _ _ _ w res =>
              forall e, e <> OK ->
                In (EvAbortCheck e) (events_since w (snd res)) ->
                exists w0 before,
                  trace w0 = before ++ trace w
                  /\ check_aborted env (trace w0) = e
                  /\ (before = []
                      \/ exists us older, before = EvServoWrite us :: older)
                  /\ ~ abort_observed before
                  /\ res = (Ret (e, None), park (log (EvAbortCheck e) w0))));
    simpl; clear fuel i p2 p1 w.
  - intro w. apply Hq.
  - intros i _ _ w _ e _ Hin. rewrite events_since_refl in Hin. destruct Hin.
  - intros i _ _ w _ e _ Hin. rewrite events_since_refl in Hin. destruct Hin.
  - intros i p2 p1 w ret sw w' _ Hrun e He Hin.
    destruct (body_run_abort_seen _ _ _ _ _ _ _ _ _ _ _ _ Hq Hrun He Hin)
      as [Hr [Hw Hc]].
    exists w, []. simpl. inversion Hr; subst.
    repeat split; auto. intros [e' [_ []]].
  - intros i p2 p1 w q2 q1 w' res _ Hrun Hsplit IH e He Hin.
    rewrite Hsplit in Hin. apply in_app_or in Hin. destruct Hin as [Hin | Hin].
    + destruct (IH e He Hin) as [w0 [before [Ht [Hc [Hshape [Hno Hres]]]]]].
      assert (Hext : extends w w').
      { eapply body_run_extends; eauto. intro. apply Hq. }
      apply extends_events in Hext.
      assert (Hpass : exists us rest,
                 events_since w w' = EvServoWrite us :: rest).
      { inversion Hrun; subst;
          rewrite ?events_moved, ?events_moved_read; eauto. }
      exists w0, (before ++ events_since w w').
      rewrite <- app_assoc, <- Hext.
      repeat split; auto.
      * right. destruct Hpass as [us [rest Hpass]].
        destruct Hshape as [-> | [us0 [older ->]]]; simpl; rewrite Hpass;
          eauto.
      * intro Ha. apply abort_observed_app in Ha.
        destruct Ha as [Ha | [e' [He' Hin']]]; [now apply Hno|].
        destruct (body_run_abort_seen _ _ _ _ _ _ _ _ _ _ _ _ Hq Hrun He' Hin')
          as [Hr _]. discriminate.
    + destruct (body_run_abort_seen _ _ _ _ _ _ _ _ _ _ _ _ Hq Hrun He Hin)
        as [Hr _]. discriminate.
Qed.

(** ** Cup missing *)

(** A valid sample below the threshold inside one pass with weight checking:
    the pass returns on it. *)
Lemma body_run_cup_seen (park : World -> World) (i d : Z) (ws ab : bool)
    (p2 p1 : Z) (w : World) (r : step_result) (w' : World) (weight : Z) :
  park_quiet cfg park ->
  body_run cfg env park i d true ws ab p2 p1 w r w' ->
  weight < WEIGHT_EPSILON cfg ->
  In (EvNoblock OK weight) (events_since w w') ->
  r = Exit WHERE_THE_FUCK_IS_THE_CUP None
  /\ events_since w w' = EvNoblock OK weight :: check_events ab.
Proof.
  intros Hq Hrun Hlt Hin.
  assert (Hchk : ~ In (EvNoblock OK weight) (check_events ab))
    by (destruct ab; simpl; intuition discriminate).
  inversion Hrun; subst;
    rewrite ?events_moved, ?events_moved_read, ?events_read in *;
    simpl in Hin; try discriminate.
  - exfalso. rewrite events_parked in Hin by apply Hq.
    apply in_app_or in Hin. destruct Hin as [Hin | [Hin | []]];
      [|discriminate].
    eapply park_event_no_read; [apply Hq | exact Hin].
  - exfalso. destruct Hin as [Hin | [Hin | [Hin | Hin]]];
      try discriminate; auto.
  - exfalso. destruct Hin as [Hin | Hin]; [|auto]. congruence.
  - destruct Hin as [Hin | Hin]; [|contradiction]. inversion Hin. auto.
  - exfalso. destruct Hin as [Hin | Hin]; [|auto]. inversion Hin. lia.
  - exfalso. destruct Hin as [Hin | [Hin | [Hin | Hin]]];
      try discriminate; auto. inversion Hin. lia.
  - exfalso. destruct Hin as [Hin | [Hin | [Hin | Hin]]];
      try discriminate; auto. inversion Hin. lia.
Qed.

Lemma turn_loop_cup_missing (park : World -> World) (step pos d : Z)
    (ws ab : bool) :
  park_quiet cfg park ->
  forall fuel i p2 p1 w weight,
    weight < WEIGHT_EPSILON cfg ->
    In (EvNoblock OK weight)
       (events_since w
          (snd (turn_loop cfg env park fuel i step pos d true ws ab p2 p1 w))) ->
    fst (turn_loop cfg env park fuel i step pos d true ws ab p2 p1 w)
    = Ret (WHERE_THE_FUCK_IS_THE_CUP, None)
    /\ exists before : list Event,
         events_since w
           (snd (turn_loop cfg env park fuel i step pos d true ws ab p2 p1 w))
         = EvNoblock OK weight :: before.
Proof.
  intros Hq fuel i p2 p1 w.
  apply (turn_loop_induction_ext park step pos d true ws ab
           (fun _ _ _ w res =>
              forall weight, weight < WEIGHT_EPSILON cfg ->
                In (EvNoblock OK weight) (events_since w (snd res)) ->
                fst res = Ret (WHERE_THE_FUCK_IS_THE_CUP, None)
                /\ exists before,
                     events_since w (snd res) = EvNoblock OK weight :: before));
    simpl; clear fuel i p2 p1 w.
  - intro w. apply Hq.
  - intros i _ _ w _ e _ Hin. rewrite events_since_refl in Hin. destruct Hin.
  - intros i _ _ w _ e _ Hin. rewrite events_since_refl in Hin. destruct Hin.
  - intros i p2 p1 w ret sw w' _ Hrun weight Hlt Hin.
    destruct (body_run_cup_seen _ _ _ _ _ _ _ _ _ _ _ Hq Hrun Hlt Hin)
      as [Hr Hev].
    inversion Hr; subst. split; eauto.
  - intros i p2 p1 w q2 q1 w' res _ Hrun Hsplit IH weight Hlt Hin.
    rewrite Hsplit in *. apply in_app_or in Hin. destruct Hin as [Hin | Hin].
    + destruct (IH weight Hlt Hin) as [Hr [before Hev]].
      split; auto. rewrite Hev. simpl. eauto.
    + destruct (body_run_cup_seen _ _ _ _ _ _ _ _ _ _ _ Hq Hrun Hlt Hin)
        as [Hr _]. discriminate.
Qed.

(** C7.  With weight checking requested, a valid non-blocking sample below
    WEIGHT_EPSILON makes [turn_to] return WHERE_THE_FUCK_IS_THE_CUP at once:
    the sample is the last thing recorded by the call, so no delay is taken
    and no position is commanded after it. *)
Theorem turn_to_cup_missing :
  forall (pos delay_ms : Z) (want_stable enable_abortcheck : bool) (w : World)
         (weight : Z),
    weight < WEIGHT_EPSILON cfg ->
    In (EvNoblock OK weight)
       (events_since w
          (snd (turn_to cfg env b pos delay_ms true want_stable
                  enable_abortcheck w))) ->
    fst (turn_to cfg env b pos delay_ms true want_stable enable_abortcheck w)
    = Ret (WHERE_THE_FUCK_IS_THE_CUP, None)
    /\ exists before : list Event,
         events_since w
           (snd (turn_to cfg env b pos delay_ms true want_stable
                   enable_abortcheck w))
         = EvNoblock OK weight :: before.
Proof.
  intros pos d ws ab w weight Hlt. unfold turn_to, turn_to_with.
  destruct ((pos <? SERVO_MIN) || (pos >? SERVO_MAX)).
  { simpl. rewrite events_since_refl. intros []. }
  destruct (pos =? readMicroseconds w).
  { simpl. rewrite events_since_refl. intros []. }
  apply turn_loop_cup_missing; auto. apply park_up_quiet.
Qed.

(** ** Stable weight *)

Lemma three_equal_app (v : Z) (l m : list Z) :
  three_equal v l -> three_equal v (l ++ m).
Proof. intros [older ->]. exists (older ++ m). reflexivity. Qed.

Lemma three_equal_app_inv (v : Z) (l m : list Z) :
  (3 <= length l)%nat -> three_equal v (l ++ m) -> three_equal v l.
Proof.
  intros Hlen [older H].
  destruct l as [|a [|c [|e l]]]; simpl in Hlen; try lia.
  simpl in H. inversion H; subst. now exists l.
Qed.

Lemma three_equal_rev (v : Z) (l : list Z) :
  three_equal v l <-> exists earlier, rev l = earlier ++ [v; v; v].
Proof.
  split.
  - intros [older ->]. exists (rev older). simpl.
    now rewrite <- !app_assoc.
  - intros [earlier H]. exists (rev earlier).
    rewrite <- (rev_involutive l), H, rev_app_distr. reflexivity.
Qed.

Lemma recent_samples_failed (e : errv_t) (weight : Z) (rest : list Event) :
  e <> OK -> recent_samples (EvNoblock e weight :: rest) = recent_samples rest.
Proof. destruct e; simpl; congruence. Qed.

(** A stabilized value is only ever handed out together with the code 0. *)
Lemma turn_loop_stable_ok (park : World -> World) (step pos d : Z)
    (cw ws ab : bool) :
  forall fuel i p2 p1 w r v,
    fst (turn_loop cfg env park fuel i step pos d cw ws ab p2 p1 w)
    = Ret (r, Some v) ->
    r = OK.
Proof.
  intros fuel i p2 p1 w.
  apply (turn_loop_induction park step pos d cw ws ab
           (fun _ _ _ _ res =>
              forall r v, fst res = Ret (r, Some v) -> r = OK));
    simpl; clear fuel i p2 p1 w; try (intros; discriminate); auto.
  intros i p2 p1 w ret sw w' _ Hrun r v Heq.
  inversion Heq; subst. inversion Hrun; subst. reflexivity.
Qed.

(** The window of the loop against the samples of the run: the loop hands
    out [v] exactly when the run saw a sample and the three newest values of
    "samples of the run, then the window at entry" are all [v] (and [v]
    passed the cup check, if one was made). *)
Lemma turn_loop_stable_iff (park : World -> World) (step pos d : Z)
    (cw ab : bool) :
  park_quiet cfg park ->
  forall fuel i p2 p1 w v,
    fst (turn_loop cfg env park fuel i step pos d cw true ab p2 p1 w)
    = Ret (OK, Some v)
    <->
    recent_samples
      (events_since w
         (snd (turn_loop cfg env park fuel i step pos d cw true ab p2 p1 w)))
    <> []
    /\ three_equal v
         (recent_samples
            (events_since w
               (snd (turn_loop cfg env park fuel i step pos d cw true ab
                       p2 p1 w)))
          ++ [p1; p2])
    /\ (cw = true -> WEIGHT_EPSILON cfg <= v).
Proof.
  intros Hq fuel i p2 p1 w.
  apply (turn_loop_induction_ext park step pos d cw true ab
           (fun _ p2 p1 w res =>
              forall v,
                fst res = Ret (OK, Some v)
                <->
                recent_samples (events_since w (snd res)) <> []
                /\ three_equal v
                     (recent_samples (events_since w (snd res)) ++ [p1; p2])
                /\ (cw = true -> WEIGHT_EPSILON cfg <= v)));
    simpl; clear fuel i p2 p1 w.
  - intro w. apply Hq.
  - intros i p2 p1 w _ v. rewrite events_since_refl. simpl.
    split; [discriminate | tauto].
  - intros i p2 p1 w _ v. rewrite events_since_refl. simpl.
    split; [discriminate | tauto].
  - intros i p2 p1 w ret sw w' _ Hrun v.
    inversion Hrun; subst.
    + rewrite events_parked by apply Hq.
      rewrite recent_samples_app. simpl.
      rewrite (park_event_samples _ (proj2 (Hq _))). simpl.
      split; [congruence | tauto].
    + rewrite events_read, recent_samples_failed by assumption.
      rewrite recent_samples_check. split; [congruence | tauto].
    + rewrite events_read. simpl. rewrite recent_samples_check. simpl.
      split; [discriminate|].
      intros [_ [[older Heq] Heps]]. inversion Heq; subst.
      specialize (Heps eq_refl). lia.
    + rewrite events_read. simpl. rewrite recent_samples_check. simpl.
      split.
      * intro Heq. inversion Heq; subst.
        repeat split; [discriminate | now exists [] | assumption].
      * intros [_ [[older Heq] _]]. inversion Heq; subst. reflexivity.
  - intros i p2 p1 w q2 q1 w' res _ Hrun Hsplit IH v.
    rewrite Hsplit, recent_samples_app. rewrite IH. clear IH Hsplit.
    inversion Hrun; subst; try discriminate.
    + rewrite events_moved_read. simpl. rewrite recent_samples_check.
      rewrite app_nil_r. tauto.
    + rewrite events_moved_read. simpl. rewrite recent_samples_check.
      set (rest := recent_samples (events_since _ (snd res))).
      split.
      * intros [Hne [Hthree Heps]]. repeat split; auto.
        -- destruct rest; [congruence | discriminate].
        -- rewrite <- app_assoc. simpl.
           replace (rest ++ [q1; q2; p2])
             with ((rest ++ [q1; q2]) ++ [p2])
             by (now rewrite <- app_assoc).
           now apply three_equal_app.
      * intros [_ [Hthree Heps]].
        rewrite <- app_assoc in Hthree. simpl in Hthree.
        destruct rest as [|s rest'].
        -- exfalso. destruct Hthree as [older Heq]. simpl in Heq.
           inversion Heq; subst. auto.
        -- repeat split; auto; [discriminate|].
           apply (three_equal_app_inv v _ [p2]).
           ++ simpl. rewrite length_app. simpl. lia.
           ++ now rewrite <- app_assoc.
Qed.

(** With weight checking, every sample but the newest passed the cup check. *)
Lemma turn_loop_earlier_samples (park : World -> World) (step pos d : Z)
    (ws ab : bool) :
  park_quiet cfg park ->
  forall fuel i p2 p1 w,
    Forall (fun x => WEIGHT_EPSILON cfg <= x)
      (tl (recent_samples
             (events_since w
                (snd (turn_loop cfg env park fuel i step pos d true ws ab
                        p2 p1 w))))).
Proof.
  intros Hq fuel i p2 p1 w.
  apply (turn_loop_induction_ext park step pos d true ws ab
           (fun _ _ _ w res =>
              Forall (fun x => WEIGHT_EPSILON cfg <= x)
                (tl (recent_samples (events_since w (snd res))))));
    simpl; clear fuel i p2 p1 w.
  - intro w. apply Hq.
  - nothing_recorded.
  - nothing_recorded.
  - intros i p2 p1 w ret sw w' _ Hrun.
    inversion Hrun; subst.
    + rewrite events_parked by apply Hq.
      rewrite recent_samples_app. simpl.
      rewrite (park_event_samples _ (proj2 (Hq _))). constructor.
    + rewrite events_read, recent_samples_failed by assumption.
      rewrite recent_samples_check. constructor.
    + rewrite events_read. simpl. rewrite recent_samples_check. constructor.
    + rewrite events_read. simpl. rewrite recent_samples_check. constructor.
  - intros i p2 p1 w q2 q1 w' res _ Hrun Hsplit IH.
    rewrite Hsplit, recent_samples_app.
    set (rest := recent_samples (events_since _ (snd res))) in *.
    assert (Hstep : Forall (fun x => WEIGHT_EPSILON cfg <= x)
                      (recent_samples (events_since w w'))).
    { inversion Hrun; subst; try discriminate;
        rewrite ?events_moved_read; simpl; rewrite recent_samples_check;
        repeat constructor; auto. }
    destruct rest as [|s rest']; simpl.
    + destruct (recent_samples (events_since w w')); simpl; [constructor|].
      now inversion Hstep.
    + apply Forall_app. split; auto.
Qed.

Lemma samples_seen_ends (evs : list Event) (earlier : list Z) (x y z : Z) :
  samples_seen evs = earlier ++ [x; y; z] ->
  recent_samples evs = z :: y :: x :: rev earlier.
Proof.
  unfold samples_seen. intro H.
  rewrite <- (rev_involutive (recent_samples evs)), H, rev_app_distr.
  reflexivity.
Qed.

(** The same for the loop as [turn_to] starts it, with both remembered
    weights at -9999: the window is that of the samples of the run, unless
    the first sample of the run is -9999 itself and passes the cup check. *)
Lemma turn_loop_stable_first (step pos d : Z) (cw ab : bool) :
  forall fuel i w v,
    (cw = true /\ -9999 < WEIGHT_EPSILON cfg)
    \/ hd_error
         (samples_seen
            (events_since w
               (snd (turn_loop cfg env (park_up cfg env b) fuel i step pos d
                       cw true ab (-9999) (-9999) w))))
       <> Some (-9999) ->
    (fst (turn_loop cfg env (park_up cfg env b) fuel i step pos d
            cw true ab (-9999) (-9999) w)
     = Ret (OK, Some v)
     <->
     three_equal v
       (recent_samples
          (events_since w
             (snd (turn_loop cfg env (park_up cfg env b) fuel i step pos d
                     cw true ab (-9999) (-9999) w))))).
Proof.
  intros fuel i w v [[-> Heps] | Hfirst].
  - rewrite (turn_loop_stable_iff _ step pos d true ab park_up_quiet).
    pose proof (turn_loop_earlier_samples _ step pos d true ab park_up_quiet
                  fuel i (-9999) (-9999) w) as Hearlier.
    set (S := recent_samples (events_since w _)) in *; clearbody S.
    split.
    + intros [Hne [Hthree Hv]]. specialize (Hv eq_refl).
      destruct S as [|s1 [|s2 [|s3 S']]].
      * congruence.
      * exfalso. destruct Hthree as [older Heq]. inversion Heq; subst. lia.
      * exfalso. destruct Hthree as [older Heq]. inversion Heq; subst. lia.
      * apply (three_equal_app_inv v _ [-9999; -9999]);
          [simpl; lia | exact Hthree].
    + intros Hthree. repeat split.
      * destruct Hthree as [older ->]; discriminate.
      * now apply three_equal_app.
      * intros _. destruct Hthree as [older ->]. simpl in Hearlier.
        now inversion Hearlier.
  - rewrite (turn_loop_stable_iff _ step pos d cw ab park_up_quiet).
    pose proof (turn_loop_earlier_samples _ step pos d true ab park_up_quiet
                  fuel i (-9999) (-9999) w) as Hearlier.
    unfold samples_seen in Hfirst.
    destruct cw;
    set (S := recent_samples (events_since w _)) in *; clearbody S;
    (split;
     [ intros [Hne [Hthree _]];
       destruct S as [|s1 [|s2 [|s3 S']]];
       [ congruence
       | exfalso; destruct Hthree as [older Heq]; inversion Heq; subst;
         now apply Hfirst
       | exfalso; destruct Hthree as [older Heq]; inversion Heq; subst;
         now apply Hfirst
       | apply (three_equal_app_inv v _ [-9999; -9999]); [simpl; lia | exact Hthree] ]
     | intros Hthree; repeat split;
       [ destruct Hthree as [older ->]; discriminate
       | now apply three_equal_app
       | ] ]).
    + intros _. destruct Hthree as [older ->]. simpl in Hearlier.
      now inversion Hearlier.
    + discriminate.
Qed.

(** X22.  Three equal samples, and nothing else, make the weight stable.
    Stabilization requested; and either [check_weight] is on with a
    WEIGHT_EPSILON above -9999, or the first valid sample of the call is not
    -9999, the value the two remembered weights start with.  Then [turn_to]
    hands out a stabilized weight [v] (with code 0) exactly when the valid
    samples it has taken end in three equal values [v], so never on two
    equal samples followed by a different one, and never before three
    samples were taken.  Steps on which the scale would block do not count as
    samples. *)
Theorem turn_to_stable_iff :
  forall (pos delay_ms : Z) (check_weight enable_abortcheck : bool)
         (w : World),
    (check_weight = true /\ -9999 < WEIGHT_EPSILON cfg)
    \/ hd_error
         (samples_seen
            (events_since w
               (snd (turn_to cfg env b pos delay_ms check_weight true
                       enable_abortcheck w))))
       <> Some (-9999) ->
    (forall r v,
        fst (turn_to cfg env b pos delay_ms check_weight true
               enable_abortcheck w) = Ret (r, Some v) -> r = OK)
    /\ (forall v,
          fst (turn_to cfg env b pos delay_ms check_weight true
                 enable_abortcheck w) = Ret (OK, Some v)
          <->
          exists earlier : list Z,
            samples_seen
              (events_since w
                 (snd (turn_to cfg env b pos delay_ms check_weight true
                         enable_abortcheck w)))
            = earlier ++ [v; v; v])
    /\ (forall earlier x y,
          samples_seen
            (events_since w
               (snd (turn_to cfg env b pos delay_ms check_weight true
                       enable_abortcheck w)))
          = earlier ++ [x; x; y] ->
          x <> y ->
          forall r v,
            fst (turn_to cfg env b pos delay_ms check_weight true
                   enable_abortcheck w) <> Ret (r, Some v))
    /\ (forall r v,
          fst (turn_to cfg env b pos delay_ms check_weight true
                 enable_abortcheck w) = Ret (r, Some v) ->
          (3 <= length
                  (samples_seen
                     (events_since w
                        (snd (turn_to cfg env b pos delay_ms check_weight
                                true enable_abortcheck w)))))%nat).
Proof.
  intros pos d cw ab w Hfirst.
  assert (Hok : forall r v,
             fst (turn_to cfg env b pos d cw true ab w) = Ret (r, Some v) ->
             r = OK).
  { unfold turn_to, turn_to_with.
    destruct ((pos <? SERVO_MIN) || (pos >? SERVO_MAX)); [discriminate|].
    destruct (pos =? readMicroseconds w); [discriminate|].
    apply turn_loop_stable_ok. }
  assert (Hiff : forall v,
             fst (turn_to cfg env b pos d cw true ab w) = Ret (OK, Some v)
             <-> three_equal v
                   (recent_samples
                      (events_since w
                         (snd (turn_to cfg env b pos d cw true ab w))))).
  { revert Hfirst. unfold turn_to, turn_to_with.
    destruct ((pos <? SERVO_MIN) || (pos >? SERVO_MAX)).
    { simpl. rewrite events_since_refl. intros _ v.
      split; [discriminate | intros [older Heq]; discriminate]. }
    destruct (pos =? readMicroseconds w).
    { simpl. rewrite events_since_refl. intros _ v.
      split; [discriminate | intros [older Heq]; discriminate]. }
    intros Hfirst v. now apply turn_loop_stable_first. }
  repeat split.
  - exact Hok.
  - intro H. apply three_equal_rev. now apply Hiff.
  - intro H. apply Hiff. now apply three_equal_rev.
  - intros earlier x y Hends Hxy r v Hres.
    pose proof (Hok _ _ Hres). subst r.
    apply Hiff in Hres. destruct Hres as [older Heq].
    rewrite (samples_seen_ends _ _ _ _ _ Hends) in Heq.
    inversion Heq; subst. congruence.
  - intros r v Hres.
    pose proof (Hok _ _ Hres). subst r.
    apply Hiff in Hres. destruct Hres as [older Heq].
    unfold samples_seen. rewrite length_rev, Heq. simpl. lia.
Qed.

(** ** Target reached before the weight is stable *)

(** Unless an abort is observed, the loop leaves the actuator at the target
    only by running to its end. *)
Lemma turn_loop_completed (park : World -> World) (step pos d : Z)
    (cw ws ab : bool) :
  park_quiet cfg park ->
  step = 1 \/ step = -1 ->
  forall fuel i p2 p1 w,
    servo_us w = i - step ->
    forall r s w',
      turn_loop cfg env park fuel i step pos d cw ws ab p2 p1 w
      = (Ret (r, s), w') ->
      ~ abort_observed (events_since w w') ->
      servo_us w' = pos ->
      r = (if ws then WEIGHT_NOT_STABLE else OK) /\ s = None.
Proof.
  intros Hq Hstep fuel i p2 p1 w.
  apply (turn_loop_induction_ext park step pos d cw ws ab
           (fun i _ _ w res =>
              servo_us w = i - step ->
              forall r s w', res = (Ret (r, s), w') ->
                ~ abort_observed (events_since w w') ->
                servo_us w' = pos ->
                r = (if ws then WEIGHT_NOT_STABLE else OK) /\ s = None));
    simpl; clear fuel i p2 p1 w.
  - intro w. apply Hq.
  - intros i _ _ w _ _ r s w' Heq _ _. inversion Heq. auto.
  - intros. discriminate.
  - intros i p2 p1 w ret sw w' Hc Hrun Hi r s w'' Heq Hno Hpos.
    inversion Heq; subst r s w''. clear Heq. exfalso.
    inversion Hrun; subst.
    + apply Hno. rewrite events_parked by apply Hq.
      apply abort_observed_app. right.
      exists (check_aborted env (trace w)). simpl. auto.
    + simpl in Hc. rewrite servo_after_check in Hc.
      destruct Hstep; subst step; lia.
    + simpl in Hc. rewrite servo_after_check in Hc.
      destruct Hstep; subst step; lia.
    + simpl in Hc. rewrite servo_after_check in Hc.
      destruct Hstep; subst step; lia.
  - intros i p2 p1 w q2 q1 w' res Hc Hrun Hsplit IH Hi r s w'' Heq Hno Hpos.
    subst res. simpl in Hsplit. rewrite Hsplit in Hno.
    apply (IH ltac:(inversion Hrun; subst; simpl; lia) r s w''); auto.
    intro Ha. apply Hno. apply abort_observed_app. now left.
Qed.

(** C2 (as amended).  Stabilization requested, the target in range and
    different from the current position, no abort observed during the call:
    if the call leaves the actuator at the target, it returns
    WEIGHT_NOT_STABLE and hands out no stabilized weight. *)
Theorem turn_to_not_stable :
  forall (pos delay_ms : Z) (check_weight enable_abortcheck : bool)
         (w : World),
    in_servo_range pos ->
    pos <> readMicroseconds w ->
    ~ abort_observed
        (events_since w
           (snd (turn_to cfg env b pos delay_ms check_weight true
                   enable_abortcheck w))) ->
    servo_us
      (snd (turn_to cfg env b pos delay_ms check_weight true
              enable_abortcheck w))
    = pos ->
    fst (turn_to cfg env b pos delay_ms check_weight true enable_abortcheck w)
    = Ret (WEIGHT_NOT_STABLE, None).
Proof.
  intros pos d cw ab w Hpos Hne.
  destruct (turn_to_terminates pos d cw true ab w) as [[r s] [w' Hrun]].
  rewrite Hrun. simpl. intros Hno Hend.
  revert Hrun. unfold turn_to, turn_to_with.
  apply range_check_false in Hpos. rewrite Hpos.
  unfold readMicroseconds in *.
  apply Z.eqb_neq in Hne. rewrite Hne.
  intro Hrun.
  assert (H : r = WEIGHT_NOT_STABLE /\ s = None).
  { destruct (servo_us w <? pos).
    - eapply (turn_loop_completed _ 1 pos d cw true ab park_up_quiet);
        eauto; lia.
    - eapply (turn_loop_completed _ (-1) pos d cw true ab park_up_quiet);
        eauto; lia. }
  destruct H as [-> ->]. reflexivity.
Qed.

(** ** Commanded positions stay in range *)

(** C8 (as amended).  Let the actuator start in [SERVO_MIN, SERVO_MAX].
    For a target in that range, every position [turn_to] commands lies in
    the range, and, unless an abort was observed during the call, between the
    starting position and the target (after an observed abort the bottle is
    driven toward [pos_up] instead, still inside the range).  A target outside
    the range is not clamped: the call returns SERVO_OUT_OF_RANGE and leaves
    the world as it was. *)
Theorem turn_to_commands_in_range :
  forall (pos delay_ms : Z) (check_weight want_stable enable_abortcheck : bool)
         (w : World),
    in_servo_range (servo_us w) ->
    (in_servo_range pos ->
     forall us : Z,
       In us (servo_writes
                (events_since w
                   (snd (turn_to cfg env b pos delay_ms check_weight
                           want_stable enable_abortcheck w)))) ->
       in_servo_range us /\
       (~ abort_observed
            (events_since w
               (snd (turn_to cfg env b pos delay_ms check_weight
                       want_stable enable_abortcheck w))) ->
        Z.min (servo_us w) pos <= us <= Z.max (servo_us w) pos))
    /\
    (~ in_servo_range pos ->
     turn_to cfg env b pos delay_ms check_weight want_stable
       enable_abortcheck w
     = (Ret (SERVO_OUT_OF_RANGE, None), w)).
Proof.
  intros pos d cw ws ab w Hw. split.
  - intros Hpos us Hin. split.
    + pose proof (turn_to_with_writes_in_range (park_up cfg env b)
                    pos d cw ws ab w (park_up_extends)
                    (park_up_writes_in_range) Hw) as H.
      rewrite Forall_forall in H. now apply H.
    + revert Hin. unfold turn_to, turn_to_with.
      apply range_check_false in Hpos. rewrite Hpos. unfold readMicroseconds.
      destruct (pos =? servo_us w) eqn:Heq.
      { simpl. rewrite events_since_refl. simpl. tauto. }
      apply Z.eqb_neq in Heq. intros Hin Hno.
      destruct (servo_us w <? pos) eqn:Hlt.
      * apply Z.ltb_lt in Hlt.
        pose proof (turn_loop_writes_between (park_up cfg env b) 1 pos d
                      cw ws ab park_up_extends (or_introl eq_refl)
                      _ _ _ _ _ Hno) as H.
        rewrite Forall_forall in H. apply H in Hin. lia.
      * apply Z.ltb_ge in Hlt.
        pose proof (turn_loop_writes_between (park_up cfg env b) (-1) pos d
                      cw ws ab park_up_extends (or_intror eq_refl)
                      _ _ _ _ _ Hno) as H.
        rewrite Forall_forall in H. apply H in Hin. lia.
  - intro Hpos. unfold turn_to, turn_to_with.
    replace ((pos <? SERVO_MIN) || (pos >? SERVO_MAX)) with true; [reflexivity|].
    symmetry. apply range_check_true. unfold in_servo_range in Hpos. lia.
Qed.

(** ** What a computation adds to the history *)

Lemma emits_weaken {A : Type} (Q Q' : Event -> Prop) (m : M A) :
  (forall ev, Q ev -> Q' ev) -> emits Q m -> emits Q' m.
Proof.
  intros Himp Hm w. destruct (Hm w) as [Hext Hall]. split; auto.
  eapply Forall_impl; eauto.
Qed.

Lemma emits_pure {A : Type} (Q : Event -> Prop) (a : A) : emits Q (pure a).
Proof.
  intro w. simpl. rewrite events_since_refl.
  split; [apply extends_refl | constructor].
Qed.

Lemma emits_out_of_fuel {A : Type} (Q : Event -> Prop) :
  emits Q (fun w => (@OutOfFuel A, w)).
Proof.
  intro w. simpl. rewrite events_since_refl.
  split; [apply extends_refl | constructor].
Qed.

Lemma emits_emit (Q : Event -> Prop) (e : Event) : Q e -> emits Q (emit e).
Proof.
  intros He w. simpl. split; [apply extends_log|].
  rewrite (events_since_app _ _ [e]) by reflexivity. auto.
Qed.

Lemma emits_ask {A : Type} (Q : Event -> Prop) (f : list Event -> A)
    (ev : A -> Event) :
  (forall a, Q (ev a)) -> emits Q (ask f ev).
Proof.
  intros He w. simpl. split; [apply extends_log|].
  rewrite (events_since_app _ _ [ev (f (trace w))]) by reflexivity. auto.
Qed.

(** Sequencing, with a fact [R] about the value handed on. *)
Lemma emits_bind_post {A B : Type} (Q : Event -> Prop) (R : A -> Prop)
    (m : M A) (k : A -> M B) :
  emits Q m ->
  (forall w a w1, m w = (Ret a, w1) -> R a) ->
  (forall a, R a -> emits Q (k a)) ->
  emits Q (bind m k).
Proof.
  intros Hm HR Hk w. unfold bind.
  destruct (Hm w) as [Hext Hall].
  destruct (m w) as [[a|] w1] eqn:Hrun; simpl in *; [|auto].
  destruct (Hk a (HR _ _ _ Hrun) w1) as [Hext' Hall'].
  split; [eapply extends_trans; eauto|].
  rewrite (events_since_trans _ _ _ Hext Hext').
  apply Forall_app. auto.
Qed.

Lemma emits_bind {A B : Type} (Q : Event -> Prop) (m : M A) (k : A -> M B) :
  emits Q m -> (forall a, emits Q (k a)) -> emits Q (bind m k).
Proof.
  intros Hm Hk.
  apply (emits_bind_post Q (fun _ => True)); auto.
Qed.

Lemma emits_RETURN_IFN_0 {A : Type} (Q : Event -> Prop) (code : M errv_t)
    (fail : errv_t -> A) (k : M A) :
  emits Q code -> emits Q k -> emits Q (RETURN_IFN_0 code fail k).
Proof.
  intros Hc Hk. unfold RETURN_IFN_0. apply emits_bind; auto.
  intro r. destruct (nonzero r); [apply emits_pure | exact Hk].
Qed.

Lemma emits_code_of (Q : Event -> Prop) (m : M (errv_t * option Z)) :
  emits Q m -> emits Q (code_of m).
Proof.
  intro Hm. unfold code_of. apply emits_bind; auto.
  intro. apply emits_pure.
Qed.

Lemma body_run_turn_events (park : World -> World) (i d : Z) (cw ws ab : bool)
    (p2 p1 : Z) (w : World) (r : step_result) (w' : World) :
  park_quiet cfg park ->
  body_run cfg env park i d cw ws ab p2 p1 w r w' ->
  Forall turn_event (events_since w w').
Proof.
  intros Hq Hrun.
  assert (Hchk : Forall turn_event (check_events ab))
    by (destruct ab; repeat constructor).
  inversion Hrun; subst;
    rewrite ?events_moved, ?events_moved_read, ?events_read;
    try (repeat (constructor; [exact I|]); exact Hchk).
  rewrite events_parked by apply Hq.
  apply Forall_app. split; [|repeat constructor].
  eapply Forall_impl; [|apply Hq].
  intros ev [-> | [us ->]]; exact I.
Qed.

Lemma turn_loop_turn_events (park : World -> World) (step pos d : Z)
    (cw ws ab : bool) :
  park_quiet cfg park ->
  forall fuel i p2 p1 w,
    Forall turn_event
      (events_since w
         (snd (turn_loop cfg env park fuel i step pos d cw ws ab p2 p1 w))).
Proof.
  intros Hq fuel i p2 p1 w.
  apply (turn_loop_induction_ext park step pos d cw ws ab
           (fun _ _ _ w res => Forall turn_event (events_since w (snd res))));
    simpl; clear fuel i p2 p1 w.
  - intro w. apply Hq.
  - nothing_recorded.
  - nothing_recorded.
  - intros. eapply body_run_turn_events; eauto.
  - intros i p2 p1 w q2 q1 w' res _ Hrun Hsplit IH.
    rewrite Hsplit. apply Forall_app. split; auto.
    eapply body_run_turn_events; eauto.
Qed.

Lemma turn_to_emits (pos d : Z) (cw ws ab : bool) :
  emits turn_event (turn_to cfg env b pos d cw ws ab).
Proof.
  intro w. split; [apply turn_to_extends|].
  unfold turn_to, turn_to_with.
  destruct ((pos <? SERVO_MIN) || (pos >? SERVO_MAX));
    [nothing_recorded|].
  destruct (pos =? readMicroseconds w);
    [nothing_recorded|].
  apply turn_loop_turn_events, park_up_quiet.
Qed.

Lemma turn_event_not_pouring (ev : Event) : turn_event ev -> not_pouring ev.
Proof. intros H n ow ->. exact H. Qed.

Lemma turn_event_pouring_only (n ow : Z) (ev : Event) :
  turn_event ev -> pouring_only n ow ev.
Proof. intros H n' ow' ->. destruct H. Qed.

(** ** The weight before pouring *)

Lemma baseline_sample_emits (orig_weight : Z) :
  emits not_pouring (baseline_sample cfg env b orig_weight).
Proof.
  unfold baseline_sample. apply emits_bind.
  - eapply emits_weaken; [apply turn_event_not_pouring | apply turn_to_emits].
  - intro r. destruct (errv_eqb (fst r) WEIGHT_NOT_STABLE).
    + apply emits_ask. intros a n ow. discriminate.
    + apply emits_pure.
Qed.

Lemma measure_baseline_emits (fuel : nat) :
  forall orig_weight,
    emits not_pouring (measure_baseline cfg env b fuel orig_weight).
Proof.
  induction fuel as [|fuel IH]; intro ow; simpl.
  - apply emits_out_of_fuel.
  - apply emits_bind; [apply baseline_sample_emits|].
    intro r.
    destruct (nonzero (fst r) && negb (errv_eqb (fst r) WHERE_THE_FUCK_IS_THE_CUP));
      [apply emits_pure|].
    destruct (errv_eqb (fst r) WHERE_THE_FUCK_IS_THE_CUP
              || (snd r <? WEIGHT_EPSILON cfg)); [|apply emits_pure].
    apply emits_RETURN_IFN_0; [|apply IH].
    apply emits_ask. intros a n ow'. discriminate.
Qed.

(** The first loop of [pour] is only left by [break] with a weight of at
    least WEIGHT_EPSILON. *)
Lemma measure_baseline_cup (fuel : nat) :
  forall orig_weight w ow w',
    measure_baseline cfg env b fuel orig_weight w = (Ret (CupThere ow), w') ->
    WEIGHT_EPSILON cfg <= ow.
Proof.
  induction fuel as [|fuel IH]; intros ow0 w ow w'; simpl; [discriminate|].
  unfold bind.
  destruct (baseline_sample cfg env b ow0 w) as [[[ret ow1]|] w1];
    [|discriminate].
  simpl.
  destruct (nonzero ret && negb (errv_eqb ret WHERE_THE_FUCK_IS_THE_CUP));
    [unfold pure; discriminate|].
  destruct (errv_eqb ret WHERE_THE_FUCK_IS_THE_CUP) eqn:Hcup; simpl.
  - unfold RETURN_IFN_0, bind, ask.
    destruct (nonzero (wait_for_cup env (trace w1)));
      [unfold pure; discriminate | apply IH].
  - destruct (ow1 <? WEIGHT_EPSILON cfg) eqn:Hlt.
    + unfold RETURN_IFN_0, bind, ask.
      destruct (nonzero (wait_for_cup env (trace w1)));
        [unfold pure; discriminate | apply IH].
    + unfold pure. intro H. inversion H; subst.
      now apply Z.ltb_ge in Hlt.
Qed.

(** ** The pouring loop *)

Lemma pour_attempt_rest_emits (requested_amount orig_weight : Z)
    (Q : Event -> Prop) :
  (forall ev, turn_event ev -> Q ev) ->
  (forall t x f r, Q (EvDelayUntil t x f r)) ->
  emits Q
    (bind (code_of (turn_down cfg env b (TURN_DOWN_DELAY cfg) true))
       (fun ret =>
          if errv_eqb ret OK then
            ask (fun tr =>
                   delay_until env tr (POURING_TIMEOUT cfg)
                     (orig_weight + requested_amount - UPGRIGHT_OFFSET cfg) true)
                (EvDelayUntil (POURING_TIMEOUT cfg)
                   (orig_weight + requested_amount - UPGRIGHT_OFFSET cfg) true)
          else pure ret)).
Proof.
  intros Hturn Hwait. apply emits_bind.
  - apply emits_code_of.
    eapply emits_weaken; [apply Hturn | apply turn_to_emits].
  - intro ret. destruct (errv_eqb ret OK); [|apply emits_pure].
    apply emits_ask. auto.
Qed.

Lemma pour_attempt_emits (requested_amount orig_weight : Z) :
  emits (pouring_only (number b) orig_weight)
    (pour_attempt cfg env b requested_amount orig_weight).
Proof.
  unfold pour_attempt. apply emits_bind.
  - apply emits_emit. intros n ow H. inversion H. auto.
  - intros _. apply pour_attempt_rest_emits.
    + apply turn_event_pouring_only.
    + intros t x f r n ow. discriminate.
Qed.


Lemma pour_recover_emits (Q : Event -> Prop) (again : M pour_exit)
    (ret : errv_t) :
  (forall ev, turn_event ev -> Q ev) ->
  (forall e n, Q (EvError e n)) ->
  (forall r, Q (EvWaitForResume r)) ->
  (forall r, Q (EvWaitForCup r)) ->
  (forall l, Q (EvPrintLcd l)) ->
  emits Q again ->
  emits Q (pour_recover cfg env b again ret).
Proof.
  intros Hturn Herr Hres Hcup Hlcd Hagain. unfold pour_recover.
  assert (Hmove : forall pos d cw ab,
             emits Q (code_of (turn_to cfg env b pos d cw false ab))).
  { intros. apply emits_code_of.
    eapply emits_weaken; [apply Hturn | apply turn_to_emits]. }
  assert (Hretry : emits Q (bind (emit (EvPrintLcd 2)) (fun _ => again))).
  { apply emits_bind; [apply emits_emit; auto | auto]. }
  destruct (errv_eqb ret OK); [apply emits_pure|].
  destruct (errv_eqb ret BOTTLE_EMPTY).
  { apply emits_bind; [apply emits_emit; auto|]. intros _.
    apply emits_RETURN_IFN_0; [apply Hmove|].
    apply emits_RETURN_IFN_0; [apply emits_ask; auto | exact Hretry]. }
  destruct (errv_eqb ret WHERE_THE_FUCK_IS_THE_CUP); [|apply emits_pure].
  apply emits_bind; [apply emits_emit; auto|]. intros _.
  apply emits_RETURN_IFN_0; [apply Hmove|].
  apply emits_RETURN_IFN_0; [apply emits_ask; auto | exact Hretry].
Qed.

Lemma pouring_loop_emits (fuel : nat) (requested_amount orig_weight : Z) :
  emits (pouring_only (number b) orig_weight)
    (pouring_loop cfg env b fuel requested_amount orig_weight).
Proof.
  induction fuel as [|fuel IH]; simpl.
  - apply emits_out_of_fuel.
  - apply emits_bind; [apply pour_attempt_emits|].
    intro ret. apply pour_recover_emits;
      [ apply turn_event_pouring_only
      | intros e n0 n ow; discriminate
      | intros r n ow; discriminate
      | intros r n ow; discriminate
      | intros l n ow; discriminate
      | exact IH ].
Qed.


(** X23.  [pour] gets to its pouring loop only with a weight before
    pouring of at least WEIGHT_EPSILON:
    - every POURING message [pour] sends, in a complete run or one cut off,
      carries a weight of at least WEIGHT_EPSILON;
    - the first loop sends no POURING message;
    - the first loop is left by [break] only with such a weight;
    - unless the first loop is left by [break], [pour] does nothing beyond
      it (no POURING message, no turn down);
    - when the attempt to measure reports 0 with a weight below
      WEIGHT_EPSILON, [wait_for_cup] is called; a non-zero code of it is
      returned, and on 0 the loop makes its next pass with that weight in
      [orig_weight]. *)
Theorem pour_needs_cup :
  forall (fuel : nat) (requested_amount measured_amount : Z) (w : World),
    (forall n ow,
        In (EvMsgPouring n ow)
           (events_since w
              (snd (pour cfg env b fuel requested_amount measured_amount w))) ->
        WEIGHT_EPSILON cfg <= ow)
    /\ (forall ow0,
          Forall not_pouring
            (events_since w (snd (measure_baseline cfg env b fuel ow0 w))))
    /\ (forall ow0 ow w1,
          measure_baseline cfg env b fuel ow0 w = (Ret (CupThere ow), w1) ->
          WEIGHT_EPSILON cfg <= ow)
    /\ (forall o w1,
          measure_baseline cfg env b fuel 0 w = (o, w1) ->
          (forall ow, o <> Ret (CupThere ow)) ->
          snd (pour cfg env b fuel requested_amount measured_amount w) = w1)
    /\ (forall ow0 ow1 w1,
          baseline_sample cfg env b ow0 w = (Ret (OK, ow1), w1) ->
          ow1 < WEIGHT_EPSILON cfg ->
          measure_baseline cfg env b (S fuel) ow0 w
          = (let r := wait_for_cup env (trace w1) in
             if nonzero r then
               (Ret (BaselineFailed r), log (EvWaitForCup r) w1)
             else
               measure_baseline cfg env b fuel ow1 (log (EvWaitForCup r) w1))).
Proof.
  intros fuel req m w. repeat split.
  - assert (Hall : emits (fun ev => forall n ow,
                            ev = EvMsgPouring n ow -> WEIGHT_EPSILON cfg <= ow)
                     (pour cfg env b fuel req m)).
    { unfold pour.
      apply (emits_bind_post _
               (fun bl => forall ow, bl = CupThere ow ->
                                     WEIGHT_EPSILON cfg <= ow)).
      - eapply emits_weaken; [|apply measure_baseline_emits].
        intros ev Hev n ow ->. now destruct (Hev n ow).
      - intros w0 a w1 Hrun ow ->. eapply measure_baseline_cup; eauto.
      - intros [ow|r] Hbl; [|apply emits_pure].
        specialize (Hbl ow eq_refl).
        apply emits_bind.
        + eapply emits_weaken; [|apply pouring_loop_emits].
          intros ev Hev n ow' ->.
          destruct (Hev n ow' eq_refl) as [_ ->]. exact Hbl.
        + intros [|r]; [|apply emits_pure].
          apply emits_RETURN_IFN_0.
          * apply emits_code_of.
            eapply emits_weaken; [|apply turn_to_emits].
            intros ev Hev n ow' ->. destruct Hev.
          * apply emits_bind.
            -- apply emits_ask. intros a n ow'. discriminate.
            -- intro r. destruct (nonzero (fst r)); apply emits_pure. }
    intros n ow Hin. destruct (Hall w) as [_ HQ].
    rewrite Forall_forall in HQ. eapply HQ; eauto.
  - intro ow0. apply measure_baseline_emits.
  - intros ow0 ow w1. apply measure_baseline_cup.
  - intros o w1 Hrun Hno. unfold pour, bind. rewrite Hrun.
    destruct o as [[ow|r]|]; simpl; auto. now destruct (Hno ow).
  - intros ow0 ow1 w1 Hsample Hlt. simpl. unfold bind at 1.
    rewrite Hsample. simpl.
    apply Z.ltb_lt in Hlt. rewrite Hlt.
    unfold RETURN_IFN_0, bind, ask. simpl.
    destruct (nonzero (wait_for_cup env (trace w1))); reflexivity.
Qed.

(** ** Failures carry a non-zero code *)

Lemma measure_baseline_failed (fuel : nat) :
  forall orig_weight w r w',
    measure_baseline cfg env b fuel orig_weight w
    = (Ret (BaselineFailed r), w') ->
    r <> OK.
Proof.
  induction fuel as [|fuel IH]; intros ow0 w r w'; simpl; [discriminate|].
  unfold bind.
  destruct (baseline_sample cfg env b ow0 w) as [[[ret ow1]|] w1];
    [|discriminate].
  simpl.
  destruct (nonzero ret && negb (errv_eqb ret WHERE_THE_FUCK_IS_THE_CUP))
    eqn:Hfail.
  - unfold pure. intro H. inversion H; subst.
    apply andb_true_iff in Hfail. now apply nonzero_true.
  - destruct (errv_eqb ret WHERE_THE_FUCK_IS_THE_CUP || (ow1 <? WEIGHT_EPSILON cfg));
      [|unfold pure; discriminate].
    unfold RETURN_IFN_0, bind, ask.
    destruct (nonzero (wait_for_cup env (trace w1))) eqn:Hnz.
    + unfold pure. intro H. inversion H; subst. now apply nonzero_true.
    + apply IH.
Qed.

Lemma pour_recover_failed (again : M pour_exit) (ret : errv_t) :
  (forall w r w', again w = (Ret (PourFailed r), w') -> r <> OK) ->
  forall w r w',
    pour_recover cfg env b again ret w = (Ret (PourFailed r), w') -> r <> OK.
Proof.
  intros Hagain w r w'. unfold pour_recover.
  assert (Hretry : forall (code : M errv_t) w0,
             RETURN_IFN_0 code PourFailed
               (RETURN_IFN_0 (ask (wait_for_resume env) EvWaitForResume)
                  PourFailed (bind (emit (EvPrintLcd 2)) (fun _ => again))) w0
             = (Ret (PourFailed r), w') -> r <> OK).
  { intros code w0. unfold RETURN_IFN_0, bind.
    destruct (code w0) as [[r1|] w1]; [|discriminate].
    destruct (nonzero r1) eqn:Hr1.
    - unfold pure. intro H. inversion H; subst. now apply nonzero_true.
    - unfold ask, emit.
      destruct (nonzero (wait_for_resume env (trace w1))) eqn:Hr2.
      + unfold pure. intro H. inversion H; subst. now apply nonzero_true.
      + apply Hagain. }
  assert (Hretry' : forall (code : M errv_t) w0,
             RETURN_IFN_0 code PourFailed
               (RETURN_IFN_0 (ask (wait_for_cup env) EvWaitForCup)
                  PourFailed (bind (emit (EvPrintLcd 2)) (fun _ => again))) w0
             = (Ret (PourFailed r), w') -> r <> OK).
  { intros code w0. unfold RETURN_IFN_0, bind.
    destruct (code w0) as [[r1|] w1]; [|discriminate].
    destruct (nonzero r1) eqn:Hr1.
    - unfold pure. intro H. inversion H; subst. now apply nonzero_true.
    - unfold ask, emit.
      destruct (nonzero (wait_for_cup env (trace w1))) eqn:Hr2.
      + unfold pure. intro H. inversion H; subst. now apply nonzero_true.
      + apply Hagain. }
  destruct (errv_eqb ret OK) eqn:Hok; [unfold pure; discriminate|].
  destruct (errv_eqb ret BOTTLE_EMPTY).
  { unfold bind at 1, emit at 1. apply Hretry. }
  destruct (errv_eqb ret WHERE_THE_FUCK_IS_THE_CUP).
  { unfold bind at 1, emit at 1. apply Hretry'. }
  unfold pure. intro H. inversion H; subst. now apply errv_eqb_neq.
Qed.

Lemma pouring_loop_failed (fuel : nat) (requested_amount orig_weight : Z) :
  forall w r w',
    pouring_loop cfg env b fuel requested_amount orig_weight w
    = (Ret (PourFailed r), w') ->
    r <> OK.
Proof.
  induction fuel as [|fuel IH]; intros w r w'; simpl; [discriminate|].
  unfold bind at 1.
  destruct (pour_attempt cfg env b requested_amount orig_weight w)
    as [[ret|] w1]; [|discriminate].
  now apply pour_recover_failed.
Qed.

(** Without a request for stabilization no stabilized weight is handed out. *)
Lemma turn_loop_no_stable (park : World -> World) (step pos d : Z)
    (cw ab : bool) :
  forall fuel i p2 p1 w r s w',
    turn_loop cfg env park fuel i step pos d cw false ab p2 p1 w
    = (Ret (r, s), w') ->
    s = None.
Proof.
  intros fuel i p2 p1 w.
  apply (turn_loop_induction park step pos d cw false ab
           (fun _ _ _ _ res =>
              forall r s w', res = (Ret (r, s), w') -> s = None));
    simpl; clear fuel i p2 p1 w.
  - intros. congruence.
  - intros. discriminate.
  - intros i p2 p1 w ret sw w' _ Hrun r s w'' Heq.
    inversion Heq; subst. inversion Hrun; subst; auto. discriminate.
  - intros. eauto.
Qed.

Lemma turn_to_no_stable (pos d : Z) (cw ab : bool) (w : World)
    (r : errv_t) (s : option Z) (w' : World) :
  turn_to cfg env b pos d cw false ab w = (Ret (r, s), w') -> s = None.
Proof.
  unfold turn_to, turn_to_with.
  destruct ((pos <? SERVO_MIN) || (pos >? SERVO_MAX)); [congruence|].
  destruct (pos =? readMicroseconds w); [congruence|].
  apply turn_loop_no_stable.
Qed.

Lemma turn_to_reaches (pos d : Z) (cw ab : bool) (w : World)
    (s : option Z) (w' : World) :
  turn_to cfg env b pos d cw false ab w = (Ret (OK, s), w') ->
  s = None /\ servo_us w' = pos.
Proof.
  intro Hrun. pose proof (turn_to_no_stable _ _ _ _ _ _ _ _ Hrun). subst s.
  split; [reflexivity|]. eapply turn_to_with_reaches. exact Hrun.
Qed.

(** ** The measured amount *)

(** C6.  A [pour] that returns 0 went through these steps: the first loop
    ended with the weight before pouring [ow]; the pouring loop ended with
    [break]; the bottle was turned to the pause position, so the actuator
    stands at (pos_up + pos_down) / 2, not at [pos_up]; there
    [ads1231_get_grams] returned 0 with the weight [g]; and the amount
    reported is [g - ow]. *)
Theorem pour_measured_amount :
  forall (fuel : nat) (requested_amount measured_amount : Z) (w w' : World)
         (measured : Z),
    pour cfg env b fuel requested_amount measured_amount w
    = (Ret (OK, measured), w') ->
    exists (ow g : Z) (w1 w2 w3 : World),
      measure_baseline cfg env b fuel 0 w = (Ret (CupThere ow), w1)
      /\ pouring_loop cfg env b fuel requested_amount ow w1 = (Ret Poured, w2)
      /\ turn_to_pause_pos cfg env b (TURN_UP_DELAY cfg) w2
         = (Ret (OK, None), w3)
      /\ servo_us w3 = (pos_up b + pos_down b) ÷ 2
      /\ ads1231_get_grams env (trace w3) measured_amount = (OK, g)
      /\ w' = log (EvGetGrams OK g) w3
      /\ servo_us w' = (pos_up b + pos_down b) ÷ 2
      /\ measured = g - ow.
Proof.
  intros fuel req m w w' measured. unfold pour. unfold bind at 1.
  destruct (measure_baseline cfg env b fuel 0 w) as [[[ow|r]|] w1] eqn:Hbase;
    [| |discriminate].
  2:{ unfold pure. intro H. inversion H; subst.
      exfalso. now apply (measure_baseline_failed _ _ _ _ _ Hbase). }
  unfold bind at 1.
  destruct (pouring_loop cfg env b fuel req ow w1) as [[[|r]|] w2] eqn:Hloop;
    [| |discriminate].
  2:{ unfold pure. intro H. inversion H; subst.
      exfalso. now apply (pouring_loop_failed _ _ _ _ _ _ Hloop). }
  unfold RETURN_IFN_0, code_of. unfold bind at 1 2.
  destruct (turn_to_pause_pos cfg env b (TURN_UP_DELAY cfg) w2)
    as [[[r s]|] w3] eqn:Hturn; [|discriminate].
  unfold pure at 1. cbn [fst].
  destruct (nonzero r) eqn:Hr.
  { apply nonzero_true in Hr. unfold pure.
    intro H. inversion H; congruence. }
  apply nonzero_false in Hr. subst r.
  destruct (turn_to_reaches _ _ _ _ _ _ _ Hturn) as [-> Hservo].
  unfold bind, ask.
  destruct (ads1231_get_grams env (trace w3) m) as [r4 g] eqn:Hgrams.
  cbn [fst snd].
  destruct (nonzero r4) eqn:Hr4.
  { apply nonzero_true in Hr4. unfold pure. intro H. inversion H; congruence. }
  apply nonzero_false in Hr4. subst r4.
  unfold pure. intro H. inversion H; subst.
  assert (Hpause : get_pause_pos b = (pos_up b + pos_down b) ÷ 2)
    by (unfold get_pause_pos; now rewrite Z.add_comm).
  exists ow, g, w1, w2, w3. rewrite <- Hpause.
  repeat split; auto.
Qed.

(** ** Bottle empty *)


(** * Further properties of turn_to *)

(** ** One microsecond at a time *)

Lemma unit_steps_app (start : Z) (l1 l2 : list Z) :
  unit_steps start (l1 ++ l2)
  <-> unit_steps start l2 /\ unit_steps (hd start l2) l1.
Proof.
  induction l1 as [|us l1 IH]; simpl.
  - tauto.
  - rewrite IH.
    assert (Hhd : hd start (l1 ++ l2) = hd (hd start l2) l1)
      by (destruct l1; reflexivity).
    rewrite Hhd. tauto.
Qed.

Lemma hd_app_writes (start : Z) (l1 l2 : list Z) :
  hd start (l1 ++ l2) = hd (hd start l2) l1.
Proof. destruct l1; reflexivity. Qed.

(** The loop moves the actuator by one microsecond per pass, and the
    position read back at the end is the last one commanded. *)
Lemma turn_loop_unit_steps (park : World -> World) (step pos d : Z)
    (cw ws ab : bool) :
  (forall w0, extends w0 (park w0)) ->
  (forall w0,
      servo_us (park w0)
      = hd (servo_us w0) (servo_writes (events_since w0 (park w0)))
      /\ unit_steps (servo_us w0)
           (servo_writes (events_since w0 (park w0)))) ->
  step = 1 \/ step = -1 ->
  forall fuel i p2 p1 w,
    servo_us w = i - step ->
    servo_us (snd (turn_loop cfg env park fuel i step pos d cw ws ab p2 p1 w))
    = hd (servo_us w)
        (servo_writes
           (events_since w
              (snd (turn_loop cfg env park fuel i step pos d cw ws ab
                      p2 p1 w))))
    /\ unit_steps (servo_us w)
         (servo_writes
            (events_since w
               (snd (turn_loop cfg env park fuel i step pos d cw ws ab
                       p2 p1 w)))).
Proof.
  intros Hext Hpark Hstep fuel i p2 p1 w.
  apply (turn_loop_induction_ext park step pos d cw ws ab
           (fun i _ _ w res =>
              servo_us w = i - step ->
              servo_us (snd res)
              = hd (servo_us w) (servo_writes (events_since w (snd res)))
              /\ unit_steps (servo_us w)
                   (servo_writes (events_since w (snd res)))));
    simpl; clear fuel i p2 p1 w; auto.
  - intros. rewrite events_since_refl. simpl. auto.
  - intros. rewrite events_since_refl. simpl. auto.
  - intros i p2 p1 w ret sw w' _ Hrun Hi.
    inversion Hrun; subst.
    + rewrite events_parked by apply Hext.
      rewrite servo_writes_app. simpl. rewrite app_nil_r.
      apply (Hpark (log (EvAbortCheck (check_aborted env (trace w))) w)).
    + rewrite events_read. simpl. rewrite servo_writes_check. simpl.
      rewrite servo_after_check. auto.
    + rewrite events_read. simpl. rewrite servo_writes_check. simpl.
      rewrite servo_after_check. auto.
    + rewrite events_read. simpl. rewrite servo_writes_check. simpl.
      rewrite servo_after_check. auto.
  - intros i p2 p1 w q2 q1 w' res _ Hrun Hsplit IH Hi.
    assert (Hw' : servo_us w' = i /\ servo_writes (events_since w w') = [i]).
    { inversion Hrun; subst;
        rewrite ?events_moved, ?events_moved_read; simpl;
        rewrite servo_writes_check; auto. }
    destruct Hw' as [Hservo Hwrites].
    destruct IH as [IHlast IHsteps]; [lia|].
    rewrite Hsplit, servo_writes_app, Hwrites.
    rewrite hd_app_writes, unit_steps_app. simpl.
    rewrite Hservo in IHlast, IHsteps.
    repeat split; auto.
    destruct Hstep; subst step; lia.
Qed.

Lemma turn_to_with_unit_steps (park : World -> World) (pos d : Z)
    (cw ws ab : bool) (w : World) :
  (forall w0, extends w0 (park w0)) ->
  (forall w0,
      servo_us (park w0)
      = hd (servo_us w0) (servo_writes (events_since w0 (park w0)))
      /\ unit_steps (servo_us w0)
           (servo_writes (events_since w0 (park w0)))) ->
  servo_us (snd (turn_to_with cfg env park pos d cw ws ab w))
  = hd (servo_us w)
      (servo_writes
         (events_since w (snd (turn_to_with cfg env park pos d cw ws ab w))))
  /\ unit_steps (servo_us w)
       (servo_writes
          (events_since w (snd (turn_to_with cfg env park pos d cw ws ab w)))).
Proof.
  intros Hext Hpark. unfold turn_to_with.
  destruct ((pos <? SERVO_MIN) || (pos >? SERVO_MAX));
    [simpl; rewrite events_since_refl; simpl; auto|].
  unfold readMicroseconds.
  destruct (pos =? servo_us w);
    [simpl; rewrite events_since_refl; simpl; auto|].
  apply turn_loop_unit_steps; auto.
  - destruct (servo_us w <? pos); auto.
  - lia.
Qed.

Lemma park_up_unit_steps (w : World) :
  servo_us (park_up cfg env b w)
  = hd (servo_us w) (servo_writes (events_since w (park_up cfg env b w)))
  /\ unit_steps (servo_us w)
       (servo_writes (events_since w (park_up cfg env b w))).
Proof.
  unfold park_up. apply turn_to_with_unit_steps.
  - intro. apply extends_refl.
  - intro w0. rewrite events_since_refl. simpl. auto.
Qed.

(** X1.  [turn_to] never makes the actuator jump: every position it
    commands, on the way to the target as well as while parking the bottle
    after an abort, is exactly one microsecond away from the position before
    it, the first one from the position read at entry; and the position the
    actuator reports afterwards is the last one commanded (the one at entry
    if none was). *)
Theorem turn_to_unit_steps :
  forall (pos delay_ms : Z) (check_weight want_stable enable_abortcheck : bool)
         (w : World),
    unit_steps (servo_us w)
      (servo_writes
         (events_since w
            (snd (turn_to cfg env b pos delay_ms check_weight want_stable
                    enable_abortcheck w))))
    /\ servo_us
         (snd (turn_to cfg env b pos delay_ms check_weight want_stable
                 enable_abortcheck w))
       = hd (servo_us w)
           (servo_writes
              (events_since w
                 (snd (turn_to cfg env b pos delay_ms check_weight want_stable
                         enable_abortcheck w)))).
Proof.
  intros pos d cw ws ab w.
  destruct (turn_to_with_unit_steps (park_up cfg env b) pos d cw ws ab w
              park_up_extends park_up_unit_steps) as [Hlast Hsteps].
  split; [exact Hsteps | exact Hlast].
Qed.

(** ** A delay before every command *)

Lemma paced_from_app (ok : Z -> Prop) (l1 l2 : list Event) :
  forall pending,
    paced_from ok pending l1 -> paced_from ok false l2 ->
    paced_from ok pending (l1 ++ l2).
Proof.
  induction l1 as [|ev l1 IH]; intros pending H1 H2; simpl in *.
  - now subst.
  - destruct ev; intuition.
Qed.

Lemma paced_check_events (ok : Z -> Prop) (ab : bool) :
  paced_from ok false (check_events ab).
Proof. destruct ab; simpl; auto. Qed.

Lemma paced_weaken (ok ok' : Z -> Prop) (evs : list Event) :
  (forall ms, ok ms -> ok' ms) ->
  forall pending, paced_from ok pending evs -> paced_from ok' pending evs.
Proof.
  intro Himp. induction evs as [|ev evs IH]; intros pending H; simpl in *; auto.
  destruct ev; intuition.
Qed.

Lemma turn_loop_paced (ok : Z -> Prop) (park : World -> World)
    (step pos d : Z) (cw ws ab : bool) :
  (forall w0, extends w0 (park w0)) ->
  (forall w0, paced ok (events_since w0 (park w0))) ->
  ok (to_unsigned_long d) ->
  forall fuel i p2 p1 w,
    paced ok
      (events_since w
         (snd (turn_loop cfg env park fuel i step pos d cw ws ab p2 p1 w))).
Proof.
  intros Hext Hpark Hd fuel i p2 p1 w. unfold paced in *.
  apply (turn_loop_induction_ext park step pos d cw ws ab
           (fun _ _ _ w res => paced_from ok false (events_since w (snd res))));
    simpl; clear fuel i p2 p1 w; auto.
  - intros. now rewrite events_since_refl.
  - intros. now rewrite events_since_refl.
  - intros i p2 p1 w ret sw w' _ Hrun.
    inversion Hrun; subst.
    + rewrite events_parked by apply Hext.
      apply paced_from_app; [apply Hpark | simpl; auto].
    + rewrite events_read. simpl. split; auto. apply paced_check_events.
    + rewrite events_read. simpl. split; auto. apply paced_check_events.
    + rewrite events_read. simpl. split; auto. apply paced_check_events.
  - intros i p2 p1 w q2 q1 w' res _ Hrun Hsplit IH.
    rewrite Hsplit. apply paced_from_app; auto.
    inversion Hrun; subst;
      rewrite ?events_moved, ?events_moved_read; simpl;
      repeat split; auto; apply paced_check_events.
Qed.

Lemma turn_to_with_paced (ok : Z -> Prop) (park : World -> World)
    (pos d : Z) (cw ws ab : bool) (w : World) :
  (forall w0, extends w0 (park w0)) ->
  (forall w0, paced ok (events_since w0 (park w0))) ->
  ok (to_unsigned_long d) ->
  paced ok
    (events_since w (snd (turn_to_with cfg env park pos d cw ws ab w))).
Proof.
  intros Hext Hpark Hd. unfold turn_to_with.
  destruct ((pos <? SERVO_MIN) || (pos >? SERVO_MAX));
    [simpl; rewrite events_since_refl; reflexivity|].
  destruct (pos =? readMicroseconds w);
    [simpl; rewrite events_since_refl; reflexivity|].
  now apply turn_loop_paced.
Qed.

(** The park move waits FAST_TURN_UP_DELAY before each of its commands. *)
Lemma park_up_paced (w : World) :
  paced (fun ms => ms = to_unsigned_long (FAST_TURN_UP_DELAY cfg))
    (events_since w (park_up cfg env b w)).
Proof.
  unfold park_up. apply turn_to_with_paced; auto.
  - intro. apply extends_refl.
  - intro w1. rewrite events_since_refl. reflexivity.
Qed.



(** The conversion changes nothing for a delay that is not negative. *)
Lemma to_unsigned_long_small (ms : Z) :
  0 <= ms < 2 ^ 32 -> to_unsigned_long ms = ms.
Proof. intro H. unfold to_unsigned_long. now apply Z.mod_small. Qed.

(** ** Counting what a call does *)

Lemma abort_checks_app (l1 l2 : list Event) :
  abort_checks (l1 ++ l2) = (abort_checks l1 + abort_checks l2)%nat.
Proof.
  induction l1 as [|[] l1 IH]; simpl; auto; now rewrite IH.
Qed.

Lemma scale_reads_app (l1 l2 : list Event) :
  scale_reads (l1 ++ l2) = (scale_reads l1 + scale_reads l2)%nat.
Proof.
  induction l1 as [|[] l1 IH]; simpl; auto; now rewrite IH.
Qed.

Lemma abort_checks_check (ab : bool) :
  abort_checks (check_events ab) = if ab then 1%nat else 0%nat.
Proof. now destruct ab. Qed.

Lemma scale_reads_check (ab : bool) : scale_reads (check_events ab) = 0%nat.
Proof. now destruct ab. Qed.

Lemma park_event_counts (evs : list Event) :
  Forall (park_event cfg) evs ->
  abort_checks evs = 0%nat /\ scale_reads evs = 0%nat.
Proof.
  induction 1 as [|ev evs Hev _ IH]; simpl; auto.
  destruct Hev as [-> | [us ->]]; auto.
Qed.

(** What is switched off is not done. *)
Lemma turn_loop_switched_off (park : World -> World) (step pos d : Z)
    (cw ws ab : bool) :
  park_quiet cfg park ->
  forall fuel i p2 p1 w,
    (ab = false ->
     abort_checks
       (events_since w
          (snd (turn_loop cfg env park fuel i step pos d cw ws ab p2 p1 w)))
     = 0%nat)
    /\ (cw || ws = false ->
        scale_reads
          (events_since w
             (snd (turn_loop cfg env park fuel i step pos d cw ws ab p2 p1 w)))
        = 0%nat).
Proof.
  intros Hq fuel i p2 p1 w.
  apply (turn_loop_induction_ext park step pos d cw ws ab
           (fun _ _ _ w res =>
              (ab = false -> abort_checks (events_since w (snd res)) = 0%nat)
              /\ (cw || ws = false ->
                  scale_reads (events_since w (snd res)) = 0%nat)));
    simpl; clear fuel i p2 p1 w.
  - intro w. apply Hq.
  - intros. rewrite events_since_refl. auto.
  - intros. rewrite events_since_refl. auto.
  - intros i p2 p1 w ret sw w' _ Hrun.
    inversion Hrun; subst.
    + rewrite events_parked by apply Hq.
      rewrite abort_checks_app, scale_reads_app. simpl.
      destruct (park_event_counts _
                  (proj2 (Hq (log (EvAbortCheck (check_aborted env (trace w)))
                                w)))) as [-> ->].
      split; [discriminate | auto].
    + rewrite events_read. simpl.
      rewrite abort_checks_check, scale_reads_check.
      split; [now intros -> | congruence].
    + rewrite events_read. simpl.
      rewrite abort_checks_check, scale_reads_check.
      split; [now intros -> | discriminate].
    + rewrite events_read. simpl.
      rewrite abort_checks_check, scale_reads_check.
      split; [now intros -> | intro H; apply orb_false_iff in H; destruct H;
                              congruence].
  - intros i p2 p1 w q2 q1 w' res _ Hrun Hsplit [IHa IHs].
    rewrite Hsplit, abort_checks_app, scale_reads_app.
    inversion Hrun; subst;
      rewrite ?events_moved, ?events_moved_read; simpl;
      rewrite abort_checks_check, scale_reads_check;
      (split;
       [ intros ->; now rewrite IHa
       | intro H; try (rewrite IHs by exact H; reflexivity);
         try congruence;
         apply orb_false_iff in H; destruct H; congruence ]).
Qed.

(** X3.  What is switched off is never done: with [enable_abortcheck] false
    [turn_to] does not consult the abort flag at all, and with neither
    [check_weight] nor a [stable_weight] pointer it takes no weight sample,
    whatever else happens during the call. *)
Theorem turn_to_switched_off :
  forall (pos delay_ms : Z) (check_weight want_stable enable_abortcheck : bool)
         (w : World),
    (enable_abortcheck = false ->
     abort_checks
       (events_since w
          (snd (turn_to cfg env b pos delay_ms check_weight want_stable
                  enable_abortcheck w)))
     = 0%nat)
    /\ (check_weight = false -> want_stable = false ->
        scale_reads
          (events_since w
             (snd (turn_to cfg env b pos delay_ms check_weight want_stable
                     enable_abortcheck w)))
        = 0%nat).
Proof.
  intros pos d cw ws ab w.
  assert (H : (ab = false ->
               abort_checks
                 (events_since w (snd (turn_to cfg env b pos d cw ws ab w)))
               = 0%nat)
              /\ (cw || ws = false ->
                  scale_reads
                    (events_since w (snd (turn_to cfg env b pos d cw ws ab w)))
                  = 0%nat)).
  { unfold turn_to, turn_to_with.
    destruct ((pos <? SERVO_MIN) || (pos >? SERVO_MAX));
      [simpl; rewrite events_since_refl; auto|].
    destruct (pos =? readMicroseconds w);
      [simpl; rewrite events_since_refl; auto|].
    apply turn_loop_switched_off, park_up_quiet. }
  destruct H as [Ha Hs]. split; [exact Ha|].
  intros -> ->. now apply Hs.
Qed.

(** Without an observed abort every pass that commands a position has made
    one abort check and taken one sample before (where these are switched
    on); a pass that returns has made them without commanding. *)
Lemma turn_loop_once_per_step (park : World -> World) (step pos d : Z)
    (cw ws ab : bool) :
  park_quiet cfg park ->
  forall fuel i p2 p1 w,
    ~ abort_observed
        (events_since w
           (snd (turn_loop cfg env park fuel i step pos d cw ws ab p2 p1 w))) ->
    (ab = true ->
     (length (servo_writes
                (events_since w
                   (snd (turn_loop cfg env park fuel i step pos d cw ws ab
                           p2 p1 w))))
      <= abort_checks
           (events_since w
              (snd (turn_loop cfg env park fuel i step pos d cw ws ab
                      p2 p1 w)))
      <= S (length (servo_writes
                      (events_since w
                         (snd (turn_loop cfg env park fuel i step pos d
                                 cw ws ab p2 p1 w))))))%nat)
    /\ (cw || ws = true ->
        (length (servo_writes
                   (events_since w
                      (snd (turn_loop cfg env park fuel i step pos d cw ws ab
                              p2 p1 w))))
         <= scale_reads
              (events_since w
                 (snd (turn_loop cfg env park fuel i step pos d cw ws ab
                         p2 p1 w)))
         <= S (length (servo_writes
                         (events_since w
                            (snd (turn_loop cfg env park fuel i step pos d
                                    cw ws ab p2 p1 w))))))%nat).
Proof.
  intros Hq fuel i p2 p1 w.
  apply (turn_loop_induction_ext park step pos d cw ws ab
           (fun _ _ _ w res =>
              ~ abort_observed (events_since w (snd res)) ->
              (ab = true ->
               (length (servo_writes (events_since w (snd res)))
                <= abort_checks (events_since w (snd res))
                <= S (length (servo_writes (events_since w (snd res)))))%nat)
              /\ (cw || ws = true ->
                  (length (servo_writes (events_since w (snd res)))
                   <= scale_reads (events_since w (snd res))
                   <= S (length (servo_writes (events_since w (snd res)))))%nat)));
    simpl; clear fuel i p2 p1 w.
  - intro w. apply Hq.
  - intros. rewrite events_since_refl. simpl. split; intros; lia.
  - intros. rewrite events_since_refl. simpl. split; intros; lia.
  - intros i p2 p1 w ret sw w' _ Hrun Hno.
    inversion Hrun; subst.
    + exfalso. apply Hno. rewrite events_parked by apply (proj1 (Hq _)).
      apply abort_observed_app. right.
      exists (check_aborted env (trace w)). simpl. auto.
    + rewrite events_read. simpl.
      rewrite servo_writes_check, abort_checks_check, scale_reads_check.
      simpl. split; [intros -> | intros _]; lia.
    + rewrite events_read. simpl.
      rewrite servo_writes_check, abort_checks_check, scale_reads_check.
      simpl. split; [intros -> | intros _]; lia.
    + rewrite events_read. simpl.
      rewrite servo_writes_check, abort_checks_check, scale_reads_check.
      simpl. split; [intros -> | intros _]; lia.
  - intros i p2 p1 w q2 q1 w' res _ Hrun Hsplit IH Hno.
    rewrite Hsplit in *.
    assert (Hno' : ~ abort_observed (events_since w' (snd res)))
      by (intro Ha; apply Hno; apply abort_observed_app; now left).
    destruct (IH Hno') as [IHa IHs]. clear IH.
    rewrite servo_writes_app, abort_checks_app, scale_reads_app, length_app.
    inversion Hrun; subst;
      rewrite ?events_moved, ?events_moved_read; simpl;
      rewrite servo_writes_check, abort_checks_check, scale_reads_check;
      simpl;
      (split;
       [ intros ->; specialize (IHa eq_refl); lia
       | intro H; specialize (IHs H); lia ]).
Qed.

Lemma pass_history_app (ab sc : bool) (d : Z) (l1 l2 : list Event) :
  pass_history ab sc d l1 -> pass_history ab sc d l2 ->
  pass_history ab sc d (l1 ++ l2).
Proof.
  induction 1 as [|i reading older Hreading Holder IH]; intro H2; simpl; auto.
  rewrite <- !app_assoc. constructor; auto.
Qed.

Lemma pass_history_one (ab sc : bool) (d i : Z) (reading : list Event) :
  pass_reading sc reading ->
  pass_history ab sc d
    (EvServoWrite i :: EvDelay (to_unsigned_long d)
       :: reading ++ check_events ab).
Proof.
  intro H. rewrite <- (app_nil_r (check_events ab)).
  constructor; [exact H | constructor].
Qed.

(** A pass that goes on to the next one is a complete pass. *)
Lemma body_run_pass (park : World -> World) (i d : Z) (cw ws ab : bool)
    (p2 p1 : Z) (w : World) (q2 q1 : Z) (w' : World) :
  body_run cfg env park i d cw ws ab p2 p1 w (Next q2 q1) w' ->
  pass_history ab (cw || ws) d (events_since w w').
Proof.
  intro Hrun. inversion Hrun; subst.
  - rewrite events_moved. apply (pass_history_one ab _ d i []). reflexivity.
  - rewrite events_moved_read.
    match goal with H : _ || _ = true |- _ => rewrite H end.
    apply (pass_history_one ab true d i [_]). simpl. eauto.
  - rewrite events_moved_read. rewrite orb_true_r.
    apply (pass_history_one ab true d i [_]). simpl. eauto.
  - rewrite events_moved_read.
    apply (pass_history_one ab true d i [_]). simpl. eauto.
Qed.

(** Without an observed abort the history of the loop is: complete passes,
    and on top of them at most the beginning of one more pass, from within
    which the loop returned. *)
Lemma turn_loop_passes (park : World -> World) (step pos d : Z)
    (cw ws ab : bool) :
  park_quiet cfg park ->
  forall fuel i p2 p1 w,
    ~ abort_observed
        (events_since w
           (snd (turn_loop cfg env park fuel i step pos d cw ws ab p2 p1 w))) ->
    exists last_pass full : list Event,
      events_since w
        (snd (turn_loop cfg env park fuel i step pos d cw ws ab p2 p1 w))
      = last_pass ++ full
      /\ pass_history ab (cw || ws) d full
      /\ ((last_pass = []
           /\ forall r s,
                fst (turn_loop cfg env park fuel i step pos d cw ws ab
                       p2 p1 w) = Ret (r, s) ->
                s = None /\ r = (if ws then WEIGHT_NOT_STABLE else OK))
          \/ (cw || ws = true
              /\ exists (e : errv_t) (x : Z),
                   last_pass = EvNoblock e x :: check_events ab
                   /\ ((e <> OK
                        /\ fst (turn_loop cfg env park fuel i step pos d
                                  cw ws ab p2 p1 w) = Ret (e, None))
                       \/ (e = OK
                           /\ (fst (turn_loop cfg env park fuel i step pos d
                                      cw ws ab p2 p1 w)
                               = Ret (WHERE_THE_FUCK_IS_THE_CUP, None)
                               \/ fst (turn_loop cfg env park fuel i step
                                         pos d cw ws ab p2 p1 w)
                                  = Ret (OK, Some x)))))).
Proof.
  intros Hq fuel i p2 p1 w.
  apply (turn_loop_induction_ext park step pos d cw ws ab
           (fun _ _ _ w res =>
              ~ abort_observed (events_since w (snd res)) ->
              exists last_pass full,
                events_since w (snd res) = last_pass ++ full
                /\ pass_history ab (cw || ws) d full
                /\ ((last_pass = []
                     /\ forall r s, fst res = Ret (r, s) ->
                          s = None
                          /\ r = (if ws then WEIGHT_NOT_STABLE else OK))
                    \/ (cw || ws = true
                        /\ exists e x,
                             last_pass = EvNoblock e x :: check_events ab
                             /\ ((e <> OK /\ fst res = Ret (e, None))
                                 \/ (e = OK
                                     /\ (fst res
                                         = Ret (WHERE_THE_FUCK_IS_THE_CUP, None)
                                         \/ fst res = Ret (OK, Some x))))))));
    simpl; clear fuel i p2 p1 w.
  - intro w. apply Hq.
  - intros i _ _ w _ _. exists [], []. rewrite events_since_refl.
    split; [reflexivity|]. split; [constructor|]. left. split; [reflexivity|].
    intros r s Heq. inversion Heq. auto.
  - intros i _ _ w _ _. exists [], []. rewrite events_since_refl.
    split; [reflexivity|]. split; [constructor|]. left. split; [reflexivity|].
    intros r s Heq. discriminate.
  - intros i p2 p1 w ret sw w' _ Hrun Hno.
    inversion Hrun; subst.
    + exfalso. apply Hno. rewrite events_parked by apply Hq.
      apply abort_observed_app. right.
      exists (check_aborted env (trace w)). simpl. auto.
    + exists (EvNoblock ret weight :: check_events ab), [].
      rewrite events_read, app_nil_r.
      split; [reflexivity|]. split; [constructor|]. right.
      split; [assumption|]. exists ret, weight. auto.
    + exists (EvNoblock OK weight :: check_events ab), [].
      rewrite events_read, app_nil_r.
      split; [reflexivity|]. split; [constructor|]. right.
      split; [reflexivity|]. exists OK, weight. auto.
    + exists (EvNoblock OK weight :: check_events ab), [].
      rewrite events_read, app_nil_r.
      split; [reflexivity|]. split; [constructor|]. right.
      split; [apply orb_true_r|]. exists OK, weight. auto.
  - intros i p2 p1 w q2 q1 w' res _ Hrun Hsplit IH Hno.
    rewrite Hsplit in Hno.
    destruct IH as [last_pass [full [Hev [Hfull Hlast]]]].
    { intro Ha. apply Hno. apply abort_observed_app. now left. }
    exists last_pass, (full ++ events_since w w').
    rewrite Hsplit, Hev, app_assoc.
    split; [reflexivity|]. split; [|exact Hlast].
    apply pass_history_app; [exact Hfull|].
    eapply body_run_pass; eauto.
Qed.

(** X4.  Unless an abort is observed, the history of a call of [turn_to] is
    a sequence of complete passes of its loop and, on top of them, at most
    the beginning of one more pass.  In every complete pass the abort flag is
    asked for first (if [enable_abortcheck]), then the scale is read once (if
    [check_weight] or [stable_weight]), then [delay_ms] is waited, and only
    then the position of the pass is commanded.  A begun pass is there
    exactly when the call returned from within the loop body: it consists of
    the abort check and the reading, nothing is waited or commanded in it,
    and the reading decides the result (its error code; or, for a valid
    reading, WHERE_THE_FUCK_IS_THE_CUP or the stabilized weight).  Otherwise
    the call returned before the loop or after it, with SERVO_OUT_OF_RANGE,
    0 or WEIGHT_NOT_STABLE and no weight written.  So abort checks and
    readings each number as many as the commanded positions, or one more. *)
Theorem turn_to_once_per_step :
  forall (pos delay_ms : Z) (check_weight want_stable enable_abortcheck : bool)
         (w : World),
    ~ abort_observed
        (events_since w
           (snd (turn_to cfg env b pos delay_ms check_weight want_stable
                   enable_abortcheck w))) ->
    (exists last_pass full : list Event,
       events_since w
         (snd (turn_to cfg env b pos delay_ms check_weight want_stable
                 enable_abortcheck w))
       = last_pass ++ full
       /\ pass_history enable_abortcheck (check_weight || want_stable)
            delay_ms full
       /\ ((last_pass = []
            /\ exists r : errv_t,
                 fst (turn_to cfg env b pos delay_ms check_weight want_stable
                        enable_abortcheck w) = Ret (r, None)
                 /\ (r = SERVO_OUT_OF_RANGE \/ r = OK
                     \/ r = WEIGHT_NOT_STABLE))
           \/ (check_weight || want_stable = true
               /\ exists (e : errv_t) (x : Z),
                    last_pass = EvNoblock e x :: check_events enable_abortcheck
                    /\ ((e <> OK
                         /\ fst (turn_to cfg env b pos delay_ms check_weight
                                   want_stable enable_abortcheck w)
                            = Ret (e, None))
                        \/ (e = OK
                            /\ (fst (turn_to cfg env b pos delay_ms
                                       check_weight want_stable
                                       enable_abortcheck w)
                                = Ret (WHERE_THE_FUCK_IS_THE_CUP, None)
                                \/ fst (turn_to cfg env b pos delay_ms
                                          check_weight want_stable
                                          enable_abortcheck w)
                                   = Ret (OK, Some x)))))))
    /\ (enable_abortcheck = true ->
        (length (servo_writes
                   (events_since w
                      (snd (turn_to cfg env b pos delay_ms check_weight
                              want_stable enable_abortcheck w))))
         <= abort_checks
              (events_since w
                 (snd (turn_to cfg env b pos delay_ms check_weight want_stable
                         enable_abortcheck w)))
         <= S (length (servo_writes
                         (events_since w
                            (snd (turn_to cfg env b pos delay_ms check_weight
                                    want_stable enable_abortcheck w))))))%nat)
    /\ (check_weight || want_stable = true ->
        (length (servo_writes
                   (events_since w
                      (snd (turn_to cfg env b pos delay_ms check_weight
                              want_stable enable_abortcheck w))))
         <= scale_reads
              (events_since w
                 (snd (turn_to cfg env b pos delay_ms check_weight want_stable
                         enable_abortcheck w)))
         <= S (length (servo_writes
                         (events_since w
                            (snd (turn_to cfg env b pos delay_ms check_weight
                                    want_stable enable_abortcheck w))))))%nat).
Proof.
  intros pos d cw ws ab w Hno. split.
  - destruct (turn_to_terminates pos d cw ws ab w) as [[r s] [w' Hrun]].
    revert Hno Hrun. unfold turn_to, turn_to_with.
    destruct ((pos <? SERVO_MIN) || (pos >? SERVO_MAX)).
    { intros _ _. exists [], []. simpl. rewrite events_since_refl.
      split; [reflexivity|]. split; [constructor|]. left. eauto. }
    destruct (pos =? readMicroseconds w).
    { intros _ _. exists [], []. simpl. rewrite events_since_refl.
      split; [reflexivity|]. split; [constructor|]. left.
      split; [reflexivity|]. exists OK. auto. }
    intros Hno Hrun.
    destruct (turn_loop_passes _ _ _ _ _ _ _ park_up_quiet _ _ _ _ _ Hno)
      as [last_pass [full [Hev [Hfull Hlast]]]].
    exists last_pass, full. split; [exact Hev|]. split; [exact Hfull|].
    destruct Hlast as [[Hnil Hres] | Hin]; [left | right; exact Hin].
    split; [exact Hnil|]. rewrite Hrun in *. simpl in Hres.
    destruct (Hres r s eq_refl) as [-> ->].
    exists (if ws then WEIGHT_NOT_STABLE else OK).
    split; [reflexivity|]. destruct ws; auto.
  - revert Hno. unfold turn_to, turn_to_with.
    destruct ((pos <? SERVO_MIN) || (pos >? SERVO_MAX)).
    { simpl. rewrite events_since_refl. simpl. split; intros; lia. }
    destruct (pos =? readMicroseconds w).
    { simpl. rewrite events_since_refl. simpl. split; intros; lia. }
    apply turn_loop_once_per_step, park_up_quiet.
Qed.

(** ** How far the actuator is moved *)

Lemma turn_loop_distance (park : World -> World) (step pos d : Z)
    (cw ws ab : bool) :
  park_quiet cfg park ->
  step = 1 \/ step = -1 ->
  forall fuel i p2 p1 w,
    servo_us w = i - step -> (i - step) * step <= pos * step ->
    ~ abort_observed
        (events_since w
           (snd (turn_loop cfg env park fuel i step pos d cw ws ab p2 p1 w))) ->
    servo_us (snd (turn_loop cfg env park fuel i step pos d cw ws ab p2 p1 w))
    * step
    = servo_us w * step
      + Z.of_nat
          (length
             (servo_writes
                (events_since w
                   (snd (turn_loop cfg env park fuel i step pos d cw ws ab
                           p2 p1 w)))))
    /\ servo_us
         (snd (turn_loop cfg env park fuel i step pos d cw ws ab p2 p1 w))
       * step
       <= pos * step.
Proof.
  intros Hq Hstep fuel i p2 p1 w.
  apply (turn_loop_induction_ext park step pos d cw ws ab
           (fun i _ _ w res =>
              servo_us w = i - step -> (i - step) * step <= pos * step ->
              ~ abort_observed (events_since w (snd res)) ->
              servo_us (snd res) * step
              = servo_us w * step
                + Z.of_nat (length (servo_writes (events_since w (snd res))))
              /\ servo_us (snd res) * step <= pos * step));
    simpl; clear fuel i p2 p1 w.
  - intro w. apply Hq.
  - intros i _ _ w _ Hi Hle _. rewrite events_since_refl. simpl. lia.
  - intros i _ _ w _ Hi Hle _. rewrite events_since_refl. simpl. lia.
  - intros i p2 p1 w ret sw w' _ Hrun Hi Hle Hno.
    inversion Hrun; subst.
    + exfalso. apply Hno. rewrite events_parked by apply (proj1 (Hq _)).
      apply abort_observed_app. right.
      exists (check_aborted env (trace w)). simpl. auto.
    + rewrite events_read. simpl. rewrite servo_writes_check. simpl.
      rewrite servo_after_check. lia.
    + rewrite events_read. simpl. rewrite servo_writes_check. simpl.
      rewrite servo_after_check. lia.
    + rewrite events_read. simpl. rewrite servo_writes_check. simpl.
      rewrite servo_after_check. lia.
  - intros i p2 p1 w q2 q1 w' res Hc Hrun Hsplit IH Hi Hle Hno.
    rewrite Hsplit in *.
    assert (Hno' : ~ abort_observed (events_since w' (snd res)))
      by (intro Ha; apply Hno; apply abort_observed_app; now left).
    assert (Hw' : servo_us w' = i
                  /\ servo_writes (events_since w w') = [i]).
    { inversion Hrun; subst;
        rewrite ?events_moved, ?events_moved_read; simpl;
        rewrite servo_writes_check; auto. }
    destruct Hw' as [Hservo Hwrites].
    destruct IH as [IHd IHle]; auto; [lia | replace (i + step - step) with i by lia; exact Hc |].
    rewrite servo_writes_app, length_app, Hwrites. simpl.
    split; [|exact IHle].
    rewrite IHd, Hservo, Hi.
    destruct Hstep; subst step; lia.
Qed.

(** X5.  Unless an abort is observed, [turn_to] only moves the actuator
    toward the target and never past it: the number of positions commanded is
    the distance between the position at entry and the position at return,
    and that is at most the distance between the position at entry and the
    target. *)
Theorem turn_to_distance :
  forall (pos delay_ms : Z) (check_weight want_stable enable_abortcheck : bool)
         (w : World),
    ~ abort_observed
        (events_since w
           (snd (turn_to cfg env b pos delay_ms check_weight want_stable
                   enable_abortcheck w))) ->
    Z.of_nat
      (length
         (servo_writes
            (events_since w
               (snd (turn_to cfg env b pos delay_ms check_weight want_stable
                       enable_abortcheck w)))))
    = Z.abs
        (servo_us
           (snd (turn_to cfg env b pos delay_ms check_weight want_stable
                   enable_abortcheck w))
         - servo_us w)
    /\ (in_servo_range pos ->
        Z.abs
          (servo_us
             (snd (turn_to cfg env b pos delay_ms check_weight want_stable
                     enable_abortcheck w))
           - servo_us w)
        <= Z.abs (pos - servo_us w)).
Proof.
  intros pos d cw ws ab w. unfold turn_to, turn_to_with.
  destruct ((pos <? SERVO_MIN) || (pos >? SERVO_MAX)).
  { simpl. rewrite events_since_refl. simpl. intros _. split; intros; lia. }
  unfold readMicroseconds.
  destruct (pos =? servo_us w) eqn:Heq.
  { simpl. rewrite events_since_refl. simpl. intros _. split; intros; lia. }
  apply Z.eqb_neq in Heq. intro Hno.
  destruct (servo_us w <? pos) eqn:Hlt.
  - apply Z.ltb_lt in Hlt.
    destruct (turn_loop_distance (park_up cfg env b) 1 pos d cw ws ab
                park_up_quiet (or_introl eq_refl)
                (Z.to_nat (Z.abs (pos - servo_us w))) (servo_us w + 1)
                (-9999) (-9999) w
                ltac:(lia) ltac:(lia) Hno) as [Hd Hle].
    split; [|intros _]; lia.
  - apply Z.ltb_ge in Hlt.
    destruct (turn_loop_distance (park_up cfg env b) (-1) pos d cw ws ab
                park_up_quiet (or_intror eq_refl)
                (Z.to_nat (Z.abs (pos - servo_us w))) (servo_us w + -1)
                (-9999) (-9999) w
                ltac:(lia) ltac:(lia) Hno) as [Hd Hle].
    split; [|intros _]; lia.
Qed.

(** ** What comes back from the scale *)

Lemma turn_loop_would_block (step pos d : Z) (cw ws ab : bool)
    (s : option Z) :
  forall fuel i p2 p1 w,
    fst (turn_loop cfg env (park_up cfg env b) fuel i step pos d cw ws ab
           p2 p1 w)
    = Ret (ADS1231_WOULD_BLOCK, s) ->
    ab = true
    /\ In (EvAbortCheck ADS1231_WOULD_BLOCK)
          (events_since w
             (snd (turn_loop cfg env (park_up cfg env b) fuel i step pos d
                     cw ws ab p2 p1 w))).
Proof.
  intros fuel i p2 p1 w.
  apply (turn_loop_induction_ext (park_up cfg env b) step pos d cw ws ab
           (fun _ _ _ w res =>
              fst res = Ret (ADS1231_WOULD_BLOCK, s) ->
              ab = true
              /\ In (EvAbortCheck ADS1231_WOULD_BLOCK)
                    (events_since w (snd res))));
    simpl; clear fuel i p2 p1 w.
  - apply park_up_extends.
  - intros. destruct ws; discriminate.
  - intros. discriminate.
  - intros i p2 p1 w ret sw w' _ Hrun Heq.
    inversion Heq; subst. inversion Hrun; subst; try congruence.
    split; [reflexivity|].
    rewrite events_parked by apply park_up_extends.
    apply in_or_app. right. now left.
  - intros i p2 p1 w q2 q1 w' res _ Hrun Hsplit IH Heq.
    destruct (IH Heq) as [Hab Hin]. split; [exact Hab|].
    rewrite Hsplit. apply in_or_app. now left.
Qed.

(** X6.  ADS1231_WOULD_BLOCK from the scale is never passed on: if [turn_to]
    returns that code, it was the answer of an abort check, not of the
    scale.  With abort checking off, [turn_to] never returns it. *)
Theorem turn_to_would_block_absorbed :
  forall (pos delay_ms : Z) (check_weight want_stable enable_abortcheck : bool)
         (w : World) (s : option Z),
    fst (turn_to cfg env b pos delay_ms check_weight want_stable
           enable_abortcheck w)
    = Ret (ADS1231_WOULD_BLOCK, s) ->
    enable_abortcheck = true
    /\ In (EvAbortCheck ADS1231_WOULD_BLOCK)
          (events_since w
             (snd (turn_to cfg env b pos delay_ms check_weight want_stable
                     enable_abortcheck w))).
Proof.
  intros pos d cw ws ab w s. unfold turn_to, turn_to_with.
  destruct ((pos <? SERVO_MIN) || (pos >? SERVO_MAX)); [discriminate|].
  destruct (pos =? readMicroseconds w); [discriminate|].
  apply turn_loop_would_block.
Qed.

(** A failed reading inside one pass: the pass returns its code. *)
Lemma body_run_scale_error (park : World -> World) (i d : Z) (cw ws ab : bool)
    (p2 p1 : Z) (w : World) (r : step_result) (w' : World)
    (e : errv_t) (x : Z) :
  park_quiet cfg park ->
  body_run cfg env park i d cw ws ab p2 p1 w r w' ->
  e <> OK -> e <> ADS1231_WOULD_BLOCK ->
  In (EvNoblock e x) (events_since w w') ->
  r = Exit e None
  /\ events_since w w' = EvNoblock e x :: check_events ab.
Proof.
  intros Hq Hrun He Hwb Hin.
  assert (Hchk : ~ In (EvNoblock e x) (check_events ab))
    by (destruct ab; simpl; intuition discriminate).
  inversion Hrun; subst;
    rewrite ?events_moved, ?events_moved_read, ?events_read in *;
    simpl in Hin.
  - exfalso. rewrite events_parked in Hin by apply Hq.
    apply in_app_or in Hin. destruct Hin as [Hin | [Hin | []]];
      [|discriminate].
    eapply park_event_no_read; [apply Hq | exact Hin].
  - exfalso. destruct Hin as [Hin | [Hin | Hin]]; try discriminate; auto.
  - exfalso. destruct Hin as [Hin | [Hin | [Hin | Hin]]];
      try discriminate; auto. inversion Hin. congruence.
  - destruct Hin as [Hin | Hin]; [|contradiction]. inversion Hin. auto.
  - exfalso. destruct Hin as [Hin | Hin]; [|auto]. inversion Hin. congruence.
  - exfalso. destruct Hin as [Hin | Hin]; [|auto]. inversion Hin. congruence.
  - exfalso. destruct Hin as [Hin | [Hin | [Hin | Hin]]];
      try discriminate; auto. inversion Hin. congruence.
  - exfalso. destruct Hin as [Hin | [Hin | [Hin | Hin]]];
      try discriminate; auto. inversion Hin. congruence.
Qed.

Lemma turn_loop_scale_error (step pos d : Z) (cw ws ab : bool)
    (e : errv_t) (x : Z) :
  e <> OK -> e <> ADS1231_WOULD_BLOCK ->
  forall fuel i p2 p1 w,
    In (EvNoblock e x)
       (events_since w
          (snd (turn_loop cfg env (park_up cfg env b) fuel i step pos d
                  cw ws ab p2 p1 w))) ->
    fst (turn_loop cfg env (park_up cfg env b) fuel i step pos d cw ws ab
           p2 p1 w)
    = Ret (e, None)
    /\ exists before : list Event,
         events_since w
           (snd (turn_loop cfg env (park_up cfg env b) fuel i step pos d
                   cw ws ab p2 p1 w))
         = EvNoblock e x :: before.
Proof.
  intros He Hwb fuel i p2 p1 w.
  apply (turn_loop_induction_ext (park_up cfg env b) step pos d cw ws ab
           (fun _ _ _ w res =>
              In (EvNoblock e x) (events_since w (snd res)) ->
              fst res = Ret (e, None)
              /\ exists before,
                   events_since w (snd res) = EvNoblock e x :: before));
    simpl; clear fuel i p2 p1 w.
  - apply park_up_extends.
  - intros i _ _ w _ Hin. rewrite events_since_refl in Hin. destruct Hin.
  - intros i _ _ w _ Hin. rewrite events_since_refl in Hin. destruct Hin.
  - intros i p2 p1 w ret sw w' _ Hrun Hin.
    destruct (body_run_scale_error _ _ _ _ _ _ _ _ _ _ _ _ _
                park_up_quiet Hrun He Hwb Hin) as [Hr Hev].
    inversion Hr; subst. split; eauto.
  - intros i p2 p1 w q2 q1 w' res _ Hrun Hsplit IH Hin.
    rewrite Hsplit in *. apply in_app_or in Hin. destruct Hin as [Hin | Hin].
    + destruct (IH Hin) as [Hr [before Hev]].
      split; auto. rewrite Hev. simpl. eauto.
    + destruct (body_run_scale_error _ _ _ _ _ _ _ _ _ _ _ _ _
                  park_up_quiet Hrun He Hwb Hin) as [Hr _]. discriminate.
Qed.

(** X7.  A failure of the scale ends the turn: when a non-blocking reading
    comes back with a code other than 0 and ADS1231_WOULD_BLOCK, [turn_to]
    returns that code at once, writes no stabilized weight, and commands
    nothing after the reading. *)
Theorem turn_to_scale_error :
  forall (pos delay_ms : Z) (check_weight want_stable enable_abortcheck : bool)
         (w : World) (e : errv_t) (x : Z),
    e <> OK -> e <> ADS1231_WOULD_BLOCK ->
    In (EvNoblock e x)
       (events_since w
          (snd (turn_to cfg env b pos delay_ms check_weight want_stable
                  enable_abortcheck w))) ->
    fst (turn_to cfg env b pos delay_ms check_weight want_stable
           enable_abortcheck w)
    = Ret (e, None)
    /\ exists before : list Event,
         events_since w
           (snd (turn_to cfg env b pos delay_ms check_weight want_stable
                   enable_abortcheck w))
         = EvNoblock e x :: before.
Proof.
  intros pos d cw ws ab w e x He Hwb. unfold turn_to, turn_to_with.
  destruct ((pos <? SERVO_MIN) || (pos >? SERVO_MAX)).
  { simpl. rewrite events_since_refl. intros []. }
  destruct (pos =? readMicroseconds w).
  { simpl. rewrite events_since_refl. intros []. }
  now apply turn_loop_scale_error.
Qed.

(** ** The stabilized weight *)

(** X8.  Whatever the options, [turn_to] writes a stabilized weight only
    when stabilization was asked for and only together with code 0; the
    weight written is the newest valid sample of the call, and with
    [check_weight] it is at least WEIGHT_EPSILON. *)
Theorem turn_to_stable_weight :
  forall (pos delay_ms : Z) (check_weight want_stable enable_abortcheck : bool)
         (w : World) (r : errv_t) (v : Z),
    fst (turn_to cfg env b pos delay_ms check_weight want_stable
           enable_abortcheck w)
    = Ret (r, Some v) ->
    r = OK /\ want_stable = true
    /\ (check_weight = true -> WEIGHT_EPSILON cfg <= v)
    /\ exists older : list Z,
         recent_samples
           (events_since w
              (snd (turn_to cfg env b pos delay_ms check_weight want_stable
                      enable_abortcheck w)))
         = v :: older.
Proof.
  intros pos d cw ws ab w r v Hrun.
  destruct ws.
  2:{ destruct (turn_to cfg env b pos d cw false ab w) as [o w'] eqn:Hcall.
      simpl in Hrun. subst o.
      apply turn_to_no_stable in Hcall. discriminate. }
  revert Hrun. unfold turn_to, turn_to_with.
  destruct ((pos <? SERVO_MIN) || (pos >? SERVO_MAX)); [discriminate|].
  destruct (pos =? readMicroseconds w); [discriminate|].
  intro Hrun.
  assert (Hr : r = OK) by (eapply turn_loop_stable_ok; exact Hrun).
  subst r.
  apply turn_loop_stable_iff in Hrun; [|apply park_up_quiet].
  destruct Hrun as [Hne [[older Hthree] Heps]].
  repeat split; auto.
  destruct (recent_samples _) as [|s0 rest]; [congruence|].
  simpl in Hthree. inversion Hthree; subst. eauto.
Qed.

(** ** Reaching the target *)

(** X9.  A call without request for stabilization that returns 0 was given a
    target inside the valid range and leaves the actuator exactly there;
    any call for the same target made next returns 0 without doing
    anything. *)
Theorem turn_to_reached_then_noop :
  forall (pos delay_ms : Z) (check_weight enable_abortcheck : bool)
         (w : World) (s : option Z) (w' : World),
    turn_to cfg env b pos delay_ms check_weight false enable_abortcheck w
    = (Ret (OK, s), w') ->
    s = None /\ servo_us w' = pos /\ in_servo_range pos
    /\ forall (delay_ms' : Z) (check_weight' want_stable' ab' : bool),
         turn_to cfg env b pos delay_ms' check_weight' want_stable' ab' w'
         = (Ret (OK, None), w').
Proof.
  intros pos d cw ab w s w' Hrun.
  destruct (turn_to_reaches _ _ _ _ _ _ _ Hrun) as [-> Hservo].
  assert (Hrange : in_servo_range pos).
  { apply range_check_false. revert Hrun. unfold turn_to, turn_to_with.
    destruct ((pos <? SERVO_MIN) || (pos >? SERVO_MAX));
      [discriminate | reflexivity]. }
  repeat split; auto; try apply Hrange.
  intros d' cw' ws' ab'. unfold turn_to, turn_to_with, readMicroseconds.
  apply range_check_false in Hrange. rewrite Hrange, Hservo, Z.eqb_refl.
  reflexivity.
Qed.

(** ** Turning up *)

(** Without weight check and stabilization the loop ends at its target, or
    where the abort action left the bottle. *)
Lemma turn_loop_ends_parked (park : World -> World) (step pos d : Z)
    (ab : bool) :
  park_quiet cfg park ->
  step = 1 \/ step = -1 ->
  (forall w0, servo_us (park w0) = pos) ->
  forall fuel i p2 p1 w,
    servo_us w = i - step -> (i - step) * step <= pos * step ->
    forall r w',
      turn_loop cfg env park fuel i step pos d false false ab p2 p1 w
      = (Ret r, w') ->
      servo_us w' = pos
      /\ snd r = None
      /\ (fst r = OK
          \/ (ab = true /\ fst r <> OK
              /\ In (EvAbortCheck (fst r)) (events_since w w'))).
Proof.
  intros Hq Hstep Hpark fuel i p2 p1 w.
  apply (turn_loop_induction_ext park step pos d false false ab
           (fun i _ _ w res =>
              servo_us w = i - step -> (i - step) * step <= pos * step ->
              forall r w', res = (Ret r, w') ->
                servo_us w' = pos
                /\ snd r = None
                /\ (fst r = OK
                    \/ (ab = true /\ fst r <> OK
                        /\ In (EvAbortCheck (fst r)) (events_since w w')))));
    simpl; clear fuel i p2 p1 w.
  - intro w. apply Hq.
  - intros i _ _ w Hc Hi Hle r w' Heq. inversion Heq; subst. simpl.
    repeat split; auto. destruct Hstep; subst step; lia.
  - intros. discriminate.
  - intros i p2 p1 w ret sw w' Hc Hrun Hi Hle r w'' Heq.
    inversion Heq; subst. inversion Hrun; subst; try discriminate.
    simpl. repeat split; auto. right. repeat split; auto.
    rewrite events_parked by apply Hq.
    apply in_or_app. right. now left.
  - intros i p2 p1 w q2 q1 w' res Hc Hrun Hsplit IH Hi Hle r w'' Heq.
    subst res. simpl in Hsplit.
    assert (Hservo : servo_us w' = i + step - step).
    { inversion Hrun; subst; try discriminate. simpl. lia. }
    destruct (IH Hservo ltac:(lia) r w'' eq_refl) as [Hend [Hnone Hcode]].
    repeat split; auto.
    destruct Hcode as [Hok | [Hab [Hne Hin]]]; [now left | right].
    repeat split; auto. rewrite Hsplit. apply in_or_app. now left.
Qed.

(** X10.  When [pos_up] is a valid position, [turn_up] always returns and
    always leaves the bottle upright, also when it is aborted; it never reads
    the scale and writes no weight, and its code is 0 or the non-zero answer
    of an abort check it made. *)
Theorem turn_up_ends_upright :
  in_servo_range (pos_up b) ->
  forall (delay_ms : Z) (enable_abortcheck : bool) (w : World),
    exists r : errv_t,
      fst (turn_up cfg env b delay_ms enable_abortcheck w) = Ret (r, None)
      /\ servo_us (snd (turn_up cfg env b delay_ms enable_abortcheck w))
         = pos_up b
      /\ scale_reads
           (events_since w
              (snd (turn_up cfg env b delay_ms enable_abortcheck w)))
         = 0%nat
      /\ (r = OK
          \/ (enable_abortcheck = true /\ r <> OK
              /\ In (EvAbortCheck r)
                   (events_since w
                      (snd (turn_up cfg env b delay_ms enable_abortcheck
                              w))))).
Proof.
  intros Hup d ab w. unfold turn_up.
  assert (Hreads :
            scale_reads
              (events_since w
                 (snd (turn_to cfg env b (pos_up b) d false false ab w)))
            = 0%nat).
  { unfold turn_to, turn_to_with.
    destruct ((pos_up b <? SERVO_MIN) || (pos_up b >? SERVO_MAX)).
    { simpl. now rewrite events_since_refl. }
    destruct (pos_up b =? readMicroseconds w).
    { simpl. now rewrite events_since_refl. }
    apply turn_loop_switched_off; [apply park_up_quiet | reflexivity]. }
  destruct (turn_to_terminates (pos_up b) d false false ab w)
    as [[r s] [w' Hrun]].
  rewrite Hrun in *. cbn [fst snd] in *.
  assert (Hpark : forall w0, servo_us (park_up cfg env b w0) = pos_up b)
    by (intro; now apply park_up_reaches).
  unfold turn_to, turn_to_with, readMicroseconds in Hrun.
  apply range_check_false in Hup. rewrite Hup in Hrun.
  destruct (pos_up b =? servo_us w) eqn:Heq.
  { apply Z.eqb_eq in Heq. inversion Hrun; subst.
    exists OK. repeat split; auto. }
  apply Z.eqb_neq in Heq.
  assert (Hend : servo_us w' = pos_up b
                 /\ snd (r, s) = None
                 /\ (fst (r, s) = OK
                     \/ (ab = true /\ fst (r, s) <> OK
                         /\ In (EvAbortCheck (fst (r, s)))
                              (events_since w w')))).
  { destruct (servo_us w <? pos_up b) eqn:Hlt;
      [apply Z.ltb_lt in Hlt | apply Z.ltb_ge in Hlt];
      (eapply turn_loop_ends_parked;
       [apply park_up_quiet | | exact Hpark | | | exact Hrun]);
      auto; lia. }
  cbn [fst snd] in Hend. destruct Hend as [Hservo [-> Hcode]].
  exists r. repeat split; auto.
Qed.

(** ** The pause position *)

(** X11.  The pause position lies between [pos_up] and [pos_down], and so
    does the position just below it that [pour] turns to while it takes the
    weight before pouring; for a bottle whose two end positions are valid
    both are valid targets of [turn_to]. *)
Theorem get_pause_pos_between :
  Z.min (pos_up b) (pos_down b) <= get_pause_pos b
    <= Z.max (pos_up b) (pos_down b)
  /\ Z.min (pos_up b) (pos_down b) <= (pos_down b + get_pause_pos b) ÷ 2
       <= Z.max (pos_up b) (pos_down b)
  /\ (in_servo_range (pos_up b) -> in_servo_range (pos_down b) ->
      in_servo_range (get_pause_pos b)
      /\ in_servo_range ((pos_down b + get_pause_pos b) ÷ 2))
  /\ (pos_up b < pos_down b ->
      get_pause_pos b <= (pos_down b + get_pause_pos b) ÷ 2 <= pos_down b).
Proof.
  unfold get_pause_pos, in_servo_range.
  Z.to_euclidean_division_equations. lia.
Qed.

(** * Further properties of pour *)

(** ** The attempt to pour *)

Lemma recent_samples_In (evs : list Event) (v : Z) :
  In v (recent_samples evs) -> In (EvNoblock OK v) evs.
Proof.
  induction evs as [|ev evs IH]; simpl; [auto|].
  destruct ev as [| | | e x | | | | | | | |]; auto.
  destruct e; simpl; auto.
  intros [-> | Hin]; [now left | right; auto].
Qed.

(** A move with [check_weight] that returns 0 saw the cup at every valid
    reading. *)
Lemma turn_to_ok_samples (pos d : Z) (ws ab : bool) (w : World)
    (s : option Z) (w' : World) :
  turn_to cfg env b pos d true ws ab w = (Ret (OK, s), w') ->
  Forall (fun v => WEIGHT_EPSILON cfg <= v)
    (recent_samples (events_since w w')).
Proof.
  intro Hrun. apply Forall_forall. intros v Hin.
  apply recent_samples_In in Hin.
  destruct (Z.le_gt_cases (WEIGHT_EPSILON cfg) v) as [Hle | Hlt]; [exact Hle|].
  exfalso. revert Hrun Hin. unfold turn_to, turn_to_with.
  destruct ((pos <? SERVO_MIN) || (pos >? SERVO_MAX)); [discriminate|].
  destruct (pos =? readMicroseconds w).
  { intro H. inversion H; subst. rewrite events_since_refl. intros []. }
  intros Hrun Hin.
  replace w' with
    (snd (turn_loop cfg env (park_up cfg env b)
            (Z.to_nat (Z.abs (pos - readMicroseconds w)))
            (readMicroseconds w + (if readMicroseconds w <? pos then 1 else -1))
            (if readMicroseconds w <? pos then 1 else -1) pos d true ws ab
            (-9999) (-9999) w)) in Hin by now rewrite Hrun.
  apply turn_loop_cup_missing in Hin; [|apply park_up_quiet | exact Hlt].
  destruct Hin as [Hfst _]. rewrite Hrun in Hfst. discriminate.
Qed.

(** X12.  [pour] calls [delay_until] only in one situation: [turn_down] has
    just returned 0, so the bottle stands at [pos_down] and every valid
    reading taken on the way down showed at least WEIGHT_EPSILON; the wait
    is for [orig_weight + requested_amount - UPGRIGHT_OFFSET] with timeout
    POURING_TIMEOUT, it is the last step of the attempt, and its code is the
    result of the attempt. *)
Theorem pour_attempt_waits_down :
  forall (requested_amount orig_weight : Z) (w : World) (r : errv_t)
         (w' : World),
    pour_attempt cfg env b requested_amount orig_weight w = (Ret r, w') ->
    forall (t x : Z) (f : bool) (r' : errv_t),
      In (EvDelayUntil t x f r') (events_since w w') ->
      exists w1 : World,
        turn_down cfg env b (TURN_DOWN_DELAY cfg) true
          (log (EvMsgPouring (number b) orig_weight) w)
        = (Ret (OK, None), w1)
        /\ servo_us w1 = pos_down b
        /\ Forall (fun v => WEIGHT_EPSILON cfg <= v)
             (recent_samples (events_since w w1))
        /\ r = delay_until env (trace w1) (POURING_TIMEOUT cfg)
                 (orig_weight + requested_amount - UPGRIGHT_OFFSET cfg) true
        /\ w' = log (EvDelayUntil (POURING_TIMEOUT cfg)
                       (orig_weight + requested_amount - UPGRIGHT_OFFSET cfg)
                       true r) w1
        /\ servo_us w' = pos_down b.
Proof.
  intros req ow w r w'. unfold pour_attempt.
  unfold bind at 1, emit at 1. unfold code_of. unfold bind at 1 2.
  destruct (turn_down cfg env b (TURN_DOWN_DELAY cfg) true
              (log (EvMsgPouring (number b) ow) w))
    as [[[rt s]|] w1] eqn:Hdown; [|discriminate].
  unfold pure at 1. cbn [fst].
  assert (Hext : extends (log (EvMsgPouring (number b) ow) w) w1).
  { pose proof (turn_to_extends (pos_down b) (TURN_DOWN_DELAY cfg) true false
                  (default_enable_abortcheck cfg)
                  (log (EvMsgPouring (number b) ow) w)) as H.
    unfold turn_down in Hdown. now rewrite Hdown in H. }
  assert (Hsplit : events_since w w1
                   = events_since (log (EvMsgPouring (number b) ow) w) w1
                     ++ [EvMsgPouring (number b) ow]).
  { rewrite (events_since_trans w (log (EvMsgPouring (number b) ow) w));
      [|apply extends_log | exact Hext].
    f_equal. now apply events_since_app. }
  destruct (errv_eqb rt OK) eqn:Hok.
  - apply errv_eqb_eq in Hok. subst rt.
    unfold ask. intro H. inversion H; subst. clear H.
    intros t x f r' _. exists w1.
    unfold turn_down in Hdown.
    destruct (turn_to_reaches _ _ _ _ _ _ _ Hdown) as [-> Hservo].
    repeat split; auto.
    rewrite Hsplit, recent_samples_app. simpl. rewrite app_nil_r.
    eapply turn_to_ok_samples. exact Hdown.
  - unfold pure. intro H. inversion H; subst. clear H.
    intros t x f r' Hin. exfalso.
    rewrite Hsplit in Hin. apply in_app_or in Hin.
    destruct Hin as [Hin | [Hin | []]]; [|discriminate].
    pose proof (turn_to_emits (pos_down b) (TURN_DOWN_DELAY cfg) true false
                  (default_enable_abortcheck cfg)
                  (log (EvMsgPouring (number b) ow) w)) as [_ Hall].
    unfold turn_down in Hdown. rewrite Hdown in Hall. simpl in Hall.
    rewrite Forall_forall in Hall. exact (Hall _ Hin).
Qed.

(** ** The cup is taken away while pouring *)

(** X13.  A pass of the pouring loop whose attempt ended in
    WHERE_THE_FUCK_IS_THE_CUP goes on like this: the ERROR message, without
    a bottle number, is sent; the bottle is turned toward the pause position
    with FAST_TURN_UP_DELAY (a non-zero code of that move is returned at
    once); after the move the actuator stands at the pause position and
    [wait_for_cup] is called; a non-zero code of it is returned; otherwise
    the display line is cleared and the loop runs its next pass with the
    weight before pouring it had. *)
Theorem pour_cup_removed :
  forall (fuel : nat) (requested_amount orig_weight : Z) (w w1 : World),
    pour_attempt cfg env b requested_amount orig_weight w
    = (Ret WHERE_THE_FUCK_IS_THE_CUP, w1) ->
    forall (r : errv_t) (s : option Z) (w3 : World),
      turn_to_pause_pos cfg env b (FAST_TURN_UP_DELAY cfg)
        (log (EvError WHERE_THE_FUCK_IS_THE_CUP None) w1)
      = (Ret (r, s), w3) ->
      (r <> OK ->
       pouring_loop cfg env b (S fuel) requested_amount orig_weight w
       = (Ret (PourFailed r), w3))
      /\
      (r = OK ->
       servo_us w3 = get_pause_pos b
       /\ (wait_for_cup env (trace w3) <> OK ->
           pouring_loop cfg env b (S fuel) requested_amount orig_weight w
           = (Ret (PourFailed (wait_for_cup env (trace w3))),
              log (EvWaitForCup (wait_for_cup env (trace w3))) w3))
       /\ (wait_for_cup env (trace w3) = OK ->
           pouring_loop cfg env b (S fuel) requested_amount orig_weight w
           = pouring_loop cfg env b fuel requested_amount orig_weight
               (log (EvPrintLcd 2) (log (EvWaitForCup OK) w3)))).
Proof.
  intros fuel req ow w w1 Hattempt r s w3 Hmove.
  assert (Hloop :
            pouring_loop cfg env b (S fuel) req ow w
            = if nonzero r then (Ret (PourFailed r), w3)
              else if nonzero (wait_for_cup env (trace w3)) then
                (Ret (PourFailed (wait_for_cup env (trace w3))),
                 log (EvWaitForCup (wait_for_cup env (trace w3))) w3)
              else
                pouring_loop cfg env b fuel req ow
                  (log (EvPrintLcd 2)
                     (log (EvWaitForCup (wait_for_cup env (trace w3)))
                        w3))).
  { simpl. unfold bind at 1. rewrite Hattempt.
    unfold pour_recover. simpl.
    unfold bind at 1, emit at 1.
    unfold RETURN_IFN_0 at 1, code_of. unfold bind at 1 2.
    rewrite Hmove. unfold pure at 1. cbn [fst].
    destruct (nonzero r); [reflexivity|].
    unfold RETURN_IFN_0, bind, ask, emit.
    destruct (nonzero (wait_for_cup env (trace w3))); reflexivity. }
  split.
  - intro Hr. apply nonzero_true in Hr. now rewrite Hloop, Hr.
  - intros ->. change (nonzero OK) with false in Hloop. cbv iota in Hloop.
    unfold turn_to_pause_pos in Hmove.
    destruct (turn_to_reaches _ _ _ _ _ _ _ Hmove) as [_ Hservo].
    split; [exact Hservo|]. split.
    + intro Hr2. apply nonzero_true in Hr2. now rewrite Hloop, Hr2.
    + intro Hr2. rewrite Hloop, Hr2. reflexivity.
Qed.

(** ** Any other error *)

(** X14.  When the attempt of the first pass ends in a code other than 0,
    BOTTLE_EMPTY and WHERE_THE_FUCK_IS_THE_CUP, [pour] returns that code at
    once: nothing is done after the attempt (no message, no move: the bottle
    is not turned up here) and [measured_amount] keeps its value. *)
Theorem pour_other_error :
  forall (fuel : nat) (requested_amount measured_amount orig_weight : Z)
         (w w0 w1 : World) (r : errv_t),
    measure_baseline cfg env b (S fuel) 0 w = (Ret (CupThere orig_weight), w0) ->
    pour_attempt cfg env b requested_amount orig_weight w0 = (Ret r, w1) ->
    r <> OK -> r <> BOTTLE_EMPTY -> r <> WHERE_THE_FUCK_IS_THE_CUP ->
    pour cfg env b (S fuel) requested_amount measured_amount w
    = (Ret (r, measured_amount), w1).
Proof.
  intros fuel req m ow w w0 w1 r Hbase Hattempt Hok Hempty Hcup.
  unfold pour. unfold bind at 1. rewrite Hbase.
  unfold bind at 1.
  assert (Hloop : pouring_loop cfg env b (S fuel) req ow w0
                  = (Ret (PourFailed r), w1)).
  { simpl. unfold bind at 1. rewrite Hattempt. unfold pour_recover.
    apply errv_eqb_neq in Hok, Hempty, Hcup.
    now rewrite Hok, Hempty, Hcup. }
  now rewrite Hloop.
Qed.

(** ** The three parts of a pour *)

Lemma turn_event_baseline (ev : Event) : turn_event ev -> baseline_event ev.
Proof. destruct ev; simpl; auto. Qed.

Lemma turn_event_pouring (n req ow : Z) (ev : Event) :
  turn_event ev -> pouring_event cfg n req ow ev.
Proof. destruct ev; simpl; intros []; exact I. Qed.

Lemma baseline_sample_baseline (orig_weight : Z) :
  emits baseline_event (baseline_sample cfg env b orig_weight).
Proof.
  unfold baseline_sample. apply emits_bind.
  - eapply emits_weaken; [apply turn_event_baseline | apply turn_to_emits].
  - intro r. destruct (errv_eqb (fst r) WEIGHT_NOT_STABLE).
    + apply emits_ask. intro a. exact I.
    + apply emits_pure.
Qed.

Lemma measure_baseline_baseline (fuel : nat) :
  forall orig_weight,
    emits baseline_event (measure_baseline cfg env b fuel orig_weight).
Proof.
  induction fuel as [|fuel IH]; intro ow; simpl.
  - apply emits_out_of_fuel.
  - apply emits_bind; [apply baseline_sample_baseline|].
    intro r.
    destruct (nonzero (fst r) && negb (errv_eqb (fst r) WHERE_THE_FUCK_IS_THE_CUP));
      [apply emits_pure|].
    destruct (errv_eqb (fst r) WHERE_THE_FUCK_IS_THE_CUP
              || (snd r <? WEIGHT_EPSILON cfg)); [|apply emits_pure].
    apply emits_RETURN_IFN_0; [|apply IH].
    apply emits_ask. intro a. exact I.
Qed.

Lemma pour_attempt_pouring (requested_amount orig_weight : Z) :
  emits (pouring_event cfg (number b) requested_amount orig_weight)
    (pour_attempt cfg env b requested_amount orig_weight).
Proof.
  unfold pour_attempt. apply emits_bind.
  - apply emits_emit. simpl. auto.
  - intros _. apply emits_bind.
    + apply emits_code_of.
      eapply emits_weaken; [apply turn_event_pouring | apply turn_to_emits].
    + intro ret. destruct (errv_eqb ret OK); [|apply emits_pure].
      apply emits_ask. intro a. simpl. auto.
Qed.

Lemma pour_recover_pouring (requested_amount orig_weight : Z)
    (again : M pour_exit) (ret : errv_t) :
  emits (pouring_event cfg (number b) requested_amount orig_weight) again ->
  emits (pouring_event cfg (number b) requested_amount orig_weight)
    (pour_recover cfg env b again ret).
Proof.
  intro Hagain. unfold pour_recover.
  assert (Hmove : forall pos d cw ab,
             emits (pouring_event cfg (number b) requested_amount orig_weight)
               (code_of (turn_to cfg env b pos d cw false ab))).
  { intros. apply emits_code_of.
    eapply emits_weaken; [apply turn_event_pouring | apply turn_to_emits]. }
  assert (Hretry :
            emits (pouring_event cfg (number b) requested_amount orig_weight)
              (bind (emit (EvPrintLcd 2)) (fun _ => again))).
  { apply emits_bind; [apply emits_emit; reflexivity | auto]. }
  destruct (errv_eqb ret OK); [apply emits_pure|].
  destruct (errv_eqb ret BOTTLE_EMPTY).
  { apply emits_bind; [apply emits_emit; simpl; auto|]. intros _.
    apply emits_RETURN_IFN_0; [apply Hmove|].
    apply emits_RETURN_IFN_0; [|exact Hretry].
    apply emits_ask. intro a. exact I. }
  destruct (errv_eqb ret WHERE_THE_FUCK_IS_THE_CUP); [|apply emits_pure].
  apply emits_bind; [apply emits_emit; simpl; auto|]. intros _.
  apply emits_RETURN_IFN_0; [apply Hmove|].
  apply emits_RETURN_IFN_0; [|exact Hretry].
  apply emits_ask. intro a. exact I.
Qed.

Lemma pouring_loop_pouring (fuel : nat) (requested_amount orig_weight : Z) :
  emits (pouring_event cfg (number b) requested_amount orig_weight)
    (pouring_loop cfg env b fuel requested_amount orig_weight).
Proof.
  induction fuel as [|fuel IH]; simpl.
  - apply emits_out_of_fuel.
  - apply emits_bind; [apply pour_attempt_pouring|].
    intro ret. now apply pour_recover_pouring.
Qed.

(** What follows the pouring loop: the move to the pause position and one
    reading. *)
Lemma pour_closing (measured_amount orig_weight : Z) (w : World) :
  extends w
    (snd (RETURN_IFN_0 (code_of (turn_to_pause_pos cfg env b (TURN_UP_DELAY cfg)))
            (fun ret => (ret, measured_amount))
            (bind (ask (fun tr => ads1231_get_grams env tr measured_amount)
                     (fun a => EvGetGrams (fst a) (snd a)))
               (fun r => if nonzero (fst r) then pure (fst r, snd r)
                         else pure (OK, snd r - orig_weight))) w))
  /\ closing_events
       (events_since w
          (snd (RETURN_IFN_0
                  (code_of (turn_to_pause_pos cfg env b (TURN_UP_DELAY cfg)))
                  (fun ret => (ret, measured_amount))
                  (bind (ask (fun tr => ads1231_get_grams env tr measured_amount)
                           (fun a => EvGetGrams (fst a) (snd a)))
                     (fun r => if nonzero (fst r) then pure (fst r, snd r)
                               else pure (OK, snd r - orig_weight))) w))).
Proof.
  destruct (turn_to_emits (get_pause_pos b) (TURN_UP_DELAY cfg)
              (default_check_weight cfg) false (default_enable_abortcheck cfg) w)
    as [Hext Hall].
  unfold RETURN_IFN_0, code_of, turn_to_pause_pos, bind, ask, pure.
  destruct (turn_to cfg env b (get_pause_pos b) (TURN_UP_DELAY cfg)
              (default_check_weight cfg) false (default_enable_abortcheck cfg) w)
    as [[[r s]|] w3]; cbn [fst snd] in *.
  2:{ split; [exact Hext | now left]. }
  destruct (nonzero r).
  { cbn [fst snd]. split; [exact Hext | now left]. }
  assert (Hlog : forall ev, extends w (log ev w3)
                            /\ events_since w (log ev w3)
                               = ev :: events_since w w3).
  { intro ev.
    assert (H : extends w (log ev w3))
      by (eapply extends_trans; [exact Hext | apply extends_log]).
    split; [exact H|].
    rewrite (events_since_trans w w3 (log ev w3) Hext (extends_log ev w3)).
    now rewrite (events_since_app w3 (log ev w3) [ev]). }
  destruct (nonzero (fst (ads1231_get_grams env (trace w3) measured_amount)));
    cbn [fst snd];
    (split; [apply Hlog|]); right;
    rewrite (proj2 (Hlog _)); eauto.
Qed.

(** X15.  The history of a [pour], complete or cut off, has three parts.
    First the loop that takes the weight before pouring: steps of [turn_to],
    blocking stable readings and waits for the cup, with no message and no
    display output.  Then the pouring loop: all its POURING messages carry
    the number of the bottle and one and the same weight [ow], every
    [delay_until] waits for [ow + requested_amount - UPGRIGHT_OFFSET]
    (also after a refill or after the cup was put back), the only errors
    reported are BOTTLE_EMPTY with the bottle number and
    WHERE_THE_FUCK_IS_THE_CUP without, and the weight before pouring is not
    taken again.  Last the move to the pause position and at most one final
    reading, which is then the last thing done.  Unless nothing follows the
    first loop, [ow] is at least WEIGHT_EPSILON. *)
Theorem pour_events :
  forall (fuel : nat) (requested_amount measured_amount : Z) (w : World),
    exists (ow : Z) (base loop final : list Event),
      events_since w
        (snd (pour cfg env b fuel requested_amount measured_amount w))
      = final ++ loop ++ base
      /\ Forall baseline_event base
      /\ Forall (pouring_event cfg (number b) requested_amount ow) loop
      /\ closing_events final
      /\ (loop ++ final = [] \/ WEIGHT_EPSILON cfg <= ow).
Proof.
  intros fuel req m w. unfold pour. unfold bind at 1.
  destruct (measure_baseline_baseline fuel 0 w) as [Hext Hall].
  destruct (measure_baseline cfg env b fuel 0 w) as [[[ow|r]|] w1] eqn:Hbase;
    simpl in Hext, Hall.
  2:{ exists 0, (events_since w w1), [], []. simpl.
      repeat split; auto. now left. }
  2:{ exists 0, (events_since w w1), [], []. simpl.
      repeat split; auto. now left. }
  apply measure_baseline_cup in Hbase.
  unfold bind at 1.
  destruct (pouring_loop_pouring fuel req ow w1) as [Hext2 Hall2].
  destruct (pouring_loop cfg env b fuel req ow w1) as [[[|r]|] w2];
    simpl in Hext2, Hall2.
  2:{ exists ow, (events_since w w1), (events_since w1 w2), []. simpl.
      rewrite (events_since_trans w w1 w2) by auto.
      repeat split; auto. now left. }
  2:{ exists ow, (events_since w w1), (events_since w1 w2), []. simpl.
      rewrite (events_since_trans w w1 w2) by auto.
      repeat split; auto. now left. }
  destruct (pour_closing m ow w2) as [Hext3 Hall3].
  exists ow, (events_since w w1), (events_since w1 w2),
    (events_since w2
       (snd (RETURN_IFN_0
               (code_of (turn_to_pause_pos cfg env b (TURN_UP_DELAY cfg)))
               (fun ret => (ret, m))
               (bind (ask (fun tr => ads1231_get_grams env tr m)
                        (fun a => EvGetGrams (fst a) (snd a)))
                  (fun r => if nonzero (fst r) then pure (fst r, snd r)
                            else pure (OK, snd r - ow))) w2))).
  repeat split; auto.
  rewrite <- (events_since_trans w w1 w2) by auto.
  apply events_since_trans; [eapply extends_trans; eauto | exact Hext3].
Qed.

(** ** The amount on failure *)

(** X16.  When [pour] returns a non-zero code, [measured_amount] holds the
    value it had before the call, unless the failing step was the final
    [ads1231_get_grams]: then it holds what that function left in it, and
    the weight before pouring has not been subtracted. *)
Theorem pour_failure_measured_amount :
  forall (fuel : nat) (requested_amount measured_amount : Z) (w : World)
         (r : errv_t) (m' : Z) (w' : World),
    pour cfg env b fuel requested_amount measured_amount w
    = (Ret (r, m'), w') ->
    r <> OK ->
    m' = measured_amount
    \/ exists w3 : World,
         ads1231_get_grams env (trace w3) measured_amount = (r, m')
         /\ w' = log (EvGetGrams r m') w3.
Proof.
  intros fuel req m w r m' w'. unfold pour. unfold bind at 1.
  destruct (measure_baseline cfg env b fuel 0 w) as [[[ow|r0]|] w1];
    [| |discriminate].
  2:{ unfold pure. intros H _. inversion H. now left. }
  unfold bind at 1.
  destruct (pouring_loop cfg env b fuel req ow w1) as [[[|r1]|] w2];
    [| |discriminate].
  2:{ unfold pure. intros H _. inversion H. now left. }
  unfold RETURN_IFN_0, code_of. unfold bind at 1 2.
  destruct (turn_to_pause_pos cfg env b (TURN_UP_DELAY cfg) w2)
    as [[[r2 s]|] w3]; [|discriminate].
  unfold pure at 1. cbn [fst].
  destruct (nonzero r2).
  { unfold pure. intros H _. inversion H. now left. }
  unfold bind, ask.
  destruct (ads1231_get_grams env (trace w3) m) as [r4 g] eqn:Hgrams.
  cbn [fst snd].
  destruct (nonzero r4) eqn:Hr4; unfold pure; intros H Hr; inversion H; subst.
  - right. exists w3. auto.
  - congruence.
Qed.

(** ** A bottle that already stands below the pause position *)

(** X17.  When the bottle already stands at the position the first loop of
    [pour] turns to, and [orig_weight] is below WEIGHT_EPSILON (as it is at
    the start of [pour], and after a reading without the cup), that loop
    cannot end with [break]: [turn_to] returns 0 at once and writes no
    weight, so each pass only calls [wait_for_cup]; the scale is never read
    and the bottle never moves, until [wait_for_cup] returns a non-zero
    code. *)
Theorem measure_baseline_stalls :
  forall (fuel : nat) (orig_weight : Z) (w : World),
    servo_us w = (pos_down b + get_pause_pos b) ÷ 2 ->
    in_servo_range (servo_us w) ->
    orig_weight < WEIGHT_EPSILON cfg ->
    (forall ow : Z,
        fst (measure_baseline cfg env b fuel orig_weight w)
        <> Ret (CupThere ow))
    /\ Forall (fun ev => exists r : errv_t, ev = EvWaitForCup r)
         (events_since w (snd (measure_baseline cfg env b fuel orig_weight w)))
    /\ servo_us (snd (measure_baseline cfg env b fuel orig_weight w))
       = servo_us w.
Proof.
  induction fuel as [|fuel IH]; intros ow0 w Hservo Hrange How.
  { simpl. rewrite events_since_refl.
    repeat split; [discriminate | constructor]. }
  assert (Hsample : baseline_sample cfg env b ow0 w = (Ret (OK, ow0), w)).
  { unfold baseline_sample, bind, turn_to, turn_to_with, readMicroseconds.
    rewrite <- Hservo.
    apply range_check_false in Hrange. rewrite Hrange, Z.eqb_refl.
    reflexivity. }
  apply Z.ltb_lt in How as Hlt.
  cbn [measure_baseline]. unfold bind at 1 2 3. rewrite Hsample.
  cbn [fst snd]. rewrite Hlt.
  change (nonzero OK) with false.
  change (errv_eqb OK WHERE_THE_FUCK_IS_THE_CUP) with false.
  cbn [andb orb].
  unfold RETURN_IFN_0, bind, ask.
  destruct (nonzero (wait_for_cup env (trace w))).
  - unfold pure. cbn [fst snd].
    rewrite (events_since_app w _ [EvWaitForCup (wait_for_cup env (trace w))])
      by reflexivity.
    repeat split; [discriminate | repeat constructor; eauto].
  - specialize (IH ow0 (log (EvWaitForCup (wait_for_cup env (trace w))) w)
                  Hservo Hrange How).
    destruct IH as [Hno [Hall Hsame]].
    repeat split; auto.
    rewrite (events_since_trans w
               (log (EvWaitForCup (wait_for_cup env (trace w))) w)).
    + apply Forall_app. split; [exact Hall|].
      rewrite (events_since_app w _ [EvWaitForCup (wait_for_cup env (trace w))])
        by reflexivity.
      repeat constructor; eauto.
    + apply extends_log.
    + apply (measure_baseline_emits fuel ow0).
Qed.

(** ** Leaving the pouring loop *)

Lemma pour_recover_poured (again : M pour_exit) (ret : errv_t)
    (w w' : World) :
  pour_recover cfg env b again ret w = (Ret Poured, w') ->
  (ret = OK /\ w' = w) \/ exists w2 : World, again w2 = (Ret Poured, w').
Proof.
  unfold pour_recover.
  destruct (errv_eqb ret OK) eqn:Hok.
  { apply errv_eqb_eq in Hok. unfold pure. intro H. inversion H. now left. }
  assert (Hretry : forall (code ask_user : M errv_t) w0,
             RETURN_IFN_0 code PourFailed
               (RETURN_IFN_0 ask_user PourFailed
                  (bind (emit (EvPrintLcd 2)) (fun _ => again))) w0
             = (Ret Poured, w') ->
             exists w2, again w2 = (Ret Poured, w')).
  { intros code ask_user w0. unfold RETURN_IFN_0, bind.
    destruct (code w0) as [[r1|] w1]; [|discriminate].
    destruct (nonzero r1); [unfold pure; discriminate|].
    destruct (ask_user w1) as [[r2|] w2]; [|discriminate].
    destruct (nonzero r2); [unfold pure; discriminate|].
    unfold emit. eauto. }
  destruct (errv_eqb ret BOTTLE_EMPTY).
  { unfold bind at 1, emit at 1. intro H. right. eapply Hretry, H. }
  destruct (errv_eqb ret WHERE_THE_FUCK_IS_THE_CUP).
  { unfold bind at 1, emit at 1. intro H. right. eapply Hretry, H. }
  unfold pure. discriminate.
Qed.

(** X18.  The pouring loop is left by [break] only directly after a
    [delay_until] that returned 0: that call is the newest entry of the
    history, and the bottle still stands at [pos_down], which is where the
    closing move to the pause position starts. *)
Theorem pouring_loop_break :
  forall (fuel : nat) (requested_amount orig_weight : Z) (w w' : World),
    pouring_loop cfg env b fuel requested_amount orig_weight w
    = (Ret Poured, w') ->
    servo_us w' = pos_down b
    /\ exists w1 : World,
         w' = log (EvDelayUntil (POURING_TIMEOUT cfg)
                     (orig_weight + requested_amount - UPGRIGHT_OFFSET cfg)
                     true OK) w1
         /\ delay_until env (trace w1) (POURING_TIMEOUT cfg)
              (orig_weight + requested_amount - UPGRIGHT_OFFSET cfg) true
            = OK.
Proof.
  induction fuel as [|fuel IH]; intros req ow w w'; simpl; [discriminate|].
  unfold bind at 1.
  destruct (pour_attempt cfg env b req ow w) as [[ret|] w1] eqn:Hattempt;
    [|discriminate].
  intro Hrec. apply pour_recover_poured in Hrec.
  destruct Hrec as [[-> ->] | [w2 Hagain]]; [|eapply IH; eauto].
  revert Hattempt. unfold pour_attempt.
  unfold bind at 1, emit at 1. unfold code_of. unfold bind at 1 2.
  destruct (turn_down cfg env b (TURN_DOWN_DELAY cfg) true
              (log (EvMsgPouring (number b) ow) w))
    as [[[rt s]|] w0] eqn:Hdown; [|discriminate].
  unfold pure at 1. cbn [fst].
  destruct (errv_eqb rt OK) eqn:Hok.
  - apply errv_eqb_eq in Hok. subst rt. unfold ask.
    intro H. inversion H as [[Hr Hw]].
    unfold turn_down in Hdown.
    destruct (turn_to_reaches _ _ _ _ _ _ _ Hdown) as [_ Hservo].
    split; [exact Hservo|]. exists w0. rewrite Hr. auto.
  - apply errv_eqb_neq in Hok. unfold pure. intro H. inversion H. congruence.
Qed.

(** ** The bound on the number of passes *)

Lemma measure_baseline_more_fuel (fuel : nat) :
  forall (orig_weight : Z) (w : World) (x : baseline_result) (w' : World),
    measure_baseline cfg env b fuel orig_weight w = (Ret x, w') ->
    forall fuel', (fuel <= fuel')%nat ->
      measure_baseline cfg env b fuel' orig_weight w = (Ret x, w').
Proof.
  induction fuel as [|fuel IH]; intros ow w x w'; simpl; [discriminate|].
  intros Hrun [|fuel'] Hle; [lia|]. revert Hrun. simpl.
  unfold bind.
  destruct (baseline_sample cfg env b ow w) as [[[ret ow1]|] w1];
    [|discriminate].
  cbn [fst snd].
  destruct (nonzero ret && negb (errv_eqb ret WHERE_THE_FUCK_IS_THE_CUP));
    [auto|].
  destruct (errv_eqb ret WHERE_THE_FUCK_IS_THE_CUP || (ow1 <? WEIGHT_EPSILON cfg));
    [|auto].
  unfold RETURN_IFN_0, bind, ask.
  destruct (nonzero (wait_for_cup env (trace w1))); [auto|].
  intro Hrun. eapply IH; [exact Hrun | lia].
Qed.

Lemma pour_recover_more (again again' : M pour_exit) (ret : errv_t) :
  (forall w x w', again w = (Ret x, w') -> again' w = (Ret x, w')) ->
  forall w x w',
    pour_recover cfg env b again ret w = (Ret x, w') ->
    pour_recover cfg env b again' ret w = (Ret x, w').
Proof.
  intros Hmore w x w'. unfold pour_recover.
  assert (Hretry : forall (code ask_user : M errv_t) w0,
             RETURN_IFN_0 code PourFailed
               (RETURN_IFN_0 ask_user PourFailed
                  (bind (emit (EvPrintLcd 2)) (fun _ => again))) w0
             = (Ret x, w') ->
             RETURN_IFN_0 code PourFailed
               (RETURN_IFN_0 ask_user PourFailed
                  (bind (emit (EvPrintLcd 2)) (fun _ => again'))) w0
             = (Ret x, w')).
  { intros code ask_user w0. unfold RETURN_IFN_0, bind.
    destruct (code w0) as [[r1|] w1]; [|discriminate].
    destruct (nonzero r1); [auto|].
    destruct (ask_user w1) as [[r2|] w2]; [|discriminate].
    destruct (nonzero r2); [auto|].
    unfold emit. apply Hmore. }
  destruct (errv_eqb ret OK); [auto|].
  destruct (errv_eqb ret BOTTLE_EMPTY).
  { unfold bind at 1 4, emit at 1 3. apply Hretry. }
  destruct (errv_eqb ret WHERE_THE_FUCK_IS_THE_CUP); [|auto].
  unfold bind at 1 4, emit at 1 3. apply Hretry.
Qed.

Lemma pouring_loop_more_fuel (fuel : nat) (requested_amount orig_weight : Z) :
  forall (w : World) (x : pour_exit) (w' : World),
    pouring_loop cfg env b fuel requested_amount orig_weight w = (Ret x, w') ->
    forall fuel', (fuel <= fuel')%nat ->
      pouring_loop cfg env b fuel' requested_amount orig_weight w
      = (Ret x, w').
Proof.
  induction fuel as [|fuel IH]; intros w x w'; simpl; [discriminate|].
  intros Hrun [|fuel'] Hle; [lia|]. revert Hrun. simpl.
  unfold bind at 1 2.
  destruct (pour_attempt cfg env b requested_amount orig_weight w)
    as [[ret|] w1]; [|discriminate].
  apply pour_recover_more.
  intros w0 x0 w0' Hagain. eapply IH; [exact Hagain | lia].
Qed.

(** The bound on the number of passes that the two [while(1)] loops of [pour]
    are followed for only decides whether a run is followed to its end: a run
    that returns within some bound returns the same within any larger
    bound. *)
Lemma pour_more_fuel :
  forall (fuel fuel' : nat) (requested_amount measured_amount : Z)
         (w : World) (x : errv_t * Z) (w' : World),
    pour cfg env b fuel requested_amount measured_amount w = (Ret x, w') ->
    (fuel <= fuel')%nat ->
    pour cfg env b fuel' requested_amount measured_amount w = (Ret x, w').
Proof.
  intros fuel fuel' req m w x w' Hrun Hle. unfold pour in *.
  unfold bind at 1 in Hrun. unfold bind at 1.
  destruct (measure_baseline cfg env b fuel 0 w) as [[bl|] w1] eqn:Hbase;
    [|discriminate].
  rewrite (measure_baseline_more_fuel _ _ _ _ _ Hbase fuel' Hle).
  destruct bl as [ow|r]; [|exact Hrun].
  unfold bind at 1 in Hrun. unfold bind at 1.
  destruct (pouring_loop cfg env b fuel req ow w1) as [[ex|] w2] eqn:Hloop;
    [|discriminate].
  now rewrite (pouring_loop_more_fuel _ _ _ _ _ _ Hloop fuel' Hle).
Qed.

(** * Bottle::init *)

Lemma attach_and_write_length (i : nat) (pin_nr us : Z) :
  forall l, length (attach_and_write i pin_nr us l) = length l.
Proof.
  induction i as [|i IH]; intros [|s l]; simpl; auto.
Qed.

Lemma attach_and_write_same (i : nat) (pin_nr us : Z) :
  forall l, (i < length l)%nat ->
    nth_error (attach_and_write i pin_nr us l) i
    = Some {| attached := Some pin_nr; pulse := us |}.
Proof.
  induction i as [|i IH]; intros [|s l] Hlt; simpl in *; try lia; auto.
  apply IH. lia.
Qed.

Lemma attach_and_write_other (i j : nat) (pin_nr us : Z) :
  i <> j ->
  forall l, nth_error (attach_and_write i pin_nr us l) j = nth_error l j.
Proof.
  revert j. induction i as [|i IH]; intros [|j] Hne [|s l]; simpl; auto;
    try congruence.
Qed.

Lemma init_loop_spec (bottles : list Bottle) :
  forall (n i : nat) (r : Rack),
    (i + n <= length bottles)%nat ->
    length (servos r) = length bottles ->
    length (servos (init_loop n i bottles r)) = length bottles
    /\ waited (init_loop n i bottles r) = waited r + 500 * Z.of_nat n
    /\ (forall (j : nat) (bt : Bottle),
          (i <= j < i + n)%nat -> nth_error bottles j = Some bt ->
          nth_error (servos (init_loop n i bottles r)) j
          = Some {| attached := Some (pin bt); pulse := pos_up bt |})
    /\ (forall j : nat,
          (j < i \/ i + n <= j)%nat ->
          nth_error (servos (init_loop n i bottles r)) j
          = nth_error (servos r) j).
Proof.
  induction n as [|n IH]; intros i r Hle Hlen; cbn [init_loop].
  - repeat split; auto; [lia | intros; lia].
  - destruct (nth_error bottles i) as [bt|] eqn:Hbt.
    2:{ apply nth_error_None in Hbt. lia. }
    specialize (IH (S i)
                  {| servos := attach_and_write i (pin bt) (pos_up bt) (servos r);
                     waited := waited r + 500 |}).
    cbn [servos waited] in IH. rewrite attach_and_write_length in IH.
    destruct (IH ltac:(lia) Hlen) as [Hl [Hw [Hset Hkeep]]].
    repeat split; auto.
    + rewrite Hw. lia.
    + intros j bt' Hj Hbt'.
      destruct (Nat.eq_dec j i) as [-> | Hne].
      * rewrite Hkeep by lia. rewrite attach_and_write_same by lia. congruence.
      * apply Hset; [lia | exact Hbt'].
    + intros j Hj. rewrite Hkeep by lia.
      apply attach_and_write_other. lia.
Qed.

(** X20.  [init] on an array of at least [bottles_nr] bottles attaches the
    servo of each of the first [bottles_nr] bottles to the pin of that bottle
    and tells it the bottle's [pos_up], whatever that value is (no range
    check is made here), waits 500 ms after each, and leaves the servos of
    the other bottles alone; with [bottles_nr <= 0] it does nothing. *)
Theorem init_attaches_upright :
  forall (bottles : list Bottle) (bottles_nr : Z) (r : Rack),
    bottles_nr <= Z.of_nat (length bottles) ->
    length (servos r) = length bottles ->
    waited (init bottles bottles_nr r) = waited r + 500 * Z.max 0 bottles_nr
    /\ length (servos (init bottles bottles_nr r)) = length bottles
    /\ (forall (i : nat) (bt : Bottle),
          Z.of_nat i < bottles_nr -> nth_error bottles i = Some bt ->
          nth_error (servos (init bottles bottles_nr r)) i
          = Some {| attached := Some (pin bt); pulse := pos_up bt |})
    /\ (forall i : nat,
          bottles_nr <= Z.of_nat i ->
          nth_error (servos (init bottles bottles_nr r)) i
          = nth_error (servos r) i)
    /\ (bottles_nr <= 0 -> init bottles bottles_nr r = r).
Proof.
  intros bottles n r Hle Hlen. unfold init.
  destruct (init_loop_spec bottles (Z.to_nat n) 0 r ltac:(lia) Hlen)
    as [Hl [Hw [Hset Hkeep]]].
  repeat split; auto.
  - rewrite Hw. lia.
  - intros i bt Hi Hbt. apply Hset; [lia | exact Hbt].
  - intros i Hi. apply Hkeep. lia.
  - intro Hn. replace (Z.to_nat n) with 0%nat by lia. reflexivity.
Qed.

(** * The ways out of turn_to *)

Lemma turn_loop_returns (park : World -> World) (step pos d : Z)
    (cw ws ab : bool) :
  park_quiet cfg park ->
  step = 1 \/ step = -1 ->
  forall fuel i p2 p1 w,
    servo_us w = i - step -> (i - step) * step <= pos * step ->
    forall r s,
      fst (turn_loop cfg env park fuel i step pos d cw ws ab p2 p1 w)
      = Ret (r, s) ->
      (r = OK /\ s = None
       /\ servo_us
            (snd (turn_loop cfg env park fuel i step pos d cw ws ab p2 p1 w))
          = pos)
      \/ (r = OK /\ ws = true /\ exists v, s = Some v)
      \/ (r = WEIGHT_NOT_STABLE /\ ws = true /\ s = None
          /\ servo_us
               (snd (turn_loop cfg env park fuel i step pos d cw ws ab p2 p1 w))
             = pos)
      \/ (r = WHERE_THE_FUCK_IS_THE_CUP /\ cw = true /\ s = None
          /\ exists x before,
               events_since w
                 (snd (turn_loop cfg env park fuel i step pos d cw ws ab
                         p2 p1 w))
               = EvNoblock OK x :: before
               /\ x < WEIGHT_EPSILON cfg)
      \/ (r <> OK /\ ab = true /\ s = None
          /\ In (EvAbortCheck r)
               (events_since w
                  (snd (turn_loop cfg env park fuel i step pos d cw ws ab
                          p2 p1 w))))
      \/ (r <> OK /\ r <> ADS1231_WOULD_BLOCK /\ cw || ws = true /\ s = None
          /\ exists x before,
               events_since w
                 (snd (turn_loop cfg env park fuel i step pos d cw ws ab
                         p2 p1 w))
               = EvNoblock r x :: before).
Proof.
  intros Hq Hstep fuel i p2 p1 w.
  apply (turn_loop_induction_ext park step pos d cw ws ab
           (fun i _ _ w res =>
              servo_us w = i - step -> (i - step) * step <= pos * step ->
              forall r s,
                fst res = Ret (r, s) ->
                (r = OK /\ s = None /\ servo_us (snd res) = pos)
                \/ (r = OK /\ ws = true /\ exists v, s = Some v)
                \/ (r = WEIGHT_NOT_STABLE /\ ws = true /\ s = None
                    /\ servo_us (snd res) = pos)
                \/ (r = WHERE_THE_FUCK_IS_THE_CUP /\ cw = true /\ s = None
                    /\ exists x before,
                         events_since w (snd res) = EvNoblock OK x :: before
                         /\ x < WEIGHT_EPSILON cfg)
                \/ (r <> OK /\ ab = true /\ s = None
                    /\ In (EvAbortCheck r) (events_since w (snd res)))
                \/ (r <> OK /\ r <> ADS1231_WOULD_BLOCK /\ cw || ws = true
                    /\ s = None
                    /\ exists x before,
                         events_since w (snd res) = EvNoblock r x :: before)));
    simpl; clear fuel i p2 p1 w.
  - intro w. apply Hq.
  - intros i _ _ w Hc Hi Hle r s Heq. inversion Heq; subst.
    assert (Hpos : servo_us w = pos) by (destruct Hstep; subst step; lia).
    destruct ws; [right; right; left | left]; auto.
  - intros. discriminate.
  - intros i p2 p1 w ret sw w' Hc Hrun Hi Hle r s Heq.
    inversion Heq; subst. inversion Hrun; subst.
    + do 4 right. left. repeat split; auto.
      rewrite events_parked by apply Hq.
      apply in_or_app. right. now left.
    + do 5 right. repeat split; auto. rewrite events_read. eauto.
    + do 3 right. left. repeat split; auto. rewrite events_read. eauto.
    + right. left. eauto.
  - intros i p2 p1 w q2 q1 w' res Hc Hrun Hsplit IH Hi Hle r s Heq.
    assert (Hservo : servo_us w' = i + step - step).
    { inversion Hrun; subst; simpl; lia. }
    rewrite Hsplit.
    destruct (IH Hservo ltac:(lia) r s Heq)
      as [H | [H | [H | [H | [H | H]]]]]; auto.
    + do 3 right. left.
      destruct H as [Hr [Hcw [Hs [x [before [Hev Hlt]]]]]].
      repeat split; auto. rewrite Hev. simpl. eauto.
    + do 4 right. left.
      destruct H as [Hr [Hab [Hs Hin]]].
      repeat split; auto. apply in_or_app. now left.
    + do 5 right.
      destruct H as [Hr [Hwb [Hon [Hs [x [before Hev]]]]]].
      repeat split; auto. rewrite Hev. simpl. eauto.
Qed.

(** X21.  Every return of [turn_to] is one of these:
    - SERVO_OUT_OF_RANGE for a target outside the range, nothing done;
    - 0 with no weight written and the actuator at the target;
    - 0 with a stabilized weight written, when stabilization was asked for;
    - WEIGHT_NOT_STABLE, when stabilization was asked for, with the actuator
      at the target;
    - WHERE_THE_FUCK_IS_THE_CUP, with [check_weight], right after a valid
      reading below WEIGHT_EPSILON;
    - the non-zero answer of an abort check of the call, with
      [enable_abortcheck];
    - the code of a failed reading other than ADS1231_WOULD_BLOCK, right
      after that reading, when the scale is used.
    A weight is written only in the third case. *)
Theorem turn_to_returns :
  forall (pos delay_ms : Z) (check_weight want_stable enable_abortcheck : bool)
         (w : World) (r : errv_t) (s : option Z),
    fst (turn_to cfg env b pos delay_ms check_weight want_stable
           enable_abortcheck w)
    = Ret (r, s) ->
    (r = SERVO_OUT_OF_RANGE /\ s = None /\ ~ in_servo_range pos
     /\ snd (turn_to cfg env b pos delay_ms check_weight want_stable
               enable_abortcheck w) = w)
    \/ (r = OK /\ s = None
        /\ servo_us
             (snd (turn_to cfg env b pos delay_ms check_weight want_stable
                     enable_abortcheck w))
           = pos)
    \/ (r = OK /\ want_stable = true /\ exists v : Z, s = Some v)
    \/ (r = WEIGHT_NOT_STABLE /\ want_stable = true /\ s = None
        /\ servo_us
             (snd (turn_to cfg env b pos delay_ms check_weight want_stable
                     enable_abortcheck w))
           = pos)
    \/ (r = WHERE_THE_FUCK_IS_THE_CUP /\ check_weight = true /\ s = None
        /\ exists (x : Z) (before : list Event),
             events_since w
               (snd (turn_to cfg env b pos delay_ms check_weight want_stable
                       enable_abortcheck w))
             = EvNoblock OK x :: before
             /\ x < WEIGHT_EPSILON cfg)
    \/ (r <> OK /\ enable_abortcheck = true /\ s = None
        /\ In (EvAbortCheck r)
             (events_since w
                (snd (turn_to cfg env b pos delay_ms check_weight want_stable
                        enable_abortcheck w))))
    \/ (r <> OK /\ r <> ADS1231_WOULD_BLOCK
        /\ check_weight || want_stable = true /\ s = None
        /\ exists (x : Z) (before : list Event),
             events_since w
               (snd (turn_to cfg env b pos delay_ms check_weight want_stable
                       enable_abortcheck w))
             = EvNoblock r x :: before).
Proof.
  intros pos d cw ws ab w r s. unfold turn_to, turn_to_with.
  destruct ((pos <? SERVO_MIN) || (pos >? SERVO_MAX)) eqn:Hrange.
  { simpl. intro H. inversion H; subst. left. repeat split; auto.
    apply range_check_true in Hrange. unfold in_servo_range. lia. }
  unfold readMicroseconds.
  destruct (pos =? servo_us w) eqn:Heq.
  { apply Z.eqb_eq in Heq. simpl. intro H. inversion H; subst.
    right. left. auto. }
  apply Z.eqb_neq in Heq. intro Hrun. right.
  destruct (servo_us w <? pos) eqn:Hlt;
    [apply Z.ltb_lt in Hlt | apply Z.ltb_ge in Hlt];
    (eapply turn_loop_returns;
     [apply park_up_quiet | | | | exact Hrun]); auto; lia.
Qed.

(** * Abort *)

(** The park move commands one position per microsecond of its way. *)
Lemma park_up_distance (w : World) :
  in_servo_range (pos_up b) ->
  Z.of_nat (length (servo_writes (events_since w (park_up cfg env b w))))
  = Z.abs (pos_up b - servo_us w).
Proof.
  intro Hup.
  pose proof (park_up_reaches w Hup) as Hend.
  assert (Hno : ~ abort_observed (events_since w (park_up cfg env b w))).
  { intros [e [He Hin]].
    eapply park_event_no_check; [apply park_up_quiet | exact Hin]. }
  revert Hend Hno. unfold park_up, turn_to_with.
  apply range_check_false in Hup. rewrite Hup.
  unfold readMicroseconds.
  destruct (pos_up b =? servo_us w) eqn:Heq.
  { apply Z.eqb_eq in Heq. simpl. rewrite events_since_refl. simpl.
    intros. lia. }
  apply Z.eqb_neq in Heq. intros Hend Hno.
  destruct (servo_us w <? pos_up b) eqn:Hlt.
  - apply Z.ltb_lt in Hlt.
    destruct (turn_loop_distance (fun w' => w') 1 (pos_up b)
                (FAST_TURN_UP_DELAY cfg) false false false
                park_quiet_id (or_introl eq_refl)
                (Z.to_nat (Z.abs (pos_up b - servo_us w))) (servo_us w + 1)
                (-9999) (-9999) w
                ltac:(lia) ltac:(lia) Hno) as [Hd _].
    lia.
  - apply Z.ltb_ge in Hlt.
    destruct (turn_loop_distance (fun w' => w') (-1) (pos_up b)
                (FAST_TURN_UP_DELAY cfg) false false false
                park_quiet_id (or_intror eq_refl)
                (Z.to_nat (Z.abs (pos_up b - servo_us w))) (servo_us w + -1)
                (-9999) (-9999) w
                ltac:(lia) ltac:(lia) Hno) as [Hd _].
    lia.
Qed.

(** C4.  The abort flag seen set is a non-zero answer [e] of [check_aborted]
    (ABORTED).

    At every step: with abort checking enabled, a pass of the loop body that
    starts in a world [w0] in which [check_aborted] answers [e] does one
    thing only, whatever the counter, the remembered weights, [check_weight]
    and [stable_weight] are and whatever the scale would answer: it asks for
    the flag, runs [turn_up(FAST_TURN_UP_DELAY, false)] from there, and
    returns [e] with no weight written.  The scale is not read in that pass.

    For a whole call: if an abort check of the call came back [e], it was
    the first thing of its pass (nothing was recorded between the command of
    the pass before, if any, and the check), all checks before it came back
    0, and the call is over with the park move that follows the check:
    [turn_to] returns [e].  Everything recorded after the check is a step of
    the park move: delays and actuator commands in pairs, each command
    directly after a delay of FAST_TURN_UP_DELAY, no further abort check and
    no weight sample.  When [pos_up] is a valid position the park move
    commands one position per microsecond between the position at the check
    and [pos_up], and the bottle ends at [pos_up]. *)
Theorem turn_to_abort_parks :
  forall e : errv_t,
    e <> OK ->
    (forall (i delay_ms : Z) (check_weight want_stable : bool) (p2 p1 : Z)
            (w0 : World),
        check_aborted env (trace w0) = e ->
        turn_body cfg env (park_up cfg env b) i delay_ms check_weight
          want_stable true p2 p1 w0
        = (Exit e None,
           snd (turn_up cfg env b (FAST_TURN_UP_DELAY cfg) false
                  (log (EvAbortCheck e) w0))))
    /\
    (forall (pos delay_ms : Z) (check_weight want_stable : bool) (w : World),
        In (EvAbortCheck e)
           (events_since w
              (snd (turn_to cfg env b pos delay_ms check_weight want_stable
                      true w))) ->
        exists (w0 w_a : World) (before : list Event),
          w_a = log (EvAbortCheck e) w0
          /\ trace w0 = before ++ trace w
          /\ check_aborted env (trace w0) = e
          /\ (before = []
              \/ exists (us : Z) (older : list Event),
                   before = EvServoWrite us :: older)
          /\ ~ abort_observed before
          /\ turn_to cfg env b pos delay_ms check_weight want_stable true w
             = (Ret (e, None),
                snd (turn_up cfg env b (FAST_TURN_UP_DELAY cfg) false w_a))
          /\ events_since w
               (snd (turn_to cfg env b pos delay_ms check_weight want_stable
                       true w))
             = events_since w_a
                 (snd (turn_up cfg env b (FAST_TURN_UP_DELAY cfg) false w_a))
               ++ EvAbortCheck e :: before
          /\ Forall (park_event cfg)
               (events_since w_a
                  (snd (turn_up cfg env b (FAST_TURN_UP_DELAY cfg) false w_a)))
          /\ paced (fun ms => ms = to_unsigned_long (FAST_TURN_UP_DELAY cfg))
               (events_since w_a
                  (snd (turn_up cfg env b (FAST_TURN_UP_DELAY cfg) false w_a)))
          /\ (in_servo_range (pos_up b) ->
              servo_us
                (snd (turn_up cfg env b (FAST_TURN_UP_DELAY cfg) false w_a))
              = pos_up b
              /\ Z.of_nat
                   (length
                      (servo_writes
                         (events_since w_a
                            (snd (turn_up cfg env b (FAST_TURN_UP_DELAY cfg)
                                    false w_a)))))
                 = Z.abs (pos_up b - servo_us w_a))).
Proof.
  intros e He. split.
  - intros i d cw ws p2 p1 w0 Hcheck.
    unfold turn_body, abort_step. rewrite Hcheck.
    apply nonzero_true in He. rewrite He.
    now rewrite park_up_is_turn_up.
  - intros pos d cw ws w Hin.
    assert (Hloop : exists w0 before,
               trace w0 = before ++ trace w
               /\ check_aborted env (trace w0) = e
               /\ (before = []
                   \/ exists us older, before = EvServoWrite us :: older)
               /\ ~ abort_observed before
               /\ turn_to cfg env b pos d cw ws true w
                  = (Ret (e, None),
                     park_up cfg env b (log (EvAbortCheck e) w0))).
    { revert Hin. unfold turn_to, turn_to_with.
      destruct ((pos <? SERVO_MIN) || (pos >? SERVO_MAX)).
      { simpl. rewrite events_since_refl. intros []. }
      destruct (pos =? readMicroseconds w).
      { simpl. rewrite events_since_refl. intros []. }
      intro Hin. eapply turn_loop_abort; eauto. apply park_up_quiet. }
    destruct Hloop as [w0 [before [Ht [Hc [Hshape [Hno Hres]]]]]].
    exists w0, (log (EvAbortCheck e) w0), before.
    rewrite <- park_up_is_turn_up.
    destruct (park_up_quiet (log (EvAbortCheck e) w0)) as [Hext Hev].
    repeat split; auto.
    + rewrite Hres. simpl. apply events_since_app.
      rewrite (extends_events _ _ Hext) at 1. simpl. rewrite Ht.
      now rewrite <- app_assoc.
    + apply park_up_paced.
    + now apply park_up_reaches.
    + now apply park_up_distance.
Qed.

End BottleFacts.

(** * The properties on the sample set-ups *)

Import Sample.

(** An out-of-range target, 2500. *)
Lemma turn_to_out_of_range_sample :
  (2500 < SERVO_MIN \/ SERVO_MAX < 2500)
  /\ turn_to cfg env_steady bottle 2500 10 true true true w_up
     = (Ret (SERVO_OUT_OF_RANGE, None), w_up).
Proof.
  assert (H : 2500 < SERVO_MIN \/ SERVO_MAX < 2500) by (right; reflexivity).
  split; [exact H|].
  exact (turn_to_out_of_range cfg env_steady bottle 2500 10 true true true
           w_up H).
Defined.

(** The target is where the bottle stands. *)
Lemma turn_to_current_pos_noop_sample :
  SERVO_MIN <= 1500 <= SERVO_MAX
  /\ 1500 = readMicroseconds w_up
  /\ turn_to cfg env_steady bottle 1500 10 true true true w_up
     = (Ret (OK, None), w_up).
Proof.
  assert (H1 : SERVO_MIN <= 1500 <= SERVO_MAX) by (split; discriminate).
  assert (H2 : 1500 = readMicroseconds w_up) by reflexivity.
  split; [exact H1|]. split; [exact H2|].
  exact (turn_to_current_pos_noop cfg env_steady bottle 1500 10 true true true
           w_up H1 H2).
Defined.


(** Three samples of 50 g in a row, with the cup check on. *)
Lemma turn_to_stable_iff_sample :
  ((true = true /\ -9999 < WEIGHT_EPSILON cfg)
   \/ hd_error
        (samples_seen
           (events_since w_up
              (snd (turn_to cfg env_steady bottle 1510 10 true true true
                      w_up))))
      <> Some (-9999))
  /\ fst (turn_to cfg env_steady bottle 1510 10 true true true w_up)
     = Ret (OK, Some 50)
  /\ exists earlier : list Z,
       samples_seen
         (events_since w_up
            (snd (turn_to cfg env_steady bottle 1510 10 true true true w_up)))
       = earlier ++ [50; 50; 50].
Proof.
  assert (H : (true = true /\ -9999 < WEIGHT_EPSILON cfg)
              \/ hd_error
                   (samples_seen
                      (events_since w_up
                         (snd (turn_to cfg env_steady bottle 1510 10 true true
                                 true w_up))))
                 <> Some (-9999))
    by (left; split; reflexivity).
  split; [exact H|]. split; [reflexivity|].
  apply (proj1 (proj2 (turn_to_stable_iff cfg env_steady bottle 1510 10 true
                         true w_up H)) 50).
  reflexivity.
Defined.

(** C2 as stated fails: stabilization requested, target 1500 where the
    bottle already stands, no sample taken -- and the result is 0, not
    WEIGHT_NOT_STABLE.  (It also fails when an abort parks the bottle at a
    [pos_up] that happens to be the target: the bottle, at 1505, is sent to
    1500 with the abort flag set; it ends at 1500 with no sample taken, and
    the result is ABORTED.) *)
Lemma turn_to_same_position_not_reported :
  (in_servo_range 1500
   /\ readMicroseconds w_up = 1500
   /\ turn_to cfg env_steady bottle 1500 10 true true true w_up
      = (Ret (OK, None), w_up)
   /\ fst (turn_to cfg env_steady bottle 1500 10 true true true w_up)
      <> Ret (WEIGHT_NOT_STABLE, None))
  /\
  (servo_us (snd (turn_to cfg env_abort bottle 1500 10 true true true w_mid))
   = 1500
   /\ samples_seen
        (events_since w_mid
           (snd (turn_to cfg env_abort bottle 1500 10 true true true w_mid)))
      = []
   /\ fst (turn_to cfg env_abort bottle 1500 10 true true true w_mid)
      = Ret (ABORTED, None)).
Proof.
  split.
  - split; [split; discriminate|]. split; [reflexivity|].
    split; [reflexivity | discriminate].
  - split; [reflexivity|]. split; reflexivity.
Qed.

(** The weight keeps rising while the bottle turns from 1500 to 1503. *)
Lemma turn_to_not_stable_sample :
  in_servo_range 1503
  /\ 1503 <> readMicroseconds w_up
  /\ servo_us (snd (turn_to cfg env_rising bottle 1503 10 true true false w_up))
     = 1503
  /\ fst (turn_to cfg env_rising bottle 1503 10 true true false w_up)
     = Ret (WEIGHT_NOT_STABLE, None).
Proof.
  assert (H1 : in_servo_range 1503) by (split; discriminate).
  assert (H2 : 1503 <> readMicroseconds w_up) by discriminate.
  assert (H3 : ~ abort_observed
                 (events_since w_up
                    (snd (turn_to cfg env_rising bottle 1503 10 true true false
                            w_up))))
    by (apply abort_observedb_false; reflexivity).
  assert (H4 : servo_us
                 (snd (turn_to cfg env_rising bottle 1503 10 true true false
                         w_up)) = 1503) by reflexivity.
  split; [exact H1|]. split; [exact H2|]. split; [exact H4|].
  exact (turn_to_not_stable cfg env_rising bottle 1503 10 true false w_up
           H1 H2 H3 H4).
Defined.

(** The bottle, at 1505, is sent to 1510 with weight check and
    stabilization.  After its first step the abort flag is raised and the
    cup is taken away.  The second pass neither reports the missing cup nor
    goes on: the bottle is parked at [pos_up] = 1500, six commands, each
    after a delay of FAST_TURN_UP_DELAY, and the call returns ABORTED. *)
Lemma turn_to_abort_parks_sample :
  ABORTED <> OK
  /\ check_aborted env_abort_late (trace w_stepped) = ABORTED
  /\ ads1231_get_noblock env_abort_late
       (trace (log (EvAbortCheck ABORTED) w_stepped)) = (OK, 3)
  /\ 3 < WEIGHT_EPSILON cfg
  /\ turn_body cfg env_abort_late (park_up cfg env_abort_late bottle) 1507 10
       true true true (-9999) 50 w_stepped
     = (Exit ABORTED None,
        snd (turn_up cfg env_abort_late bottle (FAST_TURN_UP_DELAY cfg) false
               (log (EvAbortCheck ABORTED) w_stepped)))
  /\ In (EvAbortCheck ABORTED)
        (events_since w_mid
           (snd (turn_to cfg env_abort_late bottle 1510 10 true true true
                   w_mid)))
  /\ in_servo_range (pos_up bottle)
  /\ exists (w0 w_a : World) (before : list Event),
       w_a = log (EvAbortCheck ABORTED) w0
       /\ trace w0 = before ++ trace w_mid
       /\ check_aborted env_abort_late (trace w0) = ABORTED
       /\ (before = []
           \/ exists (us : Z) (older : list Event),
                before = EvServoWrite us :: older)
       /\ ~ abort_observed before
       /\ turn_to cfg env_abort_late bottle 1510 10 true true true w_mid
          = (Ret (ABORTED, None),
             snd (turn_up cfg env_abort_late bottle (FAST_TURN_UP_DELAY cfg)
                    false w_a))
       /\ events_since w_mid
            (snd (turn_to cfg env_abort_late bottle 1510 10 true true true
                    w_mid))
          = events_since w_a
              (snd (turn_up cfg env_abort_late bottle (FAST_TURN_UP_DELAY cfg)
                      false w_a))
            ++ EvAbortCheck ABORTED :: before
       /\ Forall (park_event cfg)
            (events_since w_a
               (snd (turn_up cfg env_abort_late bottle
                       (FAST_TURN_UP_DELAY cfg) false w_a)))
       /\ paced (fun ms => ms = to_unsigned_long (FAST_TURN_UP_DELAY cfg))
            (events_since w_a
               (snd (turn_up cfg env_abort_late bottle
                       (FAST_TURN_UP_DELAY cfg) false w_a)))
       /\ servo_us
            (snd (turn_up cfg env_abort_late bottle (FAST_TURN_UP_DELAY cfg)
                    false w_a))
          = pos_up bottle
       /\ Z.of_nat
            (length
               (servo_writes
                  (events_since w_a
                     (snd (turn_up cfg env_abort_late bottle
                             (FAST_TURN_UP_DELAY cfg) false w_a)))))
          = Z.abs (pos_up bottle - servo_us w_a).
Proof.
  assert (H1 : ABORTED <> OK) by discriminate.
  assert (H2 : check_aborted env_abort_late (trace w_stepped) = ABORTED)
    by reflexivity.
  assert (H3 : In (EvAbortCheck ABORTED)
                 (events_since w_mid
                    (snd (turn_to cfg env_abort_late bottle 1510 10 true true
                            true w_mid)))).
  { vm_compute. repeat (first [left; reflexivity | right]). }
  assert (H4 : in_servo_range (pos_up bottle)) by (split; discriminate).
  destruct (turn_to_abort_parks cfg env_abort_late bottle ABORTED H1)
    as [Hstep Hcall].
  split; [exact H1|]. split; [exact H2|]. split; [reflexivity|].
  split; [reflexivity|].
  split; [exact (Hstep 1507 10 true true (-9999) 50 w_stepped H2)|].
  split; [exact H3|]. split; [exact H4|].
  destruct (Hcall 1510 10 true true w_mid H3)
    as [w0 [w_a [before [Hwa [Ht [Hc [Hshape [Hno [Hres [Hev [Hpark [Hpaced
        Hup]]]]]]]]]]]].
  destruct (Hup H4) as [Hend Hcount].
  exists w0, w_a, before.
  repeat split; auto; try apply Hend; try apply H4.
Defined.

(** No cup: the first sample reads 3 g. *)
Lemma turn_to_cup_missing_sample :
  3 < WEIGHT_EPSILON cfg
  /\ In (EvNoblock OK 3)
        (events_since w_up
           (snd (turn_to cfg env_no_cup bottle 1510 10 true false true w_up)))
  /\ fst (turn_to cfg env_no_cup bottle 1510 10 true false true w_up)
     = Ret (WHERE_THE_FUCK_IS_THE_CUP, None)
  /\ exists before : list Event,
       events_since w_up
         (snd (turn_to cfg env_no_cup bottle 1510 10 true false true w_up))
       = EvNoblock OK 3 :: before.
Proof.
  assert (H1 : 3 < WEIGHT_EPSILON cfg) by reflexivity.
  assert (H2 : In (EvNoblock OK 3)
                 (events_since w_up
                    (snd (turn_to cfg env_no_cup bottle 1510 10 true false true
                            w_up)))).
  { vm_compute. left. reflexivity. }
  split; [exact H1|]. split; [exact H2|].
  exact (turn_to_cup_missing cfg env_no_cup bottle 1510 10 false true w_up 3
           H1 H2).
Defined.

(** C8 as stated fails in its second half: with the abort flag set, the
    bottle at 1505 sent to 1510 is commanded to 1504, which is in the valid
    range but not between 1505 and 1510. *)
Lemma turn_to_abort_leaves_interval :
  in_servo_range 1510
  /\ in_servo_range (servo_us w_mid)
  /\ In 1504
        (servo_writes
           (events_since w_mid
              (snd (turn_to cfg env_abort bottle 1510 10 true true true
                      w_mid))))
  /\ ~ (Z.min (servo_us w_mid) 1510 <= 1504 <= Z.max (servo_us w_mid) 1510).
Proof.
  split; [split; discriminate|]. split; [split; discriminate|]. split.
  - vm_compute. repeat (first [left; reflexivity | right]).
  - vm_compute. intros [H _]. now apply H.
Qed.

(** Turning from 1500 to 1510 over a steady cup: 1501 is commanded. *)
Lemma turn_to_commands_in_range_sample :
  in_servo_range (servo_us w_up)
  /\ in_servo_range 1510
  /\ In 1501
        (servo_writes
           (events_since w_up
              (snd (turn_to cfg env_steady bottle 1510 10 true false true
                      w_up))))
  /\ in_servo_range 1501
  /\ Z.min (servo_us w_up) 1510 <= 1501 <= Z.max (servo_us w_up) 1510.
Proof.
  assert (H1 : in_servo_range (servo_us w_up)) by (split; discriminate).
  assert (H2 : in_servo_range 1510) by (split; discriminate).
  assert (H3 : In 1501
                 (servo_writes
                    (events_since w_up
                       (snd (turn_to cfg env_steady bottle 1510 10 true false
                               true w_up))))).
  { vm_compute. repeat (first [left; reflexivity | right]). }
  assert (H4 : ~ abort_observed
                 (events_since w_up
                    (snd (turn_to cfg env_steady bottle 1510 10 true false true
                            w_up))))
    by (apply abort_observedb_false; reflexivity).
  split; [exact H1|]. split; [exact H2|]. split; [exact H3|].
  pose proof (proj1 (turn_to_commands_in_range cfg env_steady bottle 1510 10
                       true false true w_up H1) H2 1501 H3) as [Hr Hb].
  split; [exact Hr | exact (Hb H4)].
Defined.

(** A pour of 30 g over a steady cup of 50 g that weighs 80 g afterwards. *)
Lemma pour_measured_amount_sample :
  pour cfg env_steady bottle 2 30 0 w_up
  = (Ret (OK, 30), snd (pour cfg env_steady bottle 2 30 0 w_up))
  /\ exists (ow g : Z) (w1 w2 w3 : World),
       measure_baseline cfg env_steady bottle 2 0 w_up
       = (Ret (CupThere ow), w1)
       /\ pouring_loop cfg env_steady bottle 2 30 ow w1 = (Ret Poured, w2)
       /\ turn_to_pause_pos cfg env_steady bottle (TURN_UP_DELAY cfg) w2
          = (Ret (OK, None), w3)
       /\ servo_us w3 = (pos_up bottle + pos_down bottle) ÷ 2
       /\ ads1231_get_grams env_steady (trace w3) 0 = (OK, g)
       /\ snd (pour cfg env_steady bottle 2 30 0 w_up)
          = log (EvGetGrams OK g) w3
       /\ servo_us (snd (pour cfg env_steady bottle 2 30 0 w_up))
          = (pos_up bottle + pos_down bottle) ÷ 2
       /\ 30 = g - ow.
Proof.
  assert (H : pour cfg env_steady bottle 2 30 0 w_up
              = (Ret (OK, 30), snd (pour cfg env_steady bottle 2 30 0 w_up)))
    by reflexivity.
  split; [exact H|].
  exact (pour_measured_amount cfg env_steady bottle 2 30 0 w_up _ 30 H).
Defined.


(** The whole pour with a bottle that runs dry once: POURING, the error,
    the wait for RESUME, POURING again, and 30 g measured. *)
Example pour_dry_then_resumed :
  fst (pour cfg env_dry bottle 3 30 0 w_up) = Ret (OK, 30)
  /\ story (snd (pour cfg env_dry bottle 3 30 0 w_up))
     = [EvMsgPouring 0 50;
        EvDelayUntil 20000 75 true BOTTLE_EMPTY;
        EvError BOTTLE_EMPTY (Some 0);
        EvWaitForResume OK;
        EvPrintLcd 2;
        EvMsgPouring 0 50;
        EvDelayUntil 20000 75 true OK;
        EvGetGrams OK 80].
Proof. split; reflexivity. Qed.

(** A cup of 50 g: the POURING message carries 50.  And a cup that is off
    the scale at the stable reading (3 g): [wait_for_cup] is called and the
    loop makes its next pass with 3 in [orig_weight]. *)
Lemma pour_needs_cup_sample :
  In (EvMsgPouring 0 50)
     (events_since w_up (snd (pour cfg env_steady bottle 2 30 0 w_up)))
  /\ WEIGHT_EPSILON cfg <= 50
  /\ baseline_sample cfg env_cup_late bottle 0 w_up
     = (Ret (OK, 3), snd (baseline_sample cfg env_cup_late bottle 0 w_up))
  /\ 3 < WEIGHT_EPSILON cfg
  /\ measure_baseline cfg env_cup_late bottle 3 0 w_up
     = measure_baseline cfg env_cup_late bottle 2 3
         (log (EvWaitForCup OK)
            (snd (baseline_sample cfg env_cup_late bottle 0 w_up))).
Proof.
  assert (H : In (EvMsgPouring 0 50)
                (events_since w_up
                   (snd (pour cfg env_steady bottle 2 30 0 w_up)))).
  { vm_compute. repeat (first [left; reflexivity | right]). }
  assert (Hs : baseline_sample cfg env_cup_late bottle 0 w_up
               = (Ret (OK, 3),
                  snd (baseline_sample cfg env_cup_late bottle 0 w_up)))
    by reflexivity.
  assert (Hlt : 3 < WEIGHT_EPSILON cfg) by reflexivity.
  split; [exact H|].
  split; [exact (proj1 (pour_needs_cup cfg env_steady bottle 2 30 0 w_up)
                   0 50 H)|].
  split; [exact Hs|]. split; [exact Hlt|].
  exact (proj2 (proj2 (proj2 (proj2
           (pour_needs_cup cfg env_cup_late bottle 2 30 0 w_up))))
           0 3 _ Hs Hlt).
Defined.

(** A run of the first loop of [pour] that cannot end by itself: the bottle
    already stands just below the pause position, so [turn_to] returns 0 at
    once and writes no weight; [orig_weight] keeps a value below
    WEIGHT_EPSILON, [wait_for_cup] is called, and the loop starts over. *)
Remark baseline_stalls_below_pause :
  forall (fuel : nat) (orig_weight : Z) (w : World),
    servo_us w = 1515 ->
    orig_weight < WEIGHT_EPSILON cfg ->
    fst (measure_baseline cfg env_steady bottle fuel orig_weight w) = OutOfFuel.
Proof.
  induction fuel as [|fuel IH]; intros ow w Hservo How; [reflexivity|].
  assert (Hsample : baseline_sample cfg env_steady bottle ow w
                    = (Ret (OK, ow), w)).
  { unfold baseline_sample, bind, turn_to, turn_to_with, readMicroseconds.
    rewrite Hservo. reflexivity. }
  change (WEIGHT_EPSILON cfg) with 10 in *.
  assert (Hlt : (ow <? 10) = true) by now apply Z.ltb_lt.
  cbn [measure_baseline]. unfold bind at 1. rewrite Hsample.
  cbn [fst snd]. change (WEIGHT_EPSILON cfg) with 10. rewrite Hlt.
  change (nonzero OK) with false.
  change (errv_eqb OK WHERE_THE_FUCK_IS_THE_CUP) with false.
  cbn [andb orb].
  unfold RETURN_IFN_0, bind, ask.
  change (wait_for_cup env_steady (trace w)) with OK.
  change (nonzero OK) with false. cbv iota.
  apply IH; [exact Hservo | exact How].
Qed.

(** * The further properties on the sample set-ups *)

(** A plain move from 1500 to 1510: no abort check, no reading. *)
Lemma turn_to_switched_off_sample :
  abort_checks
    (events_since w_up
       (snd (turn_to cfg env_steady bottle 1510 10 false false false w_up)))
  = 0%nat
  /\ scale_reads
       (events_since w_up
          (snd (turn_to cfg env_steady bottle 1510 10 false false false w_up)))
     = 0%nat.
Proof.
  destruct (turn_to_switched_off cfg env_steady bottle 1510 10 false false
              false w_up) as [Hchecks Hreads].
  split; [apply Hchecks | apply Hreads]; reflexivity.
Defined.

(** The weight is stable at the third pass, before its position is
    commanded: two complete passes and the beginning of a third; two
    positions, three abort checks, three readings. *)
Lemma turn_to_once_per_step_sample :
  ~ abort_observed
      (events_since w_up
         (snd (turn_to cfg env_steady bottle 1510 10 true true true w_up)))
  /\ (exists last_pass full : list Event,
        events_since w_up
          (snd (turn_to cfg env_steady bottle 1510 10 true true true w_up))
        = last_pass ++ full
        /\ pass_history true (true || true) 10 full
        /\ ((last_pass = []
             /\ exists r : errv_t,
                  fst (turn_to cfg env_steady bottle 1510 10 true true true
                         w_up) = Ret (r, None)
                  /\ (r = SERVO_OUT_OF_RANGE \/ r = OK
                      \/ r = WEIGHT_NOT_STABLE))
            \/ (true || true = true
                /\ exists (e : errv_t) (x : Z),
                     last_pass = EvNoblock e x :: check_events true
                     /\ ((e <> OK
                          /\ fst (turn_to cfg env_steady bottle 1510 10 true
                                    true true w_up) = Ret (e, None))
                         \/ (e = OK
                             /\ (fst (turn_to cfg env_steady bottle 1510 10
                                        true true true w_up)
                                 = Ret (WHERE_THE_FUCK_IS_THE_CUP, None)
                                 \/ fst (turn_to cfg env_steady bottle 1510 10
                                           true true true w_up)
                                    = Ret (OK, Some x)))))))
  /\ (2 <= abort_checks
             (events_since w_up
                (snd (turn_to cfg env_steady bottle 1510 10 true true true
                        w_up)))
      <= 3)%nat
  /\ (2 <= scale_reads
             (events_since w_up
                (snd (turn_to cfg env_steady bottle 1510 10 true true true
                        w_up)))
      <= 3)%nat.
Proof.
  assert (H : ~ abort_observed
                (events_since w_up
                   (snd (turn_to cfg env_steady bottle 1510 10 true true true
                           w_up))))
    by (apply abort_observedb_false; reflexivity).
  destruct (turn_to_once_per_step cfg env_steady bottle 1510 10 true true true
              w_up H) as [Hpasses [Hchecks Hreads]].
  split; [exact H|]. split; [exact Hpasses|].
  split; [exact (Hchecks eq_refl) | exact (Hreads eq_refl)].
Defined.

(** The same run: two positions commanded, two microseconds travelled, of
    the ten asked for. *)
Lemma turn_to_distance_sample :
  ~ abort_observed
      (events_since w_up
         (snd (turn_to cfg env_steady bottle 1510 10 true true true w_up)))
  /\ in_servo_range 1510
  /\ Z.of_nat
       (length
          (servo_writes
             (events_since w_up
                (snd (turn_to cfg env_steady bottle 1510 10 true true true
                        w_up)))))
     = Z.abs
         (servo_us
            (snd (turn_to cfg env_steady bottle 1510 10 true true true w_up))
          - servo_us w_up)
  /\ Z.abs
       (servo_us
          (snd (turn_to cfg env_steady bottle 1510 10 true true true w_up))
        - servo_us w_up)
     <= Z.abs (1510 - servo_us w_up).
Proof.
  assert (H : ~ abort_observed
                (events_since w_up
                   (snd (turn_to cfg env_steady bottle 1510 10 true true true
                           w_up))))
    by (apply abort_observedb_false; reflexivity).
  assert (Hrange : in_servo_range 1510) by (split; discriminate).
  destruct (turn_to_distance cfg env_steady bottle 1510 10 true true true
              w_up H) as [Hcount Hnear].
  split; [exact H|]. split; [exact Hrange|].
  split; [exact Hcount | exact (Hnear Hrange)].
Defined.

(** The abort check answers ADS1231_WOULD_BLOCK. *)
Lemma turn_to_would_block_absorbed_sample :
  fst (turn_to cfg env_busy bottle 1510 10 true true true w_up)
  = Ret (ADS1231_WOULD_BLOCK, None)
  /\ In (EvAbortCheck ADS1231_WOULD_BLOCK)
        (events_since w_up
           (snd (turn_to cfg env_busy bottle 1510 10 true true true w_up))).
Proof.
  assert (H : fst (turn_to cfg env_busy bottle 1510 10 true true true w_up)
              = Ret (ADS1231_WOULD_BLOCK, None)) by reflexivity.
  split; [exact H|].
  exact (proj2 (turn_to_would_block_absorbed cfg env_busy bottle 1510 10 true
                  true true w_up None H)).
Defined.

(** The scale fails on the first reading. *)
Lemma turn_to_scale_error_sample :
  ERR_OTHER 1 <> OK
  /\ ERR_OTHER 1 <> ADS1231_WOULD_BLOCK
  /\ In (EvNoblock (ERR_OTHER 1) 0)
        (events_since w_up
           (snd (turn_to cfg env_broken bottle 1510 10 true false false w_up)))
  /\ fst (turn_to cfg env_broken bottle 1510 10 true false false w_up)
     = Ret (ERR_OTHER 1, None)
  /\ exists before : list Event,
       events_since w_up
         (snd (turn_to cfg env_broken bottle 1510 10 true false false w_up))
       = EvNoblock (ERR_OTHER 1) 0 :: before.
Proof.
  assert (H1 : ERR_OTHER 1 <> OK) by discriminate.
  assert (H2 : ERR_OTHER 1 <> ADS1231_WOULD_BLOCK) by discriminate.
  assert (H3 : In (EvNoblock (ERR_OTHER 1) 0)
                 (events_since w_up
                    (snd (turn_to cfg env_broken bottle 1510 10 true false
                            false w_up))))
    by (vm_compute; left; reflexivity).
  split; [exact H1|]. split; [exact H2|]. split; [exact H3|].
  exact (turn_to_scale_error cfg env_broken bottle 1510 10 true false false
           w_up (ERR_OTHER 1) 0 H1 H2 H3).
Defined.

(** Three readings of 50 g. *)
Lemma turn_to_stable_weight_sample :
  fst (turn_to cfg env_steady bottle 1510 10 true true true w_up)
  = Ret (OK, Some 50)
  /\ WEIGHT_EPSILON cfg <= 50
  /\ exists older : list Z,
       recent_samples
         (events_since w_up
            (snd (turn_to cfg env_steady bottle 1510 10 true true true w_up)))
       = 50 :: older.
Proof.
  assert (H : fst (turn_to cfg env_steady bottle 1510 10 true true true w_up)
              = Ret (OK, Some 50)) by reflexivity.
  destruct (turn_to_stable_weight cfg env_steady bottle 1510 10 true true true
              w_up OK 50 H) as [_ [_ [Heps Hnewest]]].
  split; [exact H|]. split; [exact (Heps eq_refl) | exact Hnewest].
Defined.

(** From 1500 to 1510, and asked for 1510 again. *)
Lemma turn_to_reached_then_noop_sample :
  turn_to cfg env_steady bottle 1510 10 true false true w_up
  = (Ret (OK, None),
     snd (turn_to cfg env_steady bottle 1510 10 true false true w_up))
  /\ servo_us (snd (turn_to cfg env_steady bottle 1510 10 true false true w_up))
     = 1510
  /\ turn_to cfg env_steady bottle 1510 3 true true true
       (snd (turn_to cfg env_steady bottle 1510 10 true false true w_up))
     = (Ret (OK, None),
        snd (turn_to cfg env_steady bottle 1510 10 true false true w_up)).
Proof.
  assert (H : turn_to cfg env_steady bottle 1510 10 true false true w_up
              = (Ret (OK, None),
                 snd (turn_to cfg env_steady bottle 1510 10 true false true
                        w_up))) by reflexivity.
  destruct (turn_to_reached_then_noop cfg env_steady bottle 1510 10 true true
              w_up None _ H) as [_ [Hservo [_ Hagain]]].
  split; [exact H|]. split; [exact Hservo|].
  exact (Hagain 3 true true true).
Defined.

(** [turn_up] with the abort flag set, from 1505. *)
Lemma turn_up_ends_upright_sample :
  in_servo_range (pos_up bottle)
  /\ exists r : errv_t,
       fst (turn_up cfg env_abort bottle 5 true w_mid) = Ret (r, None)
       /\ servo_us (snd (turn_up cfg env_abort bottle 5 true w_mid))
          = pos_up bottle
       /\ scale_reads
            (events_since w_mid
               (snd (turn_up cfg env_abort bottle 5 true w_mid)))
          = 0%nat
       /\ (r = OK
           \/ (true = true /\ r <> OK
               /\ In (EvAbortCheck r)
                    (events_since w_mid
                       (snd (turn_up cfg env_abort bottle 5 true w_mid))))).
Proof.
  assert (H : in_servo_range (pos_up bottle)) by (split; discriminate).
  split; [exact H|].
  exact (turn_up_ends_upright cfg env_abort bottle H 5 true w_mid).
Defined.

(** Up at 1500, down at 1520: pause at 1510, baseline taken toward 1515. *)
Lemma get_pause_pos_between_sample :
  in_servo_range (pos_up bottle)
  /\ in_servo_range (pos_down bottle)
  /\ pos_up bottle < pos_down bottle
  /\ in_servo_range (get_pause_pos bottle)
  /\ in_servo_range ((pos_down bottle + get_pause_pos bottle) ÷ 2)
  /\ get_pause_pos bottle <= (pos_down bottle + get_pause_pos bottle) ÷ 2
       <= pos_down bottle.
Proof.
  assert (Hup : in_servo_range (pos_up bottle)) by (split; discriminate).
  assert (Hdown : in_servo_range (pos_down bottle)) by (split; discriminate).
  assert (Hlt : pos_up bottle < pos_down bottle) by reflexivity.
  destruct (get_pause_pos_between bottle) as [_ [_ [Hrange Hbelow]]].
  split; [exact Hup|]. split; [exact Hdown|]. split; [exact Hlt|].
  split; [exact (proj1 (Hrange Hup Hdown))|].
  split; [exact (proj2 (Hrange Hup Hdown)) | exact (Hbelow Hlt)].
Defined.

(** An attempt that gets to wait for 50 + 30 - 5 g. *)
Lemma pour_attempt_waits_down_sample :
  pour_attempt cfg env_steady bottle 30 50 w_up
  = (Ret OK, snd (pour_attempt cfg env_steady bottle 30 50 w_up))
  /\ In (EvDelayUntil 20000 75 true OK)
        (events_since w_up (snd (pour_attempt cfg env_steady bottle 30 50 w_up)))
  /\ exists w1 : World,
       turn_down cfg env_steady bottle (TURN_DOWN_DELAY cfg) true
         (log (EvMsgPouring (number bottle) 50) w_up)
       = (Ret (OK, None), w1)
       /\ servo_us w1 = pos_down bottle
       /\ Forall (fun v => WEIGHT_EPSILON cfg <= v)
            (recent_samples (events_since w_up w1))
       /\ OK = delay_until env_steady (trace w1) (POURING_TIMEOUT cfg)
                 (50 + 30 - UPGRIGHT_OFFSET cfg) true
       /\ snd (pour_attempt cfg env_steady bottle 30 50 w_up)
          = log (EvDelayUntil (POURING_TIMEOUT cfg)
                   (50 + 30 - UPGRIGHT_OFFSET cfg) true OK) w1
       /\ servo_us (snd (pour_attempt cfg env_steady bottle 30 50 w_up))
          = pos_down bottle.
Proof.
  assert (H1 : pour_attempt cfg env_steady bottle 30 50 w_up
               = (Ret OK, snd (pour_attempt cfg env_steady bottle 30 50 w_up)))
    by reflexivity.
  assert (H2 : In (EvDelayUntil 20000 75 true OK)
                 (events_since w_up
                    (snd (pour_attempt cfg env_steady bottle 30 50 w_up))))
    by (vm_compute; left; reflexivity).
  split; [exact H1|]. split; [exact H2|].
  exact (pour_attempt_waits_down cfg env_steady bottle 30 50 w_up OK _ H1
           20000 75 true OK H2).
Defined.

(** The cup is taken away during the first attempt and put back. *)
Lemma pour_cup_removed_sample :
  let w1 := snd (pour_attempt cfg env_cup_taken bottle 30 50 w_up) in
  let w3 := snd (turn_to_pause_pos cfg env_cup_taken bottle
                   (FAST_TURN_UP_DELAY cfg)
                   (log (EvError WHERE_THE_FUCK_IS_THE_CUP None) w1)) in
  pour_attempt cfg env_cup_taken bottle 30 50 w_up
  = (Ret WHERE_THE_FUCK_IS_THE_CUP, w1)
  /\ turn_to_pause_pos cfg env_cup_taken bottle (FAST_TURN_UP_DELAY cfg)
       (log (EvError WHERE_THE_FUCK_IS_THE_CUP None) w1)
     = (Ret (OK, None), w3)
  /\ wait_for_cup env_cup_taken (trace w3) = OK
  /\ servo_us w3 = get_pause_pos bottle
  /\ pouring_loop cfg env_cup_taken bottle 2 30 50 w_up
     = pouring_loop cfg env_cup_taken bottle 1 30 50
         (log (EvPrintLcd 2) (log (EvWaitForCup OK) w3)).
Proof.
  intros w1 w3.
  assert (H1 : pour_attempt cfg env_cup_taken bottle 30 50 w_up
               = (Ret WHERE_THE_FUCK_IS_THE_CUP, w1)) by reflexivity.
  assert (H2 : turn_to_pause_pos cfg env_cup_taken bottle
                 (FAST_TURN_UP_DELAY cfg)
                 (log (EvError WHERE_THE_FUCK_IS_THE_CUP None) w1)
               = (Ret (OK, None), w3)) by reflexivity.
  assert (H3 : wait_for_cup env_cup_taken (trace w3) = OK) by reflexivity.
  destruct (pour_cup_removed cfg env_cup_taken bottle 1 30 50 w_up w1 H1
              OK None w3 H2) as [_ Hok].
  destruct (Hok eq_refl) as [Hservo [_ Hnext]].
  split; [exact H1|]. split; [exact H2|]. split; [exact H3|].
  split; [exact Hservo | exact (Hnext H3)].
Defined.

(** Waiting for the requested weight fails with a code of its own. *)
Lemma pour_other_error_sample :
  let w0 := snd (measure_baseline cfg env_wait_fails bottle 1 0 w_up) in
  let w1 := snd (pour_attempt cfg env_wait_fails bottle 30 50 w0) in
  measure_baseline cfg env_wait_fails bottle 1 0 w_up = (Ret (CupThere 50), w0)
  /\ pour_attempt cfg env_wait_fails bottle 30 50 w0 = (Ret (ERR_OTHER 2), w1)
  /\ pour cfg env_wait_fails bottle 1 30 7 w_up = (Ret (ERR_OTHER 2, 7), w1)
  /\ servo_us w1 = pos_down bottle.
Proof.
  intros w0 w1.
  assert (H1 : measure_baseline cfg env_wait_fails bottle 1 0 w_up
               = (Ret (CupThere 50), w0)) by reflexivity.
  assert (H2 : pour_attempt cfg env_wait_fails bottle 30 50 w0
               = (Ret (ERR_OTHER 2), w1)) by reflexivity.
  assert (Hok : ERR_OTHER 2 <> OK) by discriminate.
  assert (Hempty : ERR_OTHER 2 <> BOTTLE_EMPTY) by discriminate.
  assert (Hcup : ERR_OTHER 2 <> WHERE_THE_FUCK_IS_THE_CUP) by discriminate.
  split; [exact H1|]. split; [exact H2|].
  split; [|reflexivity].
  exact (pour_other_error cfg env_wait_fails bottle 0 30 7 50 w_up w0 w1
           (ERR_OTHER 2) H1 H2 Hok Hempty Hcup).
Defined.

(** The abort flag is set when [pour] starts. *)
Lemma pour_failure_measured_amount_sample :
  pour cfg env_abort bottle 1 30 7 w_up
  = (Ret (ABORTED, 7), snd (pour cfg env_abort bottle 1 30 7 w_up))
  /\ ABORTED <> OK
  /\ (7 = 7
      \/ exists w3 : World,
           ads1231_get_grams env_abort (trace w3) 7 = (ABORTED, 7)
           /\ snd (pour cfg env_abort bottle 1 30 7 w_up)
              = log (EvGetGrams ABORTED 7) w3).
Proof.
  assert (H : pour cfg env_abort bottle 1 30 7 w_up
              = (Ret (ABORTED, 7), snd (pour cfg env_abort bottle 1 30 7 w_up)))
    by reflexivity.
  assert (Hr : ABORTED <> OK) by discriminate.
  split; [exact H|]. split; [exact Hr|].
  exact (pour_failure_measured_amount cfg env_abort bottle 1 30 7 w_up ABORTED
           7 _ H Hr).
Defined.

(** The bottle stands at 1515 with the cup on the scale: three passes, three
    waits for the cup, and no weight. *)
Lemma measure_baseline_stalls_sample :
  servo_us w_below = (pos_down bottle + get_pause_pos bottle) ÷ 2
  /\ in_servo_range (servo_us w_below)
  /\ 0 < WEIGHT_EPSILON cfg
  /\ (forall ow : Z,
         fst (measure_baseline cfg env_steady bottle 3 0 w_below)
         <> Ret (CupThere ow))
  /\ Forall (fun ev => exists r : errv_t, ev = EvWaitForCup r)
       (events_since w_below
          (snd (measure_baseline cfg env_steady bottle 3 0 w_below)))
  /\ servo_us (snd (measure_baseline cfg env_steady bottle 3 0 w_below))
     = servo_us w_below.
Proof.
  assert (H1 : servo_us w_below = (pos_down bottle + get_pause_pos bottle) ÷ 2)
    by reflexivity.
  assert (H2 : in_servo_range (servo_us w_below)) by (split; discriminate).
  assert (H3 : 0 < WEIGHT_EPSILON cfg) by reflexivity.
  split; [exact H1|]. split; [exact H2|]. split; [exact H3|].
  exact (measure_baseline_stalls cfg env_steady bottle 3 0 w_below H1 H2 H3).
Defined.

(** One pass that pours. *)
Lemma pouring_loop_break_sample :
  pouring_loop cfg env_steady bottle 1 30 50 w_up
  = (Ret Poured, snd (pouring_loop cfg env_steady bottle 1 30 50 w_up))
  /\ servo_us (snd (pouring_loop cfg env_steady bottle 1 30 50 w_up))
     = pos_down bottle
  /\ exists w1 : World,
       snd (pouring_loop cfg env_steady bottle 1 30 50 w_up)
       = log (EvDelayUntil (POURING_TIMEOUT cfg)
                (50 + 30 - UPGRIGHT_OFFSET cfg) true OK) w1
       /\ delay_until env_steady (trace w1) (POURING_TIMEOUT cfg)
            (50 + 30 - UPGRIGHT_OFFSET cfg) true
          = OK.
Proof.
  assert (H : pouring_loop cfg env_steady bottle 1 30 50 w_up
              = (Ret Poured,
                 snd (pouring_loop cfg env_steady bottle 1 30 50 w_up)))
    by reflexivity.
  split; [exact H|].
  exact (pouring_loop_break cfg env_steady bottle 1 30 50 w_up _ H).
Defined.

(** Two bottles: both servos attached and told [pos_up], one second spent. *)
Lemma init_attaches_upright_sample :
  2 <= Z.of_nat (length bottles2)
  /\ length (servos rack0) = length bottles2
  /\ waited (init bottles2 2 rack0) = waited rack0 + 500 * Z.max 0 2
  /\ nth_error (servos (init bottles2 2 rack0)) 1
     = Some {| attached := Some 12; pulse := 1490 |}.
Proof.
  assert (H1 : 2 <= Z.of_nat (length bottles2)) by discriminate.
  assert (H2 : length (servos rack0) = length bottles2) by reflexivity.
  destruct (init_attaches_upright bottles2 2 rack0 H1 H2)
    as [Hwaited [_ [Hset _]]].
  split; [exact H1|]. split; [exact H2|]. split; [exact Hwaited|].
  exact (Hset 1%nat {| number := 1; pin := 12; pos_down := 1530; pos_up := 1490 |}
           eq_refl eq_refl).
Defined.

(** The weight keeps rising on the way from 1500 to 1503: the fourth way
    out. *)
Lemma turn_to_returns_sample :
  let run := turn_to cfg env_rising bottle 1503 10 true true true w_up in
  fst run = Ret (WEIGHT_NOT_STABLE, None)
  /\ ((WEIGHT_NOT_STABLE = SERVO_OUT_OF_RANGE /\ @None Z = None
       /\ ~ in_servo_range 1503 /\ snd run = w_up)
      \/ (WEIGHT_NOT_STABLE = OK /\ @None Z = None /\ servo_us (snd run) = 1503)
      \/ (WEIGHT_NOT_STABLE = OK /\ true = true /\ exists v : Z, None = Some v)
      \/ (WEIGHT_NOT_STABLE = WEIGHT_NOT_STABLE /\ true = true
          /\ @None Z = None /\ servo_us (snd run) = 1503)
      \/ (WEIGHT_NOT_STABLE = WHERE_THE_FUCK_IS_THE_CUP /\ true = true
          /\ @None Z = None
          /\ exists (x : Z) (before : list Event),
               events_since w_up (snd run) = EvNoblock OK x :: before
               /\ x < WEIGHT_EPSILON cfg)
      \/ (WEIGHT_NOT_STABLE <> OK /\ true = true /\ @None Z = None
          /\ In (EvAbortCheck WEIGHT_NOT_STABLE) (events_since w_up (snd run)))
      \/ (WEIGHT_NOT_STABLE <> OK /\ WEIGHT_NOT_STABLE <> ADS1231_WOULD_BLOCK
          /\ true || true = true /\ @None Z = None
          /\ exists (x : Z) (before : list Event),
               events_since w_up (snd run)
               = EvNoblock WEIGHT_NOT_STABLE x :: before)).
Proof.
  intro run.
  assert (H : fst run = Ret (WEIGHT_NOT_STABLE, None)) by reflexivity.
  split; [exact H|].
  exact (turn_to_returns cfg env_rising bottle 1503 10 true true true w_up
           WEIGHT_NOT_STABLE None H).
Defined.

(** * The weight before pouring is not taken again *)

Lemma repeat_shift (ev : Event) (n : nat) (l : list Event) :
  repeat ev n ++ ev :: l = ev :: repeat ev n ++ l.
Proof.
  induction n as [|n IH]; simpl; [reflexivity|]. now rewrite IH.
Qed.

(** With the bottle below the pause position and 3 g in [orig_weight], the
    first loop of [pour] only calls [wait_for_cup], pass after pass. *)
Lemma measure_baseline_waits_only :
  forall (fuel : nat) (w : World),
    servo_us w = 1515 ->
    measure_baseline cfg env_cup_late bottle fuel 3 w
    = (OutOfFuel,
       {| servo_us := servo_us w;
          trace := repeat (EvWaitForCup OK) fuel ++ trace w |}).
Proof.
  induction fuel as [|fuel IH]; intros w Hservo.
  { destruct w. reflexivity. }
  assert (Hsample : baseline_sample cfg env_cup_late bottle 3 w
                    = (Ret (OK, 3), w)).
  { unfold baseline_sample, bind, turn_to, turn_to_with, readMicroseconds.
    rewrite Hservo. reflexivity. }
  cbn [measure_baseline]. unfold bind at 1. rewrite Hsample.
  cbn [fst snd].
  change (3 <? WEIGHT_EPSILON cfg) with true.
  change (nonzero OK) with false.
  change (errv_eqb OK WHERE_THE_FUCK_IS_THE_CUP) with false.
  cbn [andb orb].
  unfold RETURN_IFN_0, bind, ask.
  change (wait_for_cup env_cup_late (trace w)) with OK.
  change (nonzero OK) with false. cbv iota.
  rewrite IH by exact Hservo.
  cbn [log servo_us trace repeat app]. now rewrite repeat_shift.
Qed.

(** C10.  The code at the failing input.  The sample bottle stands upright
    and [pour] is called.  While the bottle turns toward the position below
    the pause position the readings keep changing (none below
    WEIGHT_EPSILON), so the target is reached without a stable weight; the
    blocking stable reading then returns 0 with 3 g, the cup being off the
    scale.  That is the case of the claim: the step that takes the weight
    reports neither a failure nor a missing cup, and the weight is below
    WEIGHT_EPSILON.  [wait_for_cup] is called and returns 0, and from then on
    the scale would show the cup (50 g).  But the bottle now stands where the
    first loop turns to, so every further pass of the loop is [turn_to]
    returning 0 before its loop (lines 60-62), without a reading, and
    [wait_for_cup] again: after the first pass the history contains calls of
    [wait_for_cup] only, [orig_weight] stays at 3, and the first loop is not
    left, however many passes are followed. *)
Theorem pour_baseline_not_remeasured :
  forall (fuel : nat) (requested_amount measured_amount : Z),
    fst (baseline_sample cfg env_cup_late bottle 0 w_up) = Ret (OK, 3)
    /\ 3 < WEIGHT_EPSILON cfg
    /\ servo_us (snd (baseline_sample cfg env_cup_late bottle 0 w_up))
       = (pos_down bottle + get_pause_pos bottle) ÷ 2
    /\ events_since w_up
         (snd (pour cfg env_cup_late bottle (S fuel) requested_amount
                 measured_amount w_up))
       = repeat (EvWaitForCup OK) (S fuel)
         ++ events_since w_up
              (snd (baseline_sample cfg env_cup_late bottle 0 w_up))
    /\ fst (pour cfg env_cup_late bottle (S fuel) requested_amount
              measured_amount w_up)
       = OutOfFuel
    /\ (forall k : nat,
          ads1231_get_noblock env_cup_late
            (repeat (EvWaitForCup OK) (S k)
             ++ events_since w_up
                  (snd (baseline_sample cfg env_cup_late bottle 0 w_up)))
          = (OK, 50)
          /\ ads1231_get_stable_grams env_cup_late
               (repeat (EvWaitForCup OK) (S k)
                ++ events_since w_up
                     (snd (baseline_sample cfg env_cup_late bottle 0 w_up)))
               3
             = (OK, 50))
    /\ WEIGHT_EPSILON cfg <= 50.
Proof.
  intros fuel req m.
  assert (Hsample : baseline_sample cfg env_cup_late bottle 0 w_up
                    = (Ret (OK, 3),
                       snd (baseline_sample cfg env_cup_late bottle 0 w_up)))
    by reflexivity.
  assert (Hservo : servo_us
                     (snd (baseline_sample cfg env_cup_late bottle 0 w_up))
                   = 1515) by reflexivity.
  revert Hsample Hservo.
  generalize (snd (baseline_sample cfg env_cup_late bottle 0 w_up)).
  intros w1 Hsample Hservo. rewrite Hsample. cbn [fst].
  assert (Hfirst : events_since w_up w1 = trace w1).
  { apply events_since_app. change (trace w_up) with (@nil Event).
    symmetry. apply app_nil_r. }
  assert (Hbase : measure_baseline cfg env_cup_late bottle (S fuel) 0 w_up
                  = (OutOfFuel,
                     {| servo_us := 1515;
                        trace := repeat (EvWaitForCup OK) (S fuel)
                                 ++ trace w1 |})).
  { cbn [measure_baseline]. unfold bind at 1. rewrite Hsample.
    cbn [fst snd].
    change (3 <? WEIGHT_EPSILON cfg) with true.
    change (nonzero OK) with false.
    change (errv_eqb OK WHERE_THE_FUCK_IS_THE_CUP) with false.
    cbn [andb orb].
    unfold RETURN_IFN_0, bind, ask.
    change (wait_for_cup env_cup_late (trace w1)) with OK.
    change (nonzero OK) with false. cbv iota.
    rewrite measure_baseline_waits_only by exact Hservo.
    cbn [log servo_us trace repeat app].
    now rewrite repeat_shift, Hservo. }
  assert (Hpour : pour cfg env_cup_late bottle (S fuel) req m w_up
                  = (OutOfFuel,
                     {| servo_us := 1515;
                        trace := repeat (EvWaitForCup OK) (S fuel)
                                 ++ trace w1 |})).
  { unfold pour. unfold bind at 1. now rewrite Hbase. }
  rewrite Hpour, Hfirst. cbn [fst snd].
  split; [reflexivity|]. split; [reflexivity|].
  split; [rewrite Hservo; reflexivity|].
  split.
  { apply events_since_app. cbn [trace].
    change (trace w_up) with (@nil Event). symmetry. apply app_nil_r. }
  split; [reflexivity|].
  split; [|discriminate].
  intro k. split; reflexivity.
Qed.
